(** * Uncoordinated checkpointing of Styx: recovery and delta compaction

    A shallow embedding of
      - [worker/fault_tolerance/uncoordinated_snapshots.py]
        (class [UncoordinatedSnapshotsMinio]: [retrieve_snapshot],
        [store_snapshot], [get_snapshot_path], [get_sequencer_path], and the
        snapshot round of [start_snapshotting], [should_take_snapshot] and
        [snapshot_completed_callback]), and
      - [coordinator/uncoordinated_snapshot_compactor.py]
        ([get_uncoordinated_snapshots_per_worker],
        [compact_uncoordinated_deltas], [cleanup_compacted_files],
        [start_uncoordinated_snapshot_compaction]),
    together with the properties of the two that the specification states
    and further properties that the code of the two has.

    The MinIO bucket is a finite map from object names to decoded payloads;
    Python exceptions are an explicit error value; the compactor, which
    writes to the bucket and can raise half-way, runs in a state-and-error
    monad over the bucket. *)

From Stdlib Require Import ZArith Ascii String List Sorting.Sorted.
From Stdlib Require Import Decimal DecimalString DecimalPos DecimalZ.
From stdpp Require Import base tactics option list sorting gmap strings.

Local Open Scope string_scope.
Local Open Scope Z_scope.

(** ** The Python built-ins the two modules use

    A character of the model is one code point below 256, and an object name
    is a string of such code points; a name with a code point from 256 on is
    outside the model. Below 256 the decimal digits of [int] are 0 to 9 and
    the white space that [int] strips is tab, LF, VT, FF, CR, space, NEL
    (133) and the no-break space (160). *)

Module Py.

(** Exceptions that the modelled code can raise. *)
Inductive exn :=
| ValueError      (* int() of a string that is not an integer literal;
                     unpacking, or an element of a dict.update sequence, of
                     the wrong length *)
| NoSuchKey       (* get_object of a name that is not in the bucket *)
| TypeError       (* an element of a dict.update sequence that is no sequence *)
| AttributeError  (* .update on a value that is not a dict *)
| OutsideModel.   (* no exception: the code goes on with values that the model
                     has no type for *)

#[global] Instance exn_eq_dec : EqDecision exn.
Proof. solve_decision. Defined.

(** [s.split(sep)] for a one-character separator. *)
Fixpoint split (sep : ascii) (s : string) : list string :=
  match s with
  | EmptyString => [EmptyString]
  | String c r =>
      if Ascii.eqb c sep then EmptyString :: split sep r
      else match split sep r with
           | h :: t => String c h :: t
           | [] => [String c EmptyString]
           end
  end.

(** [s.startswith(p)] and [s.endswith(p)]. *)
Definition startswith (s p : string) : bool := String.prefix p s.

Fixpoint endswith (s p : string) : bool :=
  if String.eqb s p then true
  else match s with
       | EmptyString => false
       | String _ r => endswith r p
       end.

(** [l[0]] and [l[-1]] on the non-empty lists that [split] returns. *)
Definition first (l : list string) : string := List.hd EmptyString l.
Definition last (l : list string) : string := List.last l EmptyString.

(** White space as [int] strips it: tab, LF, VT, FF, CR, space, NEL and the
    no-break space. The separators FS, GS, RS and US (28 to 31) are not
    stripped. *)
Definition isspace (c : ascii) : bool :=
  let n := N_of_ascii c in
  ((9 <=? n) && (n <=? 13) || (n =? 32) || (n =? 133) || (n =? 160))%N.

Definition isdigit (c : ascii) : bool :=
  let n := N_of_ascii c in ((48 <=? n) && (n <=? 57))%N.

Fixpoint lstrip (s : string) : string :=
  match s with
  | String c r => if isspace c then lstrip r else s
  | EmptyString => EmptyString
  end.

Fixpoint rstrip (s : string) : string :=
  match s with
  | EmptyString => EmptyString
  | String c r =>
      let r' := rstrip r in
      if isspace c && String.eqb r' EmptyString then EmptyString else String c r'
  end.

(** The digits of an integer literal: single underscores are allowed between
    two digits and nowhere else; the literal is not empty. *)
Fixpoint digits (after_digit : bool) (s : string) : option string :=
  match s with
  | EmptyString => if after_digit then Some EmptyString else None
  | String c r =>
      if isdigit c then String c <$> digits true r
      else if Ascii.eqb c "_" && after_digit then digits false r
      else None
  end.

Definition nat_literal (s : string) : option Z :=
  d ← digits false s;
  u ← NilZero.uint_of_string d;
  Some (Z.of_uint u).

(** [int(s)] in base ten: surrounding white space, an optional sign, digits.
    [inl ValueError] is the exception. The value is unbounded: the limit on
    the number of digits of a conversion, 4300 unless the interpreter is
    configured otherwise, above which [int] and [str] raise ValueError, is
    not modelled. *)
Definition int (s : string) : exn + Z :=
  let body := rstrip (lstrip s) in
  let v := match body with
           | String c r =>
               if Ascii.eqb c "-" then Z.opp <$> nat_literal r
               else if Ascii.eqb c "+" then nat_literal r
               else nat_literal body
           | EmptyString => None
           end in
  match v with
  | Some z => inr z
  | None => inl ValueError
  end.

(** [str(z)], which is also how an f-string renders an integer (below the
    limit on the number of digits, see [int]). *)
Definition str (z : Z) : string := NilZero.string_of_int (Z.to_int z).

(** Stable insertion sort by an integer key: [sorted(l, key=...)] and
    [l.sort(key=...)] keep the order of elements with equal keys. *)
Section sorted.
Context {A : Type} (key : A → Z).

Fixpoint insert_by (x : A) (l : list A) : list A :=
  match l with
  | [] => [x]
  | y :: r => if Z.leb (key x) (key y) then x :: l else y :: insert_by x r
  end.

Definition sorted (l : list A) : list A := foldr insert_by [] l.
End sorted.

End Py.

(** ** Exceptions as values

    [Py.exn + A]: [inl e] is a raised exception, [inr a] a normal result. *)

#[global] Instance exn_ret : MRet (sum Py.exn) := λ _ a, inr a.
#[global] Instance exn_bind : MBind (sum Py.exn) := λ _ _ f m,
  match m with
  | inl e => inl e
  | inr a => f a
  end.

(** A [for] loop whose body can raise, threading the loop's local variables. *)
Fixpoint for_each {A B} (body : A → B → Py.exn + A) (l : list B) (a : A)
  : Py.exn + A :=
  match l with
  | [] => inr a
  | x :: r => a' ← body a x; for_each body r a'
  end.

(** A list comprehension whose element expression can raise. *)
Fixpoint comprehension {A B} (f : A → Py.exn + B) (l : list A)
  : Py.exn + list B :=
  match l with
  | [] => inr []
  | x :: r => y ← f x; ys ← comprehension f r; inr (y :: ys)
  end.

(** ** Data model *)

(** [OperatorPartition]: operator name and partition number. *)
Abbreviation OperatorPartition := (string * Z)%type.
(** [KVPairs]: the state of one operator partition. *)
Abbreviation KVPairs := (gmap string Z).
(** [dict[OperatorPartition, int]]: offsets per operator partition. *)
Abbreviation Offsets := (gmap (string * Z) Z).

(** What [msgpack_deserialization] gives for an object of the bucket: a state
    delta (a dict) or a sequencer record (input offsets, output offsets,
    epoch counter, t counter). The codec is opaque: the bucket holds the
    decoded values. *)
Inductive payload :=
| PDict (kv : KVPairs)
| PRecord (input_offsets output_offsets : Offsets) (epoch t_counter : Z).

#[global] Instance payload_eq_dec : EqDecision payload.
Proof. solve_decision. Defined.

(** Python truth value: an empty dict is false, a four-tuple is true. *)
Definition truthy (v : payload) : bool :=
  match v with
  | PDict kv => bool_decide (kv ≠ ∅)
  | PRecord _ _ _ _ => true
  end.

(** [d.update(other)] on dicts: the keys of [other] overwrite those of [d]. *)
Definition dict_update (d other : KVPairs) : KVPairs := other ∪ d.

(** [d.update(other)] for a dict [d] and a decoded payload. A record is
    taken as a sequence of key and value pairs: its first element, the input
    offsets, passes for a pair when it has exactly two keys, and so does the
    second, the output offsets; an element of another length raises
    ValueError, and the third element, an integer, raises TypeError. Updating
    from a record never returns. *)
Definition update_from (d : KVPairs) (other : payload) : Py.exn + KVPairs :=
  match other with
  | PDict o => inr (dict_update d o)
  | PRecord i o _ _ =>
      if decide (size i = 2%nat ∧ size o = 2%nat) then inl Py.TypeError
      else inl Py.ValueError
  end.

(** [cur.update(other)] on decoded payloads: a record has no [update]
    (AttributeError). *)
Definition payload_update (cur other : payload) : Py.exn + payload :=
  match cur with
  | PDict d => d' ← update_from d other; inr (PDict d')
  | PRecord _ _ _ _ => inl Py.AttributeError
  end.

(** ** The MinIO bucket [SNAPSHOT_BUCKET_NAME] *)

Abbreviation bucket := (gmap string payload).

Definition string_le (a b : string) : Prop := String.leb a b = true.

#[global] Instance string_le_dec a b : Decision (string_le a b).
Proof. unfold string_le. apply _. Defined.

Module Minio.

Definition put_object (b : bucket) (name : string) (v : payload) : bucket :=
  <[name := v]> b.

Definition get_object (b : bucket) (name : string) : Py.exn + payload :=
  match b !! name with
  | Some v => inr v
  | None => inl Py.NoSuchKey
  end.

(** Removing a name that is not there is not an error. *)
Definition remove_object (b : bucket) (name : string) : bucket :=
  delete name b.

(** [list_objects(prefix=..., recursive=True)]: the names under the prefix, in
    the lexicographic order in which the object store lists them. *)
Definition list_objects (b : bucket) (prefix : string) : list string :=
  filter (λ name, Is_true (Py.startswith name prefix))
         (merge_sort string_le (map_to_list b).*1).

End Minio.

(** ** Snapshot addressing *)

Definition get_snapshot_path (worker_id : Z) (operator_name : string)
    (partition snapshot_id : Z) : string :=
  "uncoordinated/" +:+ Py.str worker_id +:+ "/" +:+ operator_name +:+ "/"
    +:+ Py.str partition +:+ "/" +:+ Py.str snapshot_id +:+ ".bin".

Definition get_sequencer_path (worker_id snapshot_id : Z) : string :=
  "uncoordinated/" +:+ Py.str worker_id +:+ "/sequencer/"
    +:+ Py.str snapshot_id +:+ ".bin".

(** ** The worker-side snapshotter: [UncoordinatedSnapshotsMinio]

    The fields that hold times and the offsets handed to the coordinator
    notification play no part in recovery and are left out. *)

Record UncoordinatedSnapshotsMinio := {
  worker_id : Z;
  snapshot_id : Z;
  n_assigned_partitions : Z;
  completed_snapshots : Z;
  snapshot_in_progress : bool
}.

(** [__init__]. *)
Definition init (worker_id n_assigned_partitions : Z)
  : UncoordinatedSnapshotsMinio :=
  {| worker_id := worker_id; snapshot_id := 0;
     n_assigned_partitions := n_assigned_partitions;
     completed_snapshots := 0; snapshot_in_progress := false |}.

Definition set_snapshot_id (self : UncoordinatedSnapshotsMinio) (v : Z)
  : UncoordinatedSnapshotsMinio :=
  {| worker_id := worker_id self; snapshot_id := v;
     n_assigned_partitions := n_assigned_partitions self;
     completed_snapshots := completed_snapshots self;
     snapshot_in_progress := snapshot_in_progress self |}.

(** [int(snapshot_file.split("/")[-1].split(".")[0])]. *)
Definition file_snapshot_id (snapshot_file : string) : Py.exn + Z :=
  Py.int (Py.first (Py.split "." (Py.last (Py.split "/" snapshot_file)))).

(** [sorted([(int(...), f) for f in files], key=lambda item: item[0])]. *)
Definition merge_order (files : list string) : Py.exn + list (Z * string) :=
  items ← comprehension (λ f, sn_id ← file_snapshot_id f; inr (sn_id, f)) files;
  inr (Py.sorted fst items).

(** The names with the [.bin] suffix under a prefix. *)
Definition bin_files (b : bucket) (prefix : string) : list string :=
  filter (λ name, Is_true (Py.endswith name ".bin")) (Minio.list_objects b prefix).

(** Body of the loop over [snapshot_merge_order], lines 150-160. *)
Definition merge_delta (b : bucket) (target : Z) (operator_partition : OperatorPartition)
    (data : gmap (string * Z) payload) (item : Z * string)
  : Py.exn + gmap (string * Z) payload :=
  let '(sn_id, sn_name) := item in
  if target <? sn_id then inr data
  else
    partition_data ← Minio.get_object b sn_name;
    match data !! operator_partition with
    | Some cur =>
        if truthy partition_data then
          cur' ← payload_update cur partition_data;
          inr (<[operator_partition := cur']> data)
        else inr (<[operator_partition := partition_data]> data)
    | None => inr (<[operator_partition := partition_data]> data)
    end.

(** Body of the loop over [registered_operators], lines 132-160. *)
Definition recover_partition (b : bucket) (worker : Z) (target : Z)
    (data : gmap (string * Z) payload) (operator_partition : OperatorPartition)
  : Py.exn + gmap (string * Z) payload :=
  let '(operator_name, partition) := operator_partition in
  let snapshot_files :=
    bin_files b ("uncoordinated/" +:+ Py.str worker +:+ "/" +:+ operator_name
                   +:+ "/" +:+ Py.str partition +:+ "/") in
  snapshot_merge_order ← merge_order snapshot_files;
  for_each (merge_delta b target operator_partition) snapshot_merge_order data.

(** The sequencer metadata: input offsets, output offsets, epoch, t counter. *)
Abbreviation sequencer_record := (Offsets * Offsets * Z * Z)%type.

(** Body of the loop over [sequencer_merge_order], lines 183-189. Unpacking
    a dict iterates over its keys: with a number of keys other than four it
    raises ValueError; with exactly four keys the code binds the keys, in
    insertion order, to the four variables and goes on, which the model,
    whose offsets are maps and whose dicts have no insertion order, marks as
    outside it. *)
Definition take_record (b : bucket) (target : Z)
    (acc : sequencer_record) (item : Z * string) : Py.exn + sequencer_record :=
  let '(sn_id, sn_name) := item in
  if target <? sn_id then inr acc
  else
    v ← Minio.get_object b sn_name;
    match v with
    | PRecord i o e t => inr (i, o, e, t)
    | PDict kv =>
        if decide (size kv = 4%nat) then inl Py.OutsideModel
        else inl Py.ValueError
    end.

(** Lines 162-189. *)
Definition recover_sequencer (b : bucket) (worker : Z) (target : Z)
  : Py.exn + sequencer_record :=
  let sequencer_snapshot_files :=
    bin_files b ("uncoordinated/" +:+ Py.str worker +:+ "/sequencer/") in
  sequencer_merge_order ← merge_order sequencer_snapshot_files;
  for_each (take_record b target) sequencer_merge_order (∅, ∅, 0, 0).

(** What [retrieve_snapshot] returns: the state per operator partition, the
    input and output offsets ([None] is Python's [None]), epoch, t counter. *)
Abbreviation recovered :=
  (gmap (string * Z) payload * option Offsets * option Offsets * Z * Z)%type.

(** [retrieve_snapshot(self, snapshot_id, registered_operators)]: the
    snapshotter after the call, and the value returned or exception raised.
    The bucket is only read. *)
Definition retrieve_snapshot (self : UncoordinatedSnapshotsMinio) (b : bucket)
    (target : Z) (registered_operators : list OperatorPartition)
  : UncoordinatedSnapshotsMinio * (Py.exn + recovered) :=
  let self := set_snapshot_id self (target + 1) in
  if target =? -1 then (self, inr (∅, None, None, 0, 0))
  else
    (self,
     data ← for_each (recover_partition b (worker_id self) target)
                     registered_operators ∅;
     '(topic_partition_offsets, topic_partition_output_offsets, epoch, t_counter)
        ← recover_sequencer b (worker_id self) target;
     inr (data, Some topic_partition_offsets,
          Some topic_partition_output_offsets, epoch, t_counter)).

(** ** The compactor

    The compactor writes to and deletes from the bucket and can raise between
    two writes: it runs in a state-and-error monad over the bucket, which
    keeps the bucket as it is at the moment an exception is raised. *)

Definition M (A : Type) : Type := bucket → bucket * (Py.exn + A).

#[global] Instance M_ret : MRet M := λ _ a b, (b, inr a).
#[global] Instance M_bind : MBind M := λ _ _ f m b,
  match m b with
  | (b', inl e) => (b', inl e)
  | (b', inr a) => f a b'
  end.

Definition raise_or_return {A} (r : Py.exn + A) : M A := λ b, (b, r).
Definition read {A} (f : bucket → A) : M A := λ b, (b, inr (f b)).
Definition write (f : bucket → bucket) : M unit := λ b, (f b, inr tt).

Fixpoint for_each_M {A B} (body : A → B → M A) (l : list B) (a : A) : M A :=
  match l with
  | [] => mret a
  | x :: r => a' ← body a x; for_each_M body r a'
  end.

(** [dict[worker_id, dict[operator_partition, list[(snapshot_id, file_path)]]]],
    with the entries in insertion order, which is the order of iteration. *)
Abbreviation partition_snapshots := (list ((string * Z) * list (Z * string))).
Abbreviation worker_partition_snapshots :=
  (list (Z * list ((string * Z) * list (Z * string)))).

(** [d[k] = f(d[k])] on a [defaultdict] whose missing entries are [dflt]: a
    new key goes last. *)
Fixpoint dd_update {K V} `{EqDecision K} (dflt : V) (k : K) (f : V → V)
    (d : list (K * V)) : list (K * V) :=
  match d with
  | [] => [(k, f dflt)]
  | (k', v) :: r =>
      if decide (k = k') then (k', f v) :: r
      else (k', v) :: dd_update dflt k f r
  end.

(** Body of the first loop of [get_uncoordinated_snapshots_per_worker],
    lines 27-43. *)
Definition add_snapshot_file (max_snap_id : Z)
    (snapshots_per_worker : worker_partition_snapshots) (sn_file : string)
  : Py.exn + worker_partition_snapshots :=
  if negb (Py.startswith sn_file "uncoordinated/") then inr snapshots_per_worker
  else
    let parts := Py.split "/" sn_file in
    if (length parts <? 5)%nat then inr snapshots_per_worker
    else
      worker_id ← Py.int (nth 1 parts "");
      let operator_name := nth 2 parts "" in
      partition ← Py.int (nth 3 parts "");
      snapshot_id ← Py.int (Py.first (Py.split "." (nth 4 parts "")));
      if snapshot_id <=? max_snap_id then
        inr (dd_update [] worker_id
               (dd_update [] (operator_name, partition)
                  (λ l, (l ++ [(snapshot_id, sn_file)])%list))
               snapshots_per_worker)
      else inr snapshots_per_worker.

(** The second loop, lines 46-48: every list sorted by snapshot id. *)
Definition sort_snapshots (snapshots_per_worker : worker_partition_snapshots)
  : worker_partition_snapshots :=
  (λ worker : Z * list ((string * Z) * list (Z * string)),
     (worker.1,
      (λ group : (string * Z) * list (Z * string),
         (group.1, Py.sorted fst group.2)) <$> worker.2))
    <$> snapshots_per_worker.

Definition get_uncoordinated_snapshots_per_worker (snapshot_files : list string)
    (max_snap_id : Z) : Py.exn + worker_partition_snapshots :=
  snapshots_per_worker ← for_each (add_snapshot_file max_snap_id) snapshot_files [];
  inr (sort_snapshots snapshots_per_worker).

(** Body of the loop over the snapshots of one operator partition, lines
    73-79; [data] and [snapshots_to_delete] are the loop's variables. *)
Definition load_delta (b : bucket) (acc : KVPairs * list string)
    (item : Z * string) : Py.exn + (KVPairs * list string) :=
  let '(data, snapshots_to_delete) := acc in
  let '(sn_id, sn_name) := item in
  partition_data ← Minio.get_object b sn_name;
  data ← (if truthy partition_data then update_from data partition_data
          else inr data);
  inr (data, (snapshots_to_delete ++ [sn_name])%list).

(** Body of the loop over the operator partitions of a worker, lines 65-87. *)
Definition compact_partition (worker_id : Z) (snapshots_to_delete : list string)
    (entry : (string * Z) * list (Z * string)) : M (list string) :=
  let '((operator_name, partition), snapshots) := entry in
  if (length snapshots <=? 1)%nat then mret snapshots_to_delete
  else
    '(data, snapshots_to_delete)
      ← (λ b, raise_or_return
                (for_each (load_delta b) snapshots (∅, snapshots_to_delete)) b);
    if bool_decide (data ≠ ∅) then
      let merged_snapshot_path :=
        "uncoordinated/" +:+ Py.str worker_id +:+ "/" +:+ operator_name +:+ "/"
          +:+ Py.str partition +:+ "/0.bin" in
      _ ← write (λ b, Minio.put_object b merged_snapshot_path (PDict data));
      mret snapshots_to_delete
    else mret snapshots_to_delete.

(** [cleanup_compacted_files]: no removal raises on this bucket, so the
    [except] branch is never taken. *)
Definition cleanup_compacted_files (sequencer_files_to_delete
    data_files_to_delete : list string) : M unit :=
  write (λ b, foldl Minio.remove_object b
                (sequencer_files_to_delete ++ data_files_to_delete)%list).

Definition compact_uncoordinated_deltas (snapshot_files : list string)
    (max_snap_id : Z) : M unit :=
  snapshots_per_worker
    ← raise_or_return
        (get_uncoordinated_snapshots_per_worker snapshot_files max_snap_id);
  snapshots_to_delete
    ← for_each_M
        (λ snapshots_to_delete '(worker_id, worker_snapshots),
           for_each_M (compact_partition worker_id) worker_snapshots
                      snapshots_to_delete)
        snapshots_per_worker [];
  match snapshots_to_delete with
  | [] => mret tt
  | _ => cleanup_compacted_files [] snapshots_to_delete
  end.

(** [start_uncoordinated_snapshot_compaction]: the [except] branch logs and
    re-raises. *)
Definition start_uncoordinated_snapshot_compaction (max_snap_id : Z) : M unit :=
  snapshot_files ← read (λ b, bin_files b "");
  compact_uncoordinated_deltas snapshot_files max_snap_id.

(** ** The writer and the snapshot round

    [store_snapshot] writes one encoded object; the bucket holds it decoded.
    The round is the part of the life cycle that the integer and boolean
    fields carry. The comparison of the clock with the snapshot interval in
    [should_take_snapshot] is on floating-point times, which are not
    modelled: its outcome is an argument. Of the coordinator notification,
    sent from a detached thread, the round keeps the worker id and the
    snapshot id that the message reports. *)

(** [store_snapshot(snapshot_id, snapshot_name, data_to_snapshot)]. *)
Definition store_snapshot (snapshot_id : Z) (snapshot_name : string)
    (data_to_snapshot : payload) : M bool :=
  _ ← write (λ b, Minio.put_object b snapshot_name data_to_snapshot);
  mret true.

(** [should_take_snapshot], with [interval_elapsed] for
    [time.time() - self.last_snapshot_time > self.snapshot_interval]. *)
Definition should_take_snapshot (interval_elapsed : bool)
    (self : UncoordinatedSnapshotsMinio) : bool :=
  interval_elapsed && negb (snapshot_in_progress self).

(** [start_snapshotting]: of its assignments, the one to a modelled field. *)
Definition start_snapshotting (self : UncoordinatedSnapshotsMinio)
  : UncoordinatedSnapshotsMinio :=
  {| worker_id := worker_id self; snapshot_id := snapshot_id self;
     n_assigned_partitions := n_assigned_partitions self;
     completed_snapshots := completed_snapshots self;
     snapshot_in_progress := true |}.

(** [snapshot_completed_callback]: the snapshotter after the call, and the
    worker id and snapshot id of the notification when one is sent. The
    notification is built before [snapshot_id] is incremented. *)
Definition snapshot_completed_callback (self : UncoordinatedSnapshotsMinio)
  : UncoordinatedSnapshotsMinio * option (Z * Z) :=
  let completed := completed_snapshots self + 1 in
  if completed =? n_assigned_partitions self then
    ({| worker_id := worker_id self; snapshot_id := snapshot_id self + 1;
        n_assigned_partitions := n_assigned_partitions self;
        completed_snapshots := 0;
        snapshot_in_progress := false |},
     Some (worker_id self, snapshot_id self))
  else
    ({| worker_id := worker_id self; snapshot_id := snapshot_id self;
        n_assigned_partitions := n_assigned_partitions self;
        completed_snapshots := completed;
        snapshot_in_progress := snapshot_in_progress self |},
     None).

(** The snapshotter after [k] calls of the callback in a row. *)
Fixpoint after_callbacks (k : nat) (self : UncoordinatedSnapshotsMinio)
  : UncoordinatedSnapshotsMinio :=
  match k with
  | O => self
  | S k' => (snapshot_completed_callback (after_callbacks k' self)).1
  end.

(** * Definitions used in the statements

    Names for what the statements below speak about: the prefixes under which
    recovery lists, the items of a merge order that qualify, the merge rule,
    what the compactor reads off an object name, its groups, and the buckets
    of the scenarios. *)

(** The character occurs in the string. *)
Fixpoint contains (c : ascii) (s : string) : bool :=
  match s with
  | EmptyString => false
  | String c' r => Ascii.eqb c' c || contains c r
  end.

(** Every character of the string satisfies [P]. *)
Fixpoint all_chars (P : ascii → bool) (s : string) : bool :=
  match s with
  | EmptyString => true
  | String c r => P c && all_chars P r
  end.

(** Ascending order of the keys. *)
Definition key_le {A : Type} (key : A → Z) (x y : A) : Prop := key x ≤ key y.

(** The prefix under which the deltas of one operator partition are listed. *)
Definition partition_prefix (worker : Z) (operator_partition : OperatorPartition)
  : string :=
  "uncoordinated/" +:+ Py.str worker +:+ "/" +:+ operator_partition.1 +:+ "/"
    +:+ Py.str operator_partition.2 +:+ "/".

(** The prefix under which the sequencer records of a worker are listed. *)
Definition sequencer_prefix (worker : Z) : string :=
  "uncoordinated/" +:+ Py.str worker +:+ "/sequencer/".

(** The items of a merge order that recovery at [target] does not skip. *)
Definition qualifying (target : Z) (order : list (Z * string))
  : list (Z * string) :=
  filter (λ item, item.1 ≤ target) order.

(** C4 as the specification words it: a fresh start returns an empty state
    map for every owned partition and empty offset maps. *)
Definition fresh_start_as_specified (self : UncoordinatedSnapshotsMinio)
    (b : bucket) (registered_operators : list OperatorPartition) : Prop :=
  ∃ data,
    (retrieve_snapshot self b (-1) registered_operators).2
      = inr (data, Some ∅, Some ∅, 0, 0)
    ∧ ∀ op, op ∈ registered_operators → data !! op = Some (PDict ∅).

(** C3 as the specification words its last clause: when no listed sequencer
    delta has an id at most the target, recovery returns empty maps for the
    offsets and 0 for epoch and t counter. *)
Definition sequencer_defaults_as_specified (self : UncoordinatedSnapshotsMinio)
    (b : bucket) (target : Z) (registered_operators : list OperatorPartition)
  : Prop :=
  (∀ name id,
     name ∈ bin_files b (sequencer_prefix (worker_id self)) →
     file_snapshot_id name = inr id → target < id) →
  ∃ data,
    (retrieve_snapshot self b target registered_operators).2
      = inr (data, Some ∅, Some ∅, 0, 0).

(** The scenario of the specification: worker 3, operator ["orders"],
    partition 0 with deltas 0 = {a:1, b:2}, 1 = {b:3, c:4}, 2 = {a:5}, and
    sequencer deltas 0 = offsets {p0:10}, 1 = offsets {p0:20, p1:5}. *)
Definition orders_bucket : bucket :=
  <[get_snapshot_path 3 "orders" 0 0 := PDict (<["a" := 1]> (<["b" := 2]> ∅))]>
  (<[get_snapshot_path 3 "orders" 0 1 := PDict (<["b" := 3]> (<["c" := 4]> ∅))]>
  (<[get_snapshot_path 3 "orders" 0 2 := PDict (<["a" := 5]> ∅)]>
  (<[get_sequencer_path 3 0 := PRecord (<[("p", 0) := 10]> ∅) ∅ 1 7]>
  (<[get_sequencer_path 3 1
       := PRecord (<[("p", 0) := 20]> (<[("p", 1) := 5]> ∅)) ∅ 2 9]> ∅)))).

(** C8 as the specification words it: a partition without qualifying deltas
    is in the result, with an empty state map. *)
Definition empty_partition_as_specified (self : UncoordinatedSnapshotsMinio)
    (b : bucket) (target : Z) (registered_operators : list OperatorPartition)
    (op : OperatorPartition) : Prop :=
  ∃ data oi oo e t,
    (retrieve_snapshot self b target registered_operators).2
      = inr (data, oi, oo, e, t)
    ∧ data !! op = Some (PDict ∅).

(** The merge rule of the specification: the deltas applied in order, a later
    delta's keys overwriting those of the earlier ones. *)
Definition last_write_wins (deltas : list KVPairs) : KVPairs :=
  foldl dict_update ∅ deltas.

(** A stream in which nothing changed between two snapshots: delta 0 is
    {a:1}, delta 1 is empty. *)
Definition quiet_bucket : bucket :=
  <[get_snapshot_path 3 "orders" 0 0 := PDict (<["a" := 1]> ∅)]>
  (<[get_snapshot_path 3 "orders" 0 1 := PDict ∅]> ∅).

(** Lines 28-39: what the compactor reads off an object name. [inr None] is
    a name that the two guards skip; the three [int] calls can raise. *)
Definition delta_key (sn_file : string)
  : Py.exn + option (Z * (string * Z) * Z) :=
  if negb (Py.startswith sn_file "uncoordinated/") then inr None
  else
    let parts := Py.split "/" sn_file in
    if (length parts <? 5)%nat then inr None
    else
      worker_id ← Py.int (nth 1 parts "");
      partition ← Py.int (nth 3 parts "");
      snapshot_id ← Py.int (Py.first (Py.split "." (nth 4 parts "")));
      inr (Some (worker_id, (nth 2 parts "", partition), snapshot_id)).

(** [d[k]] on a [defaultdict] whose missing entries are [dflt], read only. *)
Fixpoint dd_get {K V} `{EqDecision K} (dflt : V) (k : K) (d : list (K * V)) : V :=
  match d with
  | [] => dflt
  | (k', v) :: r => if decide (k = k') then v else dd_get dflt k r
  end.

(** [snapshots_per_worker[w][op]], read only. *)
Definition snapshots_of (spw : worker_partition_snapshots) (w : Z)
    (op : string * Z) : list (Z * string) :=
  dd_get [] op (dd_get [] w spw).

(** A file that belongs to the group of [w] and [op] under the bound [max],
    with its snapshot id. *)
Definition member_item (max w : Z) (op : string * Z) (f : string)
  : option (Z * string) :=
  match delta_key f with
  | inr (Some (w', op', id)) =>
      if decide (w' = w ∧ op' = op ∧ id ≤ max) then Some (id, f) else None
  | _ => None
  end.

(** The members of the group of [w] and [op] among the files of a listing. *)
Definition members (max w : Z) (op : string * Z) (files : list string)
  : list (Z * string) :=
  omap (member_item max w op) files.

(** No worker and, per worker, no operator partition is listed twice. *)
Definition wf_groups (spw : worker_partition_snapshots) : Prop :=
  NoDup spw.*1 ∧ Forall (λ kv, NoDup kv.2.*1) spw.

(** The groups that the compactor iterates over, in iteration order: worker,
    operator partition, snapshots sorted by id. *)
Definition entries (spw : worker_partition_snapshots)
  : list (Z * (string * Z) * list (Z * string)) :=
  spw ≫= λ '(w, ws), (λ '(op, snaps), (w, op, snaps)) <$> ws.

(** A group as the loops see it: worker, operator partition, snapshots. *)
Abbreviation group := (Z * (string * Z) * list (Z * string))%type.

(** The id-0 path at which the merge of a group is stored. *)
Definition base_path (g : group) : string :=
  get_snapshot_path g.1.1 g.1.2.1 g.1.2.2 0.

(** The object names of a group's deltas. *)
Definition sources (g : group) : list string := g.2.*2.

(** A group that the compactor merges: more than one delta. *)
Definition big (g : group) : Prop := (1 < length g.2)%nat.

#[global] Instance big_dec g : Decision (big g).
Proof. unfold big. apply _. Defined.

(** The body of the inner loop of the compactor on a group. *)
Definition compact_group (snapshots_to_delete : list string) (g : group)
  : M (list string) :=
  compact_partition g.1.1 snapshots_to_delete (g.1.2, g.2).

(** The merged groups have distinct id-0 paths, and the id-0 path of one is
    not a delta of another. *)
Definition separated (groups : list group) : Prop :=
  NoDup (base_path <$> filter big groups)
  ∧ ∀ g g', g ∈ groups → g' ∈ groups → big g → big g' →
            base_path g' ∈ sources g → g = g'.

(** The names marked for deletion: the deltas of the merged groups. *)
Definition merged_names (groups : list group) : list string :=
  filter big groups ≫= sources.

(** C1 as the specification words it, for one group of the listing: after
    the run the id-0 path holds the merge of the group's deltas and the other
    source names are gone. *)
Definition group_compacted_as_specified (max : Z) (b : bucket) (g : group)
  : Prop :=
  ∃ b' deltas,
    start_uncoordinated_snapshot_compaction max b = (b', inr tt)
    ∧ Forall2 (λ item delta, b !! item.2 = Some (PDict delta)) g.2 deltas
    ∧ b' !! base_path g = Some (PDict (last_write_wins deltas))
    ∧ ∀ name, name ∈ sources g → name ≠ base_path g → b' !! name = None.

(** Nothing changed in two snapshots: deltas 1 and 2 of worker 3, operator
    ["orders"], partition 0 are empty. *)
Definition idle_bucket : bucket :=
  <[get_snapshot_path 3 "orders" 0 1 := PDict ∅]>
  (<[get_snapshot_path 3 "orders" 0 2 := PDict ∅]> ∅).

(** The scenario without delta 0: deltas 1 and 2 of the partition and the
    two sequencer records. *)
Definition later_orders_bucket : bucket :=
  delete (get_snapshot_path 3 "orders" 0 0) orders_bucket.

(** The one group of [later_orders_bucket] under the bound 2. *)
Definition later_orders_group : group :=
  (3, ("orders", 0), [(1, get_snapshot_path 3 "orders" 0 1);
                      (2, get_snapshot_path 3 "orders" 0 2)]).

(** One of the three [int] calls of lines 36-39 raises. *)
Definition non_integer_field (sn_file : string) : Prop :=
  let parts := Py.split "/" sn_file in
  Py.int (nth 1 parts "") = inl Py.ValueError
  ∨ Py.int (nth 3 parts "") = inl Py.ValueError
  ∨ Py.int (Py.first (Py.split "." (nth 4 parts ""))) = inl Py.ValueError.

(** A delta whose name ends in a word, next to the deltas of the scenario. *)
Definition malformed_bucket : bucket :=
  <["uncoordinated/3/orders/0/latest.bin" := PDict (<["a" := 9]> ∅)]>
    orders_bucket.

(** C7 as the specification words it: with a listed name that does not
    parse, the compactor and recovery both run without an error. *)
Definition malformed_key_skipped_as_specified (max : Z) (b : bucket)
    (self : UncoordinatedSnapshotsMinio) (target : Z)
    (registered_operators : list OperatorPartition) : Prop :=
  (∃ b', start_uncoordinated_snapshot_compaction max b = (b', inr tt))
  ∧ (∃ r, (retrieve_snapshot self b target registered_operators).2 = inr r).

(** The name parses to a snapshot id above the target. *)
Definition exceeds (target : Z) (name : string) : Prop :=
  match file_snapshot_id name with
  | inr id => target < id
  | inl _ => False
  end.

#[global] Instance exceeds_dec target name : Decision (exceeds target name).
Proof. unfold exceeds. destruct (file_snapshot_id name); apply _. Defined.

(** The bucket without the objects whose name parses to an id above the
    target. *)
Definition drop_later (target : Z) (b : bucket) : bucket :=
  filter (λ kv, ¬ exceeds target kv.1) b.

(** The deltas of the scenario up to id 0. *)
Definition early_orders_bucket : bucket :=
  delete (get_snapshot_path 3 "orders" 0 1)
    (delete (get_snapshot_path 3 "orders" 0 2)
       (delete (get_sequencer_path 3 1) orders_bucket)).

(** ** Definitions used in the further properties *)

(** The operator partition has, under its prefix, a delta whose id is at most
    the target. *)
Definition has_delta (b : bucket) (worker target : Z) (op : OperatorPartition)
  : Prop :=
  ∃ name id,
    name ∈ bin_files b (partition_prefix worker op)
    ∧ file_snapshot_id name = inr id ∧ id ≤ target.

(** The deltas of an operator partition as the snapshotter stores them: in
    ascending order of snapshot ids, one non-empty dict per id at the path of
    that id, and no other [.bin] object under the prefix of the partition. *)
Definition stream_of (b : bucket) (worker : Z) (op : OperatorPartition)
    (stream : list (Z * KVPairs)) : Prop :=
  StronglySorted (λ x y, x.1 < y.1) stream
  ∧ (∀ name, name ∈ bin_files b (partition_prefix worker op) →
             ∃ id, id ∈ stream.*1
                   ∧ name = get_snapshot_path worker op.1 op.2 id)
  ∧ (∀ id d, (id, d) ∈ stream →
             b !! get_snapshot_path worker op.1 op.2 id = Some (PDict d)
             ∧ d ≠ ∅).

(** The item of the merge order for a delta of a stream. *)
Definition stream_item (worker : Z) (op : OperatorPartition)
    (x : Z * KVPairs) : Z * string :=
  (x.1, get_snapshot_path worker op.1 op.2 x.1).

(** The deltas of a stream up to a target. *)
Definition up_to (target : Z) (stream : list (Z * KVPairs))
  : list (Z * KVPairs) :=
  filter (λ x, x.1 ≤ target) stream.

(** Deltas 2 = {a:1} and 10 = {a:2, b:7} of worker 3, operator ["orders"],
    partition 0: the object store lists delta 10 before delta 2. *)
Definition tens_bucket : bucket :=
  <[get_snapshot_path 3 "orders" 0 2 := PDict (<["a" := 1]> ∅)]>
  (<[get_snapshot_path 3 "orders" 0 10
       := PDict (<["a" := 2]> (<["b" := 7]> ∅))]> ∅).

(** The names that recovery of a worker lists: those under the prefix of a
    registered operator partition or under the sequencer prefix. *)
Definition read_by_recovery (worker : Z)
    (registered_operators : list OperatorPartition) (name : string) : Prop :=
  (∃ op, op ∈ registered_operators
         ∧ Py.startswith name (partition_prefix worker op) = true)
  ∨ Py.startswith name (sequencer_prefix worker) = true.

(** Two deltas of ["orders"] and, for ["payments"], a delta followed by an
    object that holds a sequencer record instead of a dict. *)
Definition mixed_bucket : bucket :=
  <[get_snapshot_path 3 "orders" 0 1 := PDict (<["a" := 1]> ∅)]>
  (<[get_snapshot_path 3 "orders" 0 2 := PDict (<["b" := 2]> ∅)]>
  (<[get_snapshot_path 3 "payments" 0 1 := PDict (<["c" := 3]> ∅)]>
  (<[get_snapshot_path 3 "payments" 0 2 := PRecord ∅ ∅ 1 1]> ∅))).

(** The three state deltas of the scenario as one group. *)
Definition orders_group : group :=
  (3, ("orders", 0), [(0, get_snapshot_path 3 "orders" 0 0);
                      (1, get_snapshot_path 3 "orders" 0 1);
                      (2, get_snapshot_path 3 "orders" 0 2)]).

(** The deltas of a stream above a bound. *)
Definition above (max : Z) (stream : list (Z * KVPairs))
  : list (Z * KVPairs) :=
  filter (λ x, max < x.1) stream.

(** The stream that compaction under a bound leaves behind: a group of more
    than one delta within the bound is replaced by its merge at id 0. *)
Definition compacted_stream (max : Z) (stream : list (Z * KVPairs))
  : list (Z * KVPairs) :=
  if decide (1 < length (up_to max stream))%nat then
    (0, last_write_wins (up_to max stream).*2) :: above max stream
  else stream.

(** * Properties *)

(** ** The built-ins and the paths on examples *)

Example split_ex1 : Py.split "/" "uncoordinated/3/orders/0/12.bin"
                    = ["uncoordinated"; "3"; "orders"; "0"; "12.bin"].
Proof. reflexivity. Qed.
Example split_ex2 : Py.split "/" "a//" = ["a"; ""; ""].
Proof. reflexivity. Qed.
Example int_ex1 : Py.int " +1_000 " = inr 1000.
Proof. reflexivity. Qed.
Example int_ex2 : Py.int "-007" = inr (-7).
Proof. reflexivity. Qed.
Example int_ex3 : Py.int "1__0" = inl Py.ValueError.
Proof. reflexivity. Qed.
Example int_ex4 : Py.int "" = inl Py.ValueError.
Proof. reflexivity. Qed.
Example int_ex5 : Py.int "- 1" = inl Py.ValueError.
Proof. reflexivity. Qed.
Example int_ex6 : Py.int "12_" = inl Py.ValueError.
Proof. reflexivity. Qed.
Example int_ex7 : Py.int (String "028"%char "12") = inl Py.ValueError.
Proof. reflexivity. Qed.
Example int_ex8 : Py.int (String "160"%char "12" +:+ String "133"%char "") = inr 12.
Proof. reflexivity. Qed.
Example str_ex1 : Py.str (-120) = "-120".
Proof. reflexivity. Qed.
Example sorted_ex1 : Py.sorted fst [(2, "a"); (1, "b"); (2, "c"); (1, "d")]
                     = [(1, "b"); (1, "d"); (2, "a"); (2, "c")].
Proof. reflexivity. Qed.

Example get_snapshot_path_ex :
  get_snapshot_path 3 "orders" 0 12 = "uncoordinated/3/orders/0/12.bin".
Proof. reflexivity. Qed.
Example get_sequencer_path_ex :
  get_sequencer_path 3 7 = "uncoordinated/3/sequencer/7.bin".
Proof. reflexivity. Qed.

(** ** Strings: [split], [int] and [str] *)

Lemma split_cons sep s : ∃ h t, Py.split sep s = h :: t.
Proof.
  induction s as [|c r IH]; simpl; [by eauto|].
  destruct (Ascii.eqb c sep); [by eauto|].
  destruct IH as (h & t & ->). eauto.
Qed.

Lemma split_no_sep sep s x : x ∈ Py.split sep s → contains sep x = false.
Proof.
  revert x. induction s as [|c r IH]; simpl; intros x Hx.
  - apply list_elem_of_singleton in Hx as ->. done.
  - destruct (Ascii.eqb c sep) eqn:E.
    + apply elem_of_cons in Hx as [->|Hx]; [done|by apply IH].
    + destruct (split_cons sep r) as (h & t & Hr). rewrite Hr in Hx, IH.
      apply elem_of_cons in Hx as [->|Hx].
      * simpl. rewrite E. apply IH. left.
      * apply IH. by right.
Qed.

Lemma split_without sep s : contains sep s = false → Py.split sep s = [s].
Proof.
  induction s as [|c r IH]; simpl; [done|].
  intros [E1 E2]%orb_false_elim. rewrite E1, (IH E2). done.
Qed.

Lemma split_app sep a b :
  contains sep a = false →
  Py.split sep (a +:+ String sep b) = a :: Py.split sep b.
Proof.
  induction a as [|c r IH]; simpl.
  - intros _. by rewrite Ascii.eqb_refl.
  - intros [E1 E2]%orb_false_elim. rewrite E1, (IH E2). done.
Qed.

Lemma startswith_app p s : Py.startswith (p +:+ s) p = true.
Proof.
  unfold Py.startswith. induction p as [|c r IH]; simpl.
  - by destruct s.
  - destruct (ascii_dec c c); [done|congruence].
Qed.

Lemma contains_app c a b : contains c (a +:+ b) = contains c a || contains c b.
Proof. induction a as [|c' r IH]; simpl; [done|]. by rewrite IH, orb_assoc. Qed.

Lemma all_chars_contains P c s :
  all_chars P s = true → P c = false → contains c s = false.
Proof.
  intros Hs Hc. induction s as [|c' r IH]; simpl in *; [done|].
  apply andb_prop in Hs as [H1 H2]. rewrite (IH H2), orb_false_r.
  destruct (Ascii.eqb_spec c' c); [congruence|done].
Qed.

(** The decimal rendering of a natural number: digits only, at least one. *)
Lemma string_of_uint_digits d :
  all_chars Py.isdigit (NilEmpty.string_of_uint d) = true.
Proof. induction d; simpl; auto. Qed.

Lemma lstrip_digit c r :
  Py.isspace c = false → Py.lstrip (String c r) = String c r.
Proof. simpl. by intros ->. Qed.

Lemma rstrip_no_space s :
  all_chars (λ c, negb (Py.isspace c)) s = true → Py.rstrip s = s.
Proof.
  induction s as [|c r IH]; simpl; [done|].
  intros [H1 H2]%andb_prop. rewrite (IH H2).
  apply negb_true_iff in H1. by rewrite H1.
Qed.

Lemma isdigit_not_space c : Py.isdigit c = true → Py.isspace c = false.
Proof.
  unfold Py.isdigit, Py.isspace. intros [H1 H2]%andb_prop.
  apply N.leb_le in H1, H2. cbn zeta.
  assert ((9 <=? N_of_ascii c)%N && (N_of_ascii c <=? 13)%N = false) as ->
    by (apply andb_false_iff; right; apply N.leb_gt; lia).
  by rewrite !(proj2 (N.eqb_neq _ _)) by lia.
Qed.

Lemma all_digits_no_space s :
  all_chars Py.isdigit s = true →
  all_chars (λ c, negb (Py.isspace c)) s = true.
Proof.
  induction s as [|c r IH]; simpl; [done|].
  intros [H1 H2]%andb_prop. by rewrite (isdigit_not_space _ H1), (IH H2).
Qed.

Lemma digits_all_digits s :
  all_chars Py.isdigit s = true → Py.digits true s = Some s.
Proof.
  induction s as [|c r IH]; simpl; [done|].
  intros [H1 H2]%andb_prop. by rewrite H1, (IH H2).
Qed.

Lemma nat_literal_uint d :
  d ≠ Nil → Py.nat_literal (NilEmpty.string_of_uint d) = Some (Z.of_uint d).
Proof.
  intros Hd. unfold Py.nat_literal.
  pose proof (string_of_uint_digits d) as Hdig.
  assert (Py.digits false (NilEmpty.string_of_uint d)
          = Some (NilEmpty.string_of_uint d)) as ->.
  { destruct (NilEmpty.string_of_uint d) as [|c r] eqn:E.
    - by destruct d.
    - simpl in *. apply andb_prop in Hdig as [H1 H2].
      by rewrite H1, (digits_all_digits _ H2). }
  simpl. unfold NilZero.uint_of_string.
  destruct (NilEmpty.string_of_uint d) eqn:E; [by destruct d|].
  rewrite <- E, NilEmpty.usu. done.
Qed.

Lemma int_of_uint d :
  d ≠ Nil → Py.int (NilEmpty.string_of_uint d) = inr (Z.of_uint d).
Proof.
  intros Hd. unfold Py.int.
  pose proof (string_of_uint_digits d) as Hdig.
  pose proof (nat_literal_uint d Hd) as Hlit.
  destruct (NilEmpty.string_of_uint d) as [|c r] eqn:E; [by destruct d|].
  pose proof Hdig as Hdig'. simpl in Hdig'. apply andb_prop in Hdig' as [Hc Hr].
  rewrite lstrip_digit by by apply isdigit_not_space.
  rewrite rstrip_no_space by by apply all_digits_no_space.
  assert (Ascii.eqb c "-" = false) as ->.
  { destruct (Ascii.eqb_spec c "-") as [->|]; [done|done]. }
  assert (Ascii.eqb c "+" = false) as ->.
  { destruct (Ascii.eqb_spec c "+") as [->|]; [done|done]. }
  by rewrite Hlit.
Qed.

Lemma int_str z : Py.int (Py.str z) = inr z.
Proof.
  unfold Py.str. destruct z as [|p|p]; [done|..]; simpl.
  - unfold NilZero.string_of_uint.
    pose proof (Unsigned.to_uint_nonnil p) as Hn.
    destruct (Pos.to_uint p) eqn:E; [done|..];
      rewrite <- E, int_of_uint by (by rewrite E);
      unfold Z.of_uint; by rewrite Unsigned.of_to.
  - unfold NilZero.string_of_uint.
    pose proof (Unsigned.to_uint_nonnil p) as Hn.
    assert (NilEmpty.string_of_uint (Pos.to_uint p)
            = match Pos.to_uint p with
              | Nil => "0"
              | _ => NilEmpty.string_of_uint (Pos.to_uint p)
              end) as <-.
    { by destruct (Pos.to_uint p). }
    unfold Py.int. simpl.
    rewrite rstrip_no_space
      by (apply all_digits_no_space, string_of_uint_digits).
    rewrite nat_literal_uint by done. simpl.
    unfold Z.of_uint. by rewrite Unsigned.of_to.
Qed.

Lemma str_no_char c z :
  Py.isdigit c = false → c ≠ "-"%char → contains c (Py.str z) = false.
Proof.
  intros Hc Hm. unfold Py.str.
  assert (∀ d, contains c (NilZero.string_of_uint d) = false) as Hu.
  { intros d. unfold NilZero.string_of_uint.
    assert (contains c (NilEmpty.string_of_uint d) = false)
      by (eapply all_chars_contains; [apply string_of_uint_digits|done]).
    destruct d; try done. cbn [contains]. rewrite orb_false_r.
    apply Ascii.eqb_neq. intros <-. by vm_compute in Hc. }
  destruct (Z.to_int z); cbn [NilZero.string_of_int contains]; [apply Hu|].
  rewrite Hu, orb_false_r. apply Ascii.eqb_neq. congruence.
Qed.

(** ** [sorted] *)

Section sorted_facts.
Context {A : Type} (key : A → Z).

Lemma insert_by_perm x l : Py.insert_by key x l ≡ₚ x :: l.
Proof.
  induction l as [|y r IH]; simpl; [done|].
  destruct (key x <=? key y); [done|]. rewrite IH. apply Permutation_swap.
Qed.

Lemma sorted_perm l : Py.sorted key l ≡ₚ l.
Proof.
  induction l as [|x r IH]; simpl; [done|].
  by rewrite insert_by_perm, IH.
Qed.

Lemma elem_of_sorted x l : x ∈ Py.sorted key l ↔ x ∈ l.
Proof. by rewrite sorted_perm. Qed.

Lemma sorted_length l : length (Py.sorted key l) = length l.
Proof. by rewrite sorted_perm. Qed.

Lemma insert_by_sorted x l :
  StronglySorted (key_le key) l → StronglySorted (key_le key) (Py.insert_by key x l).
Proof.
  induction 1 as [|y r Hr IH Hy]; simpl.
  - repeat constructor.
  - destruct (Z.leb_spec (key x) (key y)) as [Hle|Hgt].
    + constructor; [by constructor|]. constructor; [done|].
      eapply Forall_impl; [exact Hy|]. unfold key_le. intros z ?. lia.
    + constructor; [done|]. rewrite insert_by_perm.
      constructor; [unfold key_le; lia|done].
Qed.

Lemma sorted_sorted l : StronglySorted (key_le key) (Py.sorted key l).
Proof.
  induction l as [|x r IH]; simpl; [constructor|by apply insert_by_sorted].
Qed.

Lemma insert_by_least x l :
  Forall (key_le key x) l → Py.insert_by key x l = x :: l.
Proof.
  destruct 1 as [|y r Hy _]; simpl; [done|].
  unfold key_le in Hy. apply Z.leb_le in Hy. by rewrite Hy.
Qed.

Lemma insert_by_filter (P : A → Prop) `{!∀ x, Decision (P x)} x l :
  StronglySorted (key_le key) l →
  filter P (Py.insert_by key x l)
  = if decide (P x) then Py.insert_by key x (filter P l) else filter P l.
Proof.
  induction 1 as [|y r Hr IH Hy]; simpl.
  - rewrite filter_cons, filter_nil. by destruct (decide (P x)).
  - destruct (Z.leb_spec (key x) (key y)) as [Hle|Hgt].
    + rewrite filter_cons. destruct (decide (P x)) as [Hx|Hx]; [|done].
      symmetry. apply insert_by_least. apply Forall_forall.
      intros z [_ Hz]%list_elem_of_filter. unfold key_le.
      apply elem_of_cons in Hz as [->|Hz]; [done|].
      rewrite Forall_forall in Hy. specialize (Hy z Hz).
      unfold key_le in Hy. lia.
    + rewrite !(filter_cons _ y), IH.
      destruct (decide (P y)), (decide (P x)); simpl; try done.
      apply Z.leb_gt in Hgt. by rewrite Hgt.
Qed.

Lemma sorted_filter (P : A → Prop) `{!∀ x, Decision (P x)} l :
  filter P (Py.sorted key l) = Py.sorted key (filter P l).
Proof.
  induction l as [|x r IH]; simpl; [done|].
  rewrite insert_by_filter by apply sorted_sorted.
  rewrite filter_cons, IH. by destruct (decide (P x)).
Qed.

(** The last element of an ascending list has the greatest key. *)
Lemma sorted_last_greatest l x y :
  StronglySorted (key_le key) l → last l = Some x → y ∈ l → key y ≤ key x.
Proof.
  intros Hs [l' ->]%last_Some Hy.
  apply StronglySorted_app in Hs as (Hall & _ & _).
  apply elem_of_app in Hy as [Hy|Hy].
  - apply (Hall y x Hy). left.
  - apply list_elem_of_singleton in Hy as ->. unfold key_le. lia.
Qed.
End sorted_facts.

Lemma filter_StronglySorted {A} (R : relation A) (P : A → Prop)
    `{!∀ x, Decision (P x)} l :
  StronglySorted R l → StronglySorted R (filter P l).
Proof.
  induction 1 as [|x l Hl IH Hx]; [constructor|].
  rewrite filter_cons. destruct (decide (P x)); [|done].
  constructor; [done|]. apply Forall_forall.
  intros y [_ Hy]%list_elem_of_filter. rewrite Forall_forall in Hx. by apply Hx.
Qed.

(** ** Recovery: [retrieve_snapshot] *)

Lemma recover_partition_unfold b worker target data operator_partition :
  recover_partition b worker target data operator_partition
  = (order ← merge_order (bin_files b (partition_prefix worker operator_partition));
     for_each (merge_delta b target operator_partition) order data).
Proof. by destruct operator_partition. Qed.

Lemma merge_order_sorted files order :
  merge_order files = inr order → StronglySorted (key_le fst) order.
Proof.
  unfold merge_order. destruct (comprehension _ files); simpl; [done|].
  intros [= <-]. apply sorted_sorted.
Qed.

Lemma comprehension_elem {A B} (f : A → Py.exn + B) l ys y :
  comprehension f l = inr ys → y ∈ ys → ∃ x, x ∈ l ∧ f x = inr y.
Proof.
  revert ys. induction l as [|x r IH]; simpl; intros ys.
  - intros [= <-] Hy. by apply elem_of_nil in Hy.
  - destruct (f x) as [|y0] eqn:Ex; simpl; [done|].
    destruct (comprehension f r) as [|ys0]; simpl; [done|].
    intros [= <-] [->|Hy]%elem_of_cons.
    + exists x. split; [left|done].
    + destruct (IH _ eq_refl Hy) as (x' & ? & ?). exists x'. split; [by right|done].
Qed.

Lemma merge_order_elem files order id name :
  merge_order files = inr order → (id, name) ∈ order →
  name ∈ files ∧ file_snapshot_id name = inr id.
Proof.
  unfold merge_order.
  destruct (comprehension _ files) as [|items] eqn:E; simpl; [done|].
  intros [= <-] Hin%elem_of_sorted.
  destruct (comprehension_elem _ _ _ _ E Hin) as (f & Hf & Hid).
  destruct (file_snapshot_id f) eqn:Ef; simpl in Hid; [done|].
  injection Hid as -> ->. done.
Qed.

(** *** The sequencer record *)

Lemma take_record_loop b target order acc :
  (∀ item, item ∈ order → item.1 ≤ target →
           ∃ i o e t, b !! item.2 = Some (PRecord i o e t)) →
  for_each (take_record b target) order acc
  = inr (match last (qualifying target order) with
         | Some item =>
             match b !! item.2 with
             | Some (PRecord i o e t) => (i, o, e, t)
             | _ => acc
             end
         | None => acc
         end).
Proof.
  revert acc. induction order as [|[id name] r IH]; intros acc Hrec; [done|].
  unfold qualifying in *. rewrite filter_cons. simpl.
  assert (∀ item, item ∈ r → item.1 ≤ target →
                  ∃ i o e t, b !! item.2 = Some (PRecord i o e t)) as Hr.
  { intros item Hi. apply Hrec. by right. }
  destruct (Z.ltb_spec target id) as [Hlt|Hle].
  - rewrite decide_False by lia. by apply IH.
  - rewrite decide_True by done.
    destruct (Hrec (id, name)) as (i & o & e & t & Hb); [left|done|].
    simpl in Hb. unfold Minio.get_object. rewrite Hb. simpl.
    rewrite IH by done. rewrite last_cons.
    destruct (last (filter _ r)) as [item|] eqn:El; [|simpl; by rewrite Hb].
    apply last_Some_elem_of, list_elem_of_filter in El as [Hq Hin].
    destruct (Hr item Hin Hq) as (i' & o' & e' & t' & ->). done.
Qed.

(** *** A partition without qualifying deltas *)

Lemma merge_delta_other b target op data item data' op' :
  merge_delta b target op data item = inr data' → op' ≠ op →
  data' !! op' = data !! op'.
Proof.
  destruct item as [id name]. unfold merge_delta.
  destruct (target <? id); [by intros [= <-]|].
  destruct (Minio.get_object b name) as [|pd]; simpl; [done|].
  intros Hm Hne.
  destruct (data !! op) as [cur|].
  - destruct (truthy pd).
    + destruct (payload_update cur pd); simpl in Hm; [done|].
      injection Hm as <-. by rewrite lookup_insert_ne.
    + injection Hm as <-. by rewrite lookup_insert_ne.
  - injection Hm as <-. by rewrite lookup_insert_ne.
Qed.

Lemma merge_loop_other b target op order data data' op' :
  for_each (merge_delta b target op) order data = inr data' → op' ≠ op →
  data' !! op' = data !! op'.
Proof.
  revert data. induction order as [|item r IH]; simpl; intros data.
  - by intros [= <-].
  - destruct (merge_delta b target op data item) as [|d1] eqn:E; simpl; [done|].
    intros Hr Hne. rewrite (IH _ Hr Hne). by eapply merge_delta_other.
Qed.

Lemma recover_partition_other b worker target data op data' op' :
  recover_partition b worker target data op = inr data' → op' ≠ op →
  data' !! op' = data !! op'.
Proof.
  rewrite recover_partition_unfold.
  destruct (merge_order _); simpl; [done|]. apply merge_loop_other.
Qed.

Lemma merge_loop_skip b target op order data :
  (∀ item, item ∈ order → target < item.1) →
  for_each (merge_delta b target op) order data = inr data.
Proof.
  induction order as [|[id name] r IH]; intros Hall; [done|].
  simpl. pose proof (Hall (id, name) ltac:(left)) as Hlt. simpl in Hlt.
  apply Z.ltb_lt in Hlt. rewrite Hlt. simpl. apply IH.
  intros item Hi. apply Hall. by right.
Qed.

Lemma recover_partition_skip b worker target data op order :
  merge_order (bin_files b (partition_prefix worker op)) = inr order →
  (∀ item, item ∈ order → target < item.1) →
  recover_partition b worker target data op = inr data.
Proof.
  intros Ho Hall. rewrite recover_partition_unfold, Ho. simpl.
  by apply merge_loop_skip.
Qed.

Lemma recover_loop_absent b worker target op order ops data data' :
  merge_order (bin_files b (partition_prefix worker op)) = inr order →
  (∀ item, item ∈ order → target < item.1) →
  for_each (recover_partition b worker target) ops data = inr data' →
  data' !! op = data !! op.
Proof.
  intros Ho Hall. revert data. induction ops as [|op1 r IH]; simpl; intros data.
  - by intros [= <-].
  - destruct (recover_partition b worker target data op1) as [|d1] eqn:E;
      simpl; [done|].
    intros Hr. rewrite (IH _ Hr).
    destruct (decide (op = op1)) as [<-|Hne].
    + rewrite (recover_partition_skip _ _ _ _ _ _ Ho Hall) in E. congruence.
    + by eapply recover_partition_other.
Qed.

(** *** Statements about [retrieve_snapshot] *)

(** C10. Every call of [retrieve_snapshot] leaves the snapshotter's
    [snapshot_id] at the target id plus one, whatever the call then returns
    or raises: the assignment is the first statement. After a fresh start
    (target -1) the next snapshot id is 0. *)
Theorem retrieve_snapshot_sets_next_snapshot_id
    (self : UncoordinatedSnapshotsMinio) (b : bucket) (target : Z)
    (registered_operators : list OperatorPartition) :
  snapshot_id (retrieve_snapshot self b target registered_operators).1
    = target + 1
  ∧ worker_id (retrieve_snapshot self b target registered_operators).1
    = worker_id self
  ∧ snapshot_id (retrieve_snapshot self b (-1) registered_operators).1 = 0.
Proof.
  unfold retrieve_snapshot. simpl. by destruct (target =? -1).
Qed.

(** C4, counterexample. For worker 3 owning [("orders", 0)] and an empty
    bucket the fresh start does not return what the specification says: the
    offsets are [None], not empty maps, and the state has no entry for the
    partition. *)
Lemma fresh_start_not_as_specified :
  ¬ fresh_start_as_specified (init 3 1) ∅ [("orders", 0)].
Proof. intros (data & Hret & _). vm_compute in Hret. discriminate Hret. Qed.

(** C4, amended. With target -1, [retrieve_snapshot] raises nothing, reads
    nothing from the bucket and returns an empty state dict (no entry for
    any partition), [None] for the input and for the output offsets, epoch 0
    and t counter 0. *)
Theorem retrieve_snapshot_fresh_start
    (self : UncoordinatedSnapshotsMinio) (b : bucket)
    (registered_operators : list OperatorPartition) :
  ∃ data,
    (retrieve_snapshot self b (-1) registered_operators).2
      = inr (data, None, None, 0, 0)
    ∧ data = ∅
    ∧ ∀ op, data !! op = None.
Proof.
  exists ∅. split; [reflexivity|]. split; [reflexivity|].
  intros op. apply lookup_empty.
Qed.

(** C3, counterexample. Recovery of worker 3 at target -1 on the scenario,
    whose sequencer deltas have the ids 0 and 1: no sequencer delta
    qualifies, and the early return of line 125 gives None for both offsets,
    not empty maps. *)
Lemma sequencer_defaults_not_as_specified :
  bin_files orders_bucket (sequencer_prefix 3)
  = [get_sequencer_path 3 0; get_sequencer_path 3 1]
  ∧ (retrieve_snapshot (init 3 1) orders_bucket (-1) [("orders", 0)]).2
    = inr (∅, None, None, 0, 0)
  ∧ ¬ sequencer_defaults_as_specified (init 3 1) orders_bucket (-1)
        [("orders", 0)].
Proof.
  assert (bin_files orders_bucket (sequencer_prefix 3)
          = [get_sequencer_path 3 0; get_sequencer_path 3 1]) as Hfiles
    by (vm_compute; reflexivity).
  split; [done|]. split; [reflexivity|].
  intros Hspec. destruct Hspec as [data Hdata]; [|discriminate Hdata].
  intros name id Hin Hid.
  change (worker_id (init 3 1)) with 3 in Hin. rewrite Hfiles in Hin.
  apply elem_of_cons in Hin as [->|Hin].
  - vm_compute in Hid. injection Hid as <-. lia.
  - apply list_elem_of_singleton in Hin as ->.
    vm_compute in Hid. injection Hid as <-. lia.
Qed.

(** C3, amended. At a target other than -1 the sequencer metadata that
    recovery returns is the whole record of the last qualifying item of the
    ascending merge order, which has the highest id at most the target; no
    field comes from another record. When no sequencer delta qualifies the
    offsets are empty maps and the counters 0. The listed sequencer names
    parse, the qualifying objects are sequencer records and the recovery of
    the state raises nothing. At target -1 [retrieve_snapshot] returns before
    it lists a sequencer delta, with None for both offsets and 0 for the
    counters. *)
Theorem sequencer_recovery_takes_latest_record
    (self : UncoordinatedSnapshotsMinio) (b : bucket) (target : Z)
    (registered_operators : list OperatorPartition)
    (order : list (Z * string))
    (Horder : merge_order (bin_files b (sequencer_prefix (worker_id self)))
              = inr order)
    (Hrecords : ∀ item, item ∈ order → item.1 ≤ target →
                  ∃ i o e t, b !! item.2 = Some (PRecord i o e t)) :
  ∃ i o e t,
    recover_sequencer b (worker_id self) target = inr (i, o, e, t)
    ∧ match last (qualifying target order) with
      | Some (id, name) =>
          b !! name = Some (PRecord i o e t)
          ∧ id ≤ target
          ∧ ∀ item, item ∈ order → item.1 ≤ target → item.1 ≤ id
      | None => (i, o, e, t) = (∅, ∅, 0, 0)
      end
    ∧ (target ≠ -1 →
       ∀ data,
         for_each (recover_partition b (worker_id self) target)
                  registered_operators ∅ = inr data →
         (retrieve_snapshot self b target registered_operators).2
           = inr (data, Some i, Some o, e, t))
    ∧ (target = -1 →
       (retrieve_snapshot self b target registered_operators).2
         = inr (∅, None, None, 0, 0)).
Proof.
  assert (target = -1 →
          (retrieve_snapshot self b target registered_operators).2
          = inr (∅, None, None, 0, 0)) as Hfresh
    by (by intros ->).
  assert (recover_sequencer b (worker_id self) target
          = inr (match last (qualifying target order) with
                 | Some item =>
                     match b !! item.2 with
                     | Some (PRecord i o e t) => (i, o, e, t)
                     | _ => (∅, ∅, 0, 0)
                     end
                 | None => (∅, ∅, 0, 0)
                 end)) as Hseq.
  { unfold recover_sequencer. fold (sequencer_prefix (worker_id self)).
    rewrite Horder. simpl. by apply take_record_loop. }
  assert (∀ i o e t,
            recover_sequencer b (worker_id self) target = inr (i, o, e, t) →
            target ≠ -1 →
            ∀ data,
              for_each (recover_partition b (worker_id self) target)
                       registered_operators ∅ = inr data →
              (retrieve_snapshot self b target registered_operators).2
              = inr (data, Some i, Some o, e, t)) as Hret.
  { intros i o e t Hs Hne data Hdata. unfold retrieve_snapshot.
    destruct (Z.eqb_spec target (-1)) as [?|_]; [done|].
    simpl. rewrite Hdata. simpl. by rewrite Hs. }
  destruct (last (qualifying target order)) as [[id name]|] eqn:El.
  - pose proof El as Hin. apply last_Some_elem_of in Hin.
    unfold qualifying in Hin. apply list_elem_of_filter in Hin as [Hq Hin].
    destruct (Hrecords _ Hin Hq) as (i & o & e & t & Hb). simpl in Hb, Hq.
    simpl in Hseq. rewrite Hb in Hseq.
    exists i, o, e, t. split; [done|].
    split; [|split; [by apply Hret|done]].
    split; [done|]. split; [done|]. intros item Hi Hqi.
    apply (sorted_last_greatest fst (qualifying target order) (id, name) item).
    + apply filter_StronglySorted. by eapply merge_order_sorted.
    + done.
    + unfold qualifying. by apply list_elem_of_filter.
  - exists ∅, ∅, 0, 0. split; [done|]. split; [done|].
    split; [by apply Hret|done].
Qed.

(** The two recoveries of the scenario that the specification works out. *)
Example recover_orders_at_1 :
  (retrieve_snapshot (init 3 1) orders_bucket 1 [("orders", 0)]).2
  = inr (<[("orders", 0)
             := PDict (<["a" := 1]> (<["b" := 3]> (<["c" := 4]> ∅)))]> ∅,
         Some (<[("p", 0) := 20]> (<[("p", 1) := 5]> ∅)), Some ∅, 2, 9).
Proof. vm_compute. reflexivity. Qed.

Example recover_orders_at_2 :
  (retrieve_snapshot (init 3 1) orders_bucket 2 [("orders", 0)]).2
  = inr (<[("orders", 0)
             := PDict (<["a" := 5]> (<["b" := 3]> (<["c" := 4]> ∅)))]> ∅,
         Some (<[("p", 0) := 20]> (<[("p", 1) := 5]> ∅)), Some ∅, 2, 9).
Proof. vm_compute. reflexivity. Qed.

(** C3, amended, on the scenario: recovery of worker 3 at target 0 takes
    the record of sequencer delta 0. *)
Lemma sequencer_recovery_takes_latest_record_witness :
  ∃ i o e t,
    recover_sequencer orders_bucket 3 0 = inr (i, o, e, t)
    ∧ match last (qualifying 0 [(0, get_sequencer_path 3 0);
                                (1, get_sequencer_path 3 1)]) with
      | Some (id, name) =>
          orders_bucket !! name = Some (PRecord i o e t)
          ∧ id ≤ 0
          ∧ ∀ item, item ∈ [(0, get_sequencer_path 3 0);
                            (1, get_sequencer_path 3 1)] →
                    item.1 ≤ 0 → item.1 ≤ id
      | None => (i, o, e, t) = (∅, ∅, 0, 0)
      end
    ∧ (0 ≠ -1 →
       ∀ data,
         for_each (recover_partition orders_bucket 3 0) [("orders", 0)] ∅
           = inr data →
         (retrieve_snapshot (init 3 1) orders_bucket 0 [("orders", 0)]).2
           = inr (data, Some i, Some o, e, t))
    ∧ (0 = -1 →
       (retrieve_snapshot (init 3 1) orders_bucket 0 [("orders", 0)]).2
         = inr (∅, None, None, 0, 0)).
Proof.
  apply (sequencer_recovery_takes_latest_record
           (init 3 1) orders_bucket 0 [("orders", 0)]
           [(0, get_sequencer_path 3 0); (1, get_sequencer_path 3 1)]).
  - vm_compute. reflexivity.
  - intros item Hin Hq.
    apply elem_of_cons in Hin as [->|Hin]; [vm_compute; eauto|].
    apply list_elem_of_singleton in Hin as ->. simpl in Hq. lia.
Defined.

(** C8, counterexample. Worker 3 owns [("orders", 0)] and [("payments", 0)];
    the bucket has deltas for the first only. Recovery at target 2 returns a
    state without an entry for [("payments", 0)]. *)
Lemma empty_partition_not_as_specified :
  ¬ empty_partition_as_specified (init 3 2) orders_bucket 2
      [("orders", 0); ("payments", 0)] ("payments", 0).
Proof.
  intros (data & oi & oo & e & t & Hret & Hop).
  vm_compute in Hret. injection Hret as <- _ _ _ _.
  vm_compute in Hop. discriminate Hop.
Qed.

(** C8, amended. For an owned operator partition whose listed deltas all
    have an id above the target (or that has no listed delta), recovering the
    partition raises nothing and leaves the state dict as it was, and the
    state that [retrieve_snapshot] returns has no entry for the partition:
    the partition is omitted, not mapped to an empty map. *)
Theorem partition_without_deltas_is_omitted
    (self : UncoordinatedSnapshotsMinio) (b : bucket) (target : Z)
    (registered_operators : list OperatorPartition) (op : OperatorPartition)
    (order : list (Z * string))
    (Horder : merge_order (bin_files b (partition_prefix (worker_id self) op))
              = inr order)
    (Hnone : ∀ item, item ∈ order → target < item.1) :
  (∀ data, recover_partition b (worker_id self) target data op = inr data)
  ∧ (∀ data oi oo e t,
       (retrieve_snapshot self b target registered_operators).2
         = inr (data, oi, oo, e, t) →
       data !! op = None).
Proof.
  split.
  - intros data. by eapply recover_partition_skip.
  - intros data oi oo e t. unfold retrieve_snapshot.
    destruct (target =? -1); simpl.
    + intros [= <- _ _ _ _]. apply lookup_empty.
    + destruct (for_each _ registered_operators ∅) as [|d] eqn:E; simpl; [done|].
      destruct (recover_sequencer _ _ _) as [|[[[i o] e'] t']]; simpl; [done|].
      intros [= <- _ _ _ _].
      by rewrite (recover_loop_absent _ _ _ _ _ _ _ _ Horder Hnone E).
Qed.

(** C8, amended, on the scenario: [("payments", 0)] has no delta. *)
Lemma partition_without_deltas_is_omitted_witness :
  (∀ data, recover_partition orders_bucket 3 2 data ("payments", 0) = inr data)
  ∧ (∀ data oi oo e t,
       (retrieve_snapshot (init 3 2) orders_bucket 2
          [("orders", 0); ("payments", 0)]).2 = inr (data, oi, oo, e, t) →
       data !! ("payments", 0) = None).
Proof.
  apply (partition_without_deltas_is_omitted
           (init 3 2) orders_bucket 2 [("orders", 0); ("payments", 0)]
           ("payments", 0) []).
  - vm_compute. reflexivity.
  - intros item Hin. by apply elem_of_nil in Hin.
Defined.

(** C2, the code at the failing input. Recovery at target 1 of the stream
    {a:1}, {} returns the empty state for the partition: line 157 sends an
    empty later delta to the [else] branch, which replaces the state merged
    so far. The last-write-wins merge of the two deltas is {a:1}. *)
Theorem recovery_replaces_state_by_empty_delta :
  (retrieve_snapshot (init 3 1) quiet_bucket 1 [("orders", 0)]).2
    = inr (<[("orders", 0) := PDict ∅]> ∅, Some ∅, Some ∅, 0, 0)
  ∧ last_write_wins [<["a" := 1]> ∅; ∅] = <["a" := 1]> ∅.
Proof. split; vm_compute; reflexivity. Qed.

(** ** The compactor: grouping *)

Lemma add_snapshot_file_delta_key max spw f :
  add_snapshot_file max spw f
  = (r ← delta_key f;
     match r with
     | Some (w, op, id) =>
         if id <=? max then
           inr (dd_update [] w (dd_update [] op (λ l, (l ++ [(id, f)])%list)) spw)
         else inr spw
     | None => inr spw
     end).
Proof.
  unfold add_snapshot_file, delta_key.
  destruct (negb _); [done|]. destruct (_ <? 5)%nat; [done|].
  destruct (Py.int (nth 1 _ _)); simpl; [done|].
  destruct (Py.int (nth 3 _ _)); simpl; [done|].
  by destruct (Py.int (Py.first _)).
Qed.

(** Exceptions of the grouping are all [ValueError]. *)
Lemma delta_key_error f e : delta_key f = inl e → e = Py.ValueError.
Proof.
  assert (∀ s e', Py.int s = inl e' → e' = Py.ValueError) as Hint.
  { intros s e'. unfold Py.int.
    destruct (Py.rstrip (Py.lstrip s)) as [|c r]; [by intros [= <-]|].
    destruct (if Ascii.eqb c "-" then _ else _); [done|by intros [= <-]]. }
  unfold delta_key.
  destruct (negb _); [done|]. destruct (_ <? 5)%nat; [done|].
  destruct (Py.int (nth 1 _ _)) eqn:E1; simpl; [intros [= <-]; eauto|].
  destruct (Py.int (nth 3 _ _)) eqn:E3; simpl; [intros [= <-]; eauto|].
  destruct (Py.int (Py.first _)) eqn:E4; simpl; [intros [= <-]; eauto|done].
Qed.

(** *** Insertion-ordered dictionaries with a default *)

Section dd.
Context {K V : Type} `{EqDecision K} (dflt : V).

Lemma dd_get_update (k k' : K) f (d : list (K * V)) :
  dd_get dflt k' (dd_update dflt k f d)
  = if decide (k' = k) then f (dd_get dflt k d) else dd_get dflt k' d.
Proof.
  induction d as [|[k1 v1] r IH]; simpl; [done|].
  destruct (decide (k = k1)) as [->|Hne]; simpl.
  - by destruct (decide (k' = k1)).
  - rewrite IH. destruct (decide (k' = k1)) as [->|]; [|done].
    by rewrite decide_False.
Qed.

Lemma dd_update_keys (k : K) f (d : list (K * V)) :
  (dd_update dflt k f d).*1 = if decide (k ∈ d.*1) then d.*1 else (d.*1 ++ [k])%list.
Proof.
  induction d as [|[k1 v1] r IH].
  - cbn [dd_update fmap list_fmap fst app]. destruct (decide (k ∈ [])) as [H|]; [|done].
    by apply elem_of_nil in H.
  - cbn [dd_update]. destruct (decide (k = k1)) as [->|Hne].
    + cbn [fmap list_fmap fst]. rewrite decide_True; [done|]. left.
    + cbn [fmap list_fmap fst] in *. rewrite IH.
      destruct (decide (k ∈ r.*1)) as [Hin|Hnin].
      * rewrite decide_True; [done|]. by right.
      * rewrite decide_False; [done|]. by intros [?|?]%elem_of_cons.
Qed.

Lemma dd_update_NoDup (k : K) f (d : list (K * V)) : NoDup d.*1 → NoDup (dd_update dflt k f d).*1.
Proof.
  intros Hnd. rewrite dd_update_keys. destruct (decide (k ∈ d.*1)); [done|].
  apply NoDup_app. split; [done|]. split; [|apply NoDup_singleton].
  intros x Hx ->%list_elem_of_singleton. done.
Qed.

Lemma dd_get_elem (k : K) v (d : list (K * V)) :
  NoDup d.*1 → (k, v) ∈ d → dd_get dflt k d = v.
Proof.
  induction d as [|[k1 v1] r IH]; simpl; intros Hnd Hin.
  - by apply elem_of_nil in Hin.
  - apply NoDup_cons in Hnd as [Hk1 Hnd].
    apply elem_of_cons in Hin as [[= <- <-]|Hin].
    + by rewrite decide_True.
    + rewrite decide_False; [by apply IH|].
      intros <-. apply Hk1. apply list_elem_of_fmap. by exists (k, v).
Qed.

Lemma dd_update_Forall (P : V → Prop) (k : K) f (d : list (K * V)) :
  P (f dflt) → (∀ v, P v → P (f v)) →
  Forall (λ kv, P kv.2) d → Forall (λ kv, P kv.2) (dd_update dflt k f d).
Proof.
  intros Hd Hf. induction 1 as [|[k1 v1] r Hv Hr IH]; simpl.
  - by repeat constructor.
  - destruct (decide (k = k1)); constructor; simpl in *; auto.
Qed.
End dd.

(** *** What the groups contain *)

Lemma add_snapshot_file_spec max spw f spw' :
  add_snapshot_file max spw f = inr spw' →
  (∀ w op, snapshots_of spw' w op
           = (snapshots_of spw w op ++ members max w op [f])%list)
  ∧ (wf_groups spw → wf_groups spw').
Proof.
  rewrite add_snapshot_file_delta_key. unfold members, member_item. simpl.
  destruct (delta_key f) as [e|[[[w0 op0] id0]|]]; simpl; [done|..].
  - destruct (Z.leb_spec id0 max) as [Hle|Hgt]; intros [= <-].
    + split.
      * intros w op. unfold snapshots_of. rewrite dd_get_update.
        destruct (decide (w = w0)) as [->|Hw].
        -- rewrite dd_get_update. destruct (decide (op = op0)) as [->|Hop].
           ++ by rewrite decide_True.
           ++ rewrite decide_False by (intros (? & ? & ?); congruence). by rewrite app_nil_r.
        -- rewrite decide_False by (intros (? & ? & ?); congruence). by rewrite app_nil_r.
      * intros [Hnd Hall]. split; [by apply dd_update_NoDup|].
        apply (dd_update_Forall [] (λ ws : partition_snapshots, NoDup ws.*1));
          [|intros ws Hws|done]; by apply dd_update_NoDup; try constructor.
    + split; [|done]. intros w op. rewrite decide_False by lia.
      by rewrite app_nil_r.
  - intros [= <-]. split; [|done]. intros w op. by rewrite app_nil_r.
Qed.

Lemma add_snapshot_files_spec max files spw spw' :
  for_each (add_snapshot_file max) files spw = inr spw' →
  (∀ w op, snapshots_of spw' w op
           = (snapshots_of spw w op ++ members max w op files)%list)
  ∧ (wf_groups spw → wf_groups spw').
Proof.
  revert spw. induction files as [|f r IH]; simpl; intros spw.
  - intros [= <-]. split; [|done]. intros. by rewrite app_nil_r.
  - destruct (add_snapshot_file max spw f) as [|spw1] eqn:E; simpl; [done|].
    intros Hr. destruct (add_snapshot_file_spec _ _ _ _ E) as [H1 W1].
    destruct (IH _ Hr) as [H2 W2]. split; [|by auto].
    intros w op. rewrite H2, H1. unfold members. simpl.
    rewrite <- app_assoc. f_equal. by destruct (member_item max w op f).
Qed.

Lemma sort_snapshots_keys spw : (sort_snapshots spw).*1 = spw.*1.
Proof. unfold sort_snapshots. by rewrite <- list_fmap_compose. Qed.

Lemma elem_of_sort_snapshots spw w ws' :
  (w, ws') ∈ sort_snapshots spw →
  ∃ ws : partition_snapshots,
    (w, ws) ∈ spw
    ∧ ws' = (λ group : (string * Z) * list (Z * string),
               (group.1, Py.sorted fst group.2)) <$> ws.
Proof.
  unfold sort_snapshots. intros ([w0 ws0] & [= -> ->] & Hin)%list_elem_of_fmap.
  by exists ws0.
Qed.

Lemma sorted_entry_keys (ws : partition_snapshots) :
  ((λ group : (string * Z) * list (Z * string),
      (group.1, Py.sorted fst group.2)) <$> ws).*1 = ws.*1.
Proof. by rewrite <- list_fmap_compose. Qed.

Lemma sort_snapshots_wf spw : wf_groups spw → wf_groups (sort_snapshots spw).
Proof.
  intros [Hnd Hall]. split; [by rewrite sort_snapshots_keys|].
  apply Forall_forall. intros [w ws'] Hin.
  destruct (elem_of_sort_snapshots _ _ _ Hin) as (ws & Hws & ->).
  simpl. rewrite sorted_entry_keys.
  rewrite Forall_forall in Hall. apply (Hall _ Hws).
Qed.

Lemma elem_of_entries spw w op snaps :
  (w, op, snaps) ∈ entries spw ↔ ∃ ws, (w, ws) ∈ spw ∧ (op, snaps) ∈ ws.
Proof.
  unfold entries. rewrite list_elem_of_bind. split.
  - intros ([w0 ws] & ([op0 s0] & [= -> -> ->] & Hin)%list_elem_of_fmap & Hw).
    by exists ws.
  - intros (ws & Hw & Hop). exists (w, ws). split; [|done].
    apply list_elem_of_fmap. by exists (op, snaps).
Qed.

(** Every group holds exactly the members of the listing, sorted by id. *)
Lemma groups_entry files max spw w op snaps :
  get_uncoordinated_snapshots_per_worker files max = inr spw →
  (w, op, snaps) ∈ entries spw →
  snaps = Py.sorted fst (members max w op files).
Proof.
  unfold get_uncoordinated_snapshots_per_worker.
  destruct (for_each _ files []) as [|spw0] eqn:E; simpl; [done|].
  intros [= <-] (ws' & Hw & Hop)%elem_of_entries.
  destruct (add_snapshot_files_spec _ _ _ _ E) as [Hs Hwf].
  destruct Hwf as [Hnd Hall]; [split; constructor|].
  destruct (elem_of_sort_snapshots _ _ _ Hw) as (ws & Hws & ->).
  apply list_elem_of_fmap in Hop as ([op0 snaps0] & [= -> ->] & Hin).
  f_equal. specialize (Hs w op0). simpl in Hs. rewrite <- Hs.
  unfold snapshots_of. rewrite (dd_get_elem [] w ws spw0 Hnd Hws).
  rewrite Forall_forall in Hall. specialize (Hall _ Hws). simpl in Hall.
  by rewrite (dd_get_elem [] op0 snaps0 ws Hall Hin).
Qed.

Lemma groups_wf files max spw :
  get_uncoordinated_snapshots_per_worker files max = inr spw → wf_groups spw.
Proof.
  unfold get_uncoordinated_snapshots_per_worker.
  destruct (for_each _ files []) as [|spw0] eqn:E; simpl; [done|].
  intros [= <-]. apply sort_snapshots_wf.
  apply (add_snapshot_files_spec _ _ _ _ E). split; constructor.
Qed.

Lemma elem_of_members max w op files id name :
  (id, name) ∈ members max w op files
  ↔ name ∈ files ∧ delta_key name = inr (Some (w, op, id)) ∧ id ≤ max.
Proof.
  unfold members. rewrite list_elem_of_omap. unfold member_item. split.
  - intros (f & Hf & Hm).
    destruct (delta_key f) as [|[[[w0 op0] id0]|]] eqn:E; try done.
    destruct (decide _) as [(-> & -> & Hle)|]; [|done].
    by injection Hm as -> ->.
  - intros (Hf & Hk & Hle). exists name. split; [done|]. rewrite Hk.
    by rewrite decide_True.
Qed.

Lemma members_names_sublist max w op files :
  (members max w op files).*2 `sublist_of` files.
Proof.
  unfold members. induction files as [|f r IH]; simpl; [done|].
  unfold member_item at 1.
  destruct (delta_key f) as [|[[[w0 op0] id0]|]]; try by apply sublist_cons.
  destruct (decide _); [by apply sublist_skip|by apply sublist_cons].
Qed.

(** *** Object names and the grouping *)

Lemma slash_not_in_str z : contains "/" (Py.str z) = false.
Proof. by apply str_no_char. Qed.

Lemma split_snapshot_path w op p tail :
  contains "/" op = false → contains "/" tail = false →
  Py.split "/" ("uncoordinated/" +:+ Py.str w +:+ "/" +:+ op +:+ "/"
                  +:+ Py.str p +:+ "/" +:+ tail)
  = ["uncoordinated"; Py.str w; op; Py.str p; tail].
Proof.
  intros Hop Htail.
  change ("uncoordinated/" +:+ ?x) with ("uncoordinated" +:+ String "/" x).
  rewrite split_app by done.
  change (Py.str w +:+ "/" +:+ ?x) with (Py.str w +:+ String "/" x).
  rewrite split_app by apply slash_not_in_str.
  change (op +:+ "/" +:+ ?x) with (op +:+ String "/" x).
  rewrite split_app by done.
  change (Py.str p +:+ "/" +:+ ?x) with (Py.str p +:+ String "/" x).
  rewrite split_app by apply slash_not_in_str.
  by rewrite split_without.
Qed.

Lemma split_sequencer_path w sid :
  Py.split "/" (get_sequencer_path w sid)
  = ["uncoordinated"; Py.str w; "sequencer"; Py.str sid +:+ ".bin"].
Proof.
  unfold get_sequencer_path.
  change ("uncoordinated/" +:+ ?x) with ("uncoordinated" +:+ String "/" x).
  rewrite split_app by done.
  change (Py.str w +:+ "/sequencer/" +:+ ?x)
    with (Py.str w +:+ String "/" ("sequencer" +:+ String "/" x)).
  rewrite split_app by apply slash_not_in_str.
  rewrite split_app by done.
  rewrite split_without; [done|].
  by rewrite contains_app, slash_not_in_str.
Qed.

(** The compactor reads the id-0 path of a group back as that group. *)
Lemma delta_key_base_path w op p :
  contains "/" op = false →
  delta_key (get_snapshot_path w op p 0) = inr (Some (w, (op, p), 0)).
Proof.
  intros Hop. unfold delta_key, get_snapshot_path.
  rewrite startswith_app. cbn [negb].
  rewrite split_snapshot_path by done.
  cbn [length Nat.ltb Nat.leb nth]. rewrite !int_str. done.
Qed.

Lemma delta_key_Some name w op id :
  delta_key name = inr (Some (w, op, id)) →
  (5 ≤ length (Py.split "/" name))%nat ∧ contains "/" op.1 = false.
Proof.
  unfold delta_key. destruct (negb _); [done|].
  destruct (Nat.ltb_spec (length (Py.split "/" name)) 5) as [|Hlen]; [done|].
  destruct (Py.int (nth 1 _ _)); simpl; [done|].
  destruct (Py.int (nth 3 _ _)); simpl; [done|].
  destruct (Py.int (Py.first _)); simpl; [done|].
  intros [= <- <- <-]. split; [done|]. simpl.
  apply (split_no_sep "/" name). apply list_elem_of_In, nth_In. lia.
Qed.

(** *** Listing the bucket *)

#[global] Instance string_le_total : Total string_le.
Proof. intros a b. apply String.leb_total. Qed.

Lemma elem_of_list_objects b prefix name :
  name ∈ Minio.list_objects b prefix
  ↔ is_Some (b !! name) ∧ Py.startswith name prefix = true.
Proof.
  unfold Minio.list_objects.
  rewrite list_elem_of_filter, merge_sort_Permutation.
  rewrite list_elem_of_fmap. split.
  - intros [Hp ([k v] & -> & Hin%elem_of_map_to_list)]. simpl.
    split; [by eexists|by apply Is_true_true].
  - intros [[v Hv] Hp]. split; [by apply Is_true_true|].
    exists (name, v). split; [done|]. by apply elem_of_map_to_list.
Qed.

Lemma list_objects_NoDup b prefix : NoDup (Minio.list_objects b prefix).
Proof.
  unfold Minio.list_objects. apply NoDup_filter.
  rewrite merge_sort_Permutation. apply NoDup_fst_map_to_list.
Qed.

Lemma elem_of_bin_files b prefix name :
  name ∈ bin_files b prefix
  ↔ is_Some (b !! name) ∧ Py.startswith name prefix = true
    ∧ Py.endswith name ".bin" = true.
Proof.
  unfold bin_files. rewrite list_elem_of_filter, elem_of_list_objects.
  rewrite Is_true_true. tauto.
Qed.

Lemma bin_files_NoDup b prefix : NoDup (bin_files b prefix).
Proof. apply NoDup_filter, list_objects_NoDup. Qed.

Lemma startswith_nil s : Py.startswith s "" = true.
Proof. by destruct s. Qed.

(** ** The compactor: merging and deleting *)

Lemma for_each_M_cons {A B} (body : A → B → M A) x r a b :
  for_each_M body (x :: r) a b
  = match body a x b with
    | (b', inl e) => (b', inl e)
    | (b', inr a') => for_each_M body r a' b'
    end.
Proof. reflexivity. Qed.

Lemma for_each_M_app {A B} (body : A → B → M A) l1 l2 a b :
  for_each_M body (l1 ++ l2) a b
  = match for_each_M body l1 a b with
    | (b', inl e) => (b', inl e)
    | (b', inr a') => for_each_M body l2 a' b'
    end.
Proof.
  revert a b. induction l1 as [|x r IH]; intros a b; [done|].
  rewrite <- app_comm_cons, !for_each_M_cons.
  destruct (body a x b) as [b' [e|a']]; [done|]. apply IH.
Qed.

Lemma compact_loop_entries spw td b :
  for_each_M (λ td '(w, ws), for_each_M (compact_partition w) ws td) spw td b
  = for_each_M compact_group (entries spw) td b.
Proof.
  revert td b. induction spw as [|[w ws] r IH]; intros td b; [done|].
  change (entries ((w, ws) :: r))
    with (((λ '(op, snaps), (w, op, snaps)) <$> ws) ++ entries r)%list.
  rewrite for_each_M_cons, for_each_M_app.
  assert (∀ td b, for_each_M (compact_partition w) ws td b
                  = for_each_M compact_group
                      ((λ '(op, snaps), (w, op, snaps)) <$> ws) td b) as <-.
  { clear. induction ws as [|[op snaps] r IH]; intros td b; [done|].
    rewrite fmap_cons, !for_each_M_cons.
    change (compact_group td (w, op, snaps) b)
      with (compact_partition w td (op, snaps) b).
    destruct (compact_partition w td (op, snaps) b) as [b' [e|a']]; [done|].
    apply IH. }
  destruct (for_each_M (compact_partition w) ws td b) as [b' [e|a']]; [done|].
  apply IH.
Qed.

Lemma compact_group_unfold td g b :
  compact_group td g b
  = if decide (big g) then
      match for_each (load_delta b) g.2 (∅, td) with
      | inl e => (b, inl e)
      | inr (data, td') =>
          (if decide (data = ∅) then b
           else Minio.put_object b (base_path g) (PDict data), inr td')
      end
    else (b, inr td).
Proof.
  destruct g as [[w [op p]] snaps]. unfold compact_group, compact_partition, big.
  cbn [fst snd].
  destruct (Nat.leb_spec (length snaps) 1) as [Hle|Hgt].
  - rewrite decide_False by lia. done.
  - rewrite decide_True by lia.
    unfold mbind, M_bind, raise_or_return.
    destruct (for_each (load_delta b) snaps (∅, td)) as [e|[data td']]; [done|].
    destruct (decide (data = ∅)) as [->|Hne].
    + by rewrite bool_decide_eq_false_2 by (by intros H).
    + by rewrite bool_decide_eq_true_2.
Qed.

(** The loop that loads the deltas of one group: on success every object is
    a dict, the result is their merge in order, and every name is marked. *)
Lemma load_loop_spec b snaps d td d' td' :
  for_each (load_delta b) snaps (d, td) = inr (d', td') →
  td' = (td ++ snaps.*2)%list
  ∧ ∃ deltas, Forall2 (λ item delta, b !! item.2 = Some (PDict delta))
                      snaps deltas
              ∧ d' = foldl dict_update d deltas.
Proof.
  revert d td. induction snaps as [|[id name] r IH]; intros d td.
  - intros [= <- <-]. split; [by rewrite app_nil_r|]. by exists [].
  - cbn [for_each load_delta]. unfold Minio.get_object.
    destruct (b !! name) as [[o|i o e t]|] eqn:Hb; simpl; [| |done].
    + assert ((if bool_decide (o ≠ ∅) then inr (dict_update d o) else inr d)
              = (inr (dict_update d o) : Py.exn + KVPairs)) as ->.
      { case_bool_decide as Hn; [done|].
        rewrite Hn. unfold dict_update.
        by rewrite (left_id_L ∅ (∪)). }
      simpl. intros Hr. destruct (IH _ _ Hr) as (-> & deltas & HF & ->).
      split; [by rewrite <- app_assoc|].
      exists (o :: deltas). split; [by constructor|done].
    + by destruct (decide _).
Qed.

(** A run of the merging loop, whatever its outcome, leaves every object
    that is not the id-0 path of a merged group as it was. *)
Lemma compact_loop_frame (groups : list group) td b k :
  (∀ g, g ∈ groups → big g → k ≠ base_path g) →
  (for_each_M compact_group groups td b).1 !! k = b !! k.
Proof.
  revert td b. induction groups as [|g r IH]; intros td b Hk; [done|].
  rewrite for_each_M_cons, compact_group_unfold.
  assert (∀ g, g ∈ r → big g → k ≠ base_path g) as Hr
    by (intros g' ?; apply Hk; by right).
  destruct (decide (big g)) as [Hbig|]; [|by apply IH].
  destruct (for_each (load_delta b) g.2 (∅, td)) as [e|[data td']]; [done|].
  rewrite IH by done.
  destruct (decide (data = ∅)); [done|].
  unfold Minio.put_object. rewrite lookup_insert_ne; [done|].
  intros Heq. by apply (Hk g ltac:(left) Hbig).
Qed.

Lemma separated_cons g r : separated (g :: r) → separated r.
Proof.
  intros [Hnd Hsep]. split.
  - rewrite filter_cons in Hnd. destruct (decide (big g)); [|done].
    rewrite fmap_cons in Hnd. by apply NoDup_cons in Hnd as [_ ?].
  - intros g1 g2 H1 H2. apply Hsep; by right.
Qed.

Lemma separated_head g r g' :
  separated (g :: r) → big g → g' ∈ r → big g' →
  base_path g ≠ base_path g' ∧ base_path g ∉ sources g'.
Proof.
  intros [Hnd Hsep] Hbig Hin Hbig'.
  rewrite filter_cons, decide_True, fmap_cons in Hnd by done.
  apply NoDup_cons in Hnd as [Hnin _].
  assert (base_path g' ∈ base_path <$> filter big r) as Hb'.
  { apply list_elem_of_fmap. exists g'. split; [done|].
    by apply list_elem_of_filter. }
  split.
  - intros Heq. apply Hnin. by rewrite Heq.
  - intros Hsrc. apply Hnin.
    rewrite <- (Hsep g' g); [done|by right|left|done|done|done].
Qed.

Lemma Forall2_bucket_agree (b1 b2 : bucket) (snaps : list (Z * string))
    (deltas : list KVPairs) :
  (∀ name, name ∈ snaps.*2 → b1 !! name = b2 !! name) →
  Forall2 (λ item delta, b1 !! item.2 = Some (PDict delta)) snaps deltas →
  Forall2 (λ item delta, b2 !! item.2 = Some (PDict delta)) snaps deltas.
Proof.
  intros Hag HF. induction HF as [|[id name] d r ds Hh Ht IH]; [constructor|].
  constructor.
  - rewrite <- Hh. symmetry. apply Hag. left.
  - apply IH. intros n Hn. apply Hag. by right.
Qed.

(** A run of the merging loop that raises nothing: what is marked, and what
    the id-0 path of every merged group holds afterwards. *)
Lemma compact_loop_success (groups : list group) td b b' td' :
  separated groups →
  for_each_M compact_group groups td b = (b', inr td') →
  td' = (td ++ merged_names groups)%list
  ∧ ∀ g, g ∈ groups → big g →
      ∃ deltas,
        Forall2 (λ item delta, b !! item.2 = Some (PDict delta)) g.2 deltas
        ∧ b' !! base_path g
          = if decide (last_write_wins deltas = ∅) then b !! base_path g
            else Some (PDict (last_write_wins deltas)).
Proof.
  revert td b. induction groups as [|g0 r IH]; intros td b Hsep.
  - intros [= <- <-]. split; [by rewrite app_nil_r|].
    intros g Hg. by apply elem_of_nil in Hg.
  - rewrite for_each_M_cons, compact_group_unfold.
    pose proof (separated_cons _ _ Hsep) as Hsep_r.
    unfold merged_names. rewrite filter_cons.
    destruct (decide (big g0)) as [Hbig0|Hsmall0].
    + destruct (for_each (load_delta b) g0.2 (∅, td)) as [e|[data td1]] eqn:El;
        [done|].
      destruct (load_loop_spec _ _ _ _ _ _ El) as (-> & deltas0 & HF0 & Hdata).
      fold (last_write_wins deltas0) in Hdata. subst data.
      set (b1 := if decide (last_write_wins deltas0 = ∅) then b
                 else Minio.put_object b (base_path g0)
                        (PDict (last_write_wins deltas0))).
      intros Hloop. destruct (IH _ _ Hsep_r Hloop) as [-> Hgroups].
      split; [by rewrite <- app_assoc|].
      assert (∀ k, k ≠ base_path g0 → b1 !! k = b !! k) as Hb1.
      { intros k Hk. unfold b1. destruct (decide _); [done|].
        unfold Minio.put_object. by rewrite lookup_insert_ne. }
      intros g [->|Hg]%elem_of_cons Hbig.
      * exists deltas0. split; [done|].
        replace b' with (for_each_M compact_group r
                           (td ++ g0.2.*2)%list b1).1 by by rewrite Hloop.
        rewrite compact_loop_frame.
        -- unfold b1. destruct (decide _); [done|].
           unfold Minio.put_object. by rewrite lookup_insert_eq.
        -- intros g' Hg' Hbig'.
           by apply (separated_head _ _ _ Hsep Hbig0 Hg' Hbig').
      * destruct (separated_head _ _ _ Hsep Hbig0 Hg Hbig) as [Hne Hnsrc].
        destruct (Hgroups g Hg Hbig) as (deltas & HF & Hb').
        exists deltas. split.
        -- apply (Forall2_bucket_agree b1); [|done].
           intros name Hn. apply Hb1. by intros ->.
        -- rewrite Hb'. by rewrite Hb1.
    + intros Hloop. destruct (IH _ _ Hsep_r Hloop) as [-> Hgroups].
      split; [done|]. intros g [->|Hg]%elem_of_cons Hbig; [done|].
      by apply Hgroups.
Qed.

(** *** The groups of a listing are separated *)

Lemma entries_keys_NoDup spw : wf_groups spw → NoDup (entries spw).*1.
Proof.
  intros [Hnd Hall]. induction spw as [|[w ws] r IH]; [constructor|].
  change (entries ((w, ws) :: r))
    with (((λ '(op, snaps), (w, op, snaps)) <$> ws) ++ entries r)%list.
  apply NoDup_cons in Hnd as [Hw Hnd]. apply Forall_cons in Hall as [Hws Hall].
  rewrite fmap_app. apply NoDup_app. split; [|split; [|by apply IH]].
  - rewrite <- list_fmap_compose.
    assert ((fst ∘ (λ '(op, snaps), (w, op, snaps))) <$> ws
            = (pair w) <$> ws.*1) as ->.
    { rewrite <- list_fmap_compose. apply list_fmap_ext. by intros _ [op snaps] _. }
    apply NoDup_fmap_2; [|done]. by intros x y [= ->].
  - intros x H1 H2. apply Hw.
    apply list_elem_of_fmap in H1 as (g1 & -> & Hin1).
    apply list_elem_of_fmap in Hin1 as ([op3 snaps3] & -> & _). simpl in H2.
    apply list_elem_of_fmap in H2 as ([[w4 op4] snaps4] & Heq & Hin2).
    simpl in Heq. injection Heq as <- <-.
    apply elem_of_entries in Hin2 as (ws4 & Hin2 & _).
    apply list_elem_of_fmap. by exists (w, ws4).
Qed.

Lemma NoDup_fmap_eq {A B} (f : A → B) (l : list A) x y :
  NoDup (f <$> l) → x ∈ l → y ∈ l → f x = f y → x = y.
Proof.
  induction l as [|z r IH]; intros Hnd Hx Hy Hf; [by apply elem_of_nil in Hx|].
  rewrite fmap_cons in Hnd. apply NoDup_cons in Hnd as [Hz Hnd].
  apply elem_of_cons in Hx as [->|Hx]; apply elem_of_cons in Hy as [->|Hy].
  - done.
  - destruct Hz. rewrite Hf. by apply list_elem_of_fmap_2.
  - destruct Hz. rewrite <- Hf. by apply list_elem_of_fmap_2.
  - by apply IH.
Qed.

Section groups_of_listing.
Context (files : list string) (max : Z) (spw : worker_partition_snapshots).
Context (Hgroups : get_uncoordinated_snapshots_per_worker files max = inr spw).

Lemma group_member g id name :
  g ∈ entries spw → (id, name) ∈ g.2 →
  name ∈ files ∧ delta_key name = inr (Some (g.1.1, g.1.2, id)) ∧ id ≤ max.
Proof.
  destruct g as [[w op] snaps]. intros Hg Hin. simpl in *.
  rewrite (groups_entry _ _ _ _ _ _ Hgroups Hg) in Hin.
  by apply elem_of_sorted, elem_of_members in Hin.
Qed.

Lemma group_source g name :
  g ∈ entries spw → name ∈ sources g →
  ∃ id, (id, name) ∈ g.2 ∧ name ∈ files
        ∧ delta_key name = inr (Some (g.1.1, g.1.2, id)) ∧ id ≤ max.
Proof.
  intros Hg ([id n] & -> & Hin)%list_elem_of_fmap. exists id.
  split; [done|]. by apply group_member.
Qed.

Lemma group_eq g g' : g ∈ entries spw → g' ∈ entries spw → g.1 = g'.1 → g = g'.
Proof.
  apply NoDup_fmap_eq, entries_keys_NoDup. by eapply groups_wf.
Qed.

Lemma big_group_base_key g :
  g ∈ entries spw → big g →
  delta_key (base_path g) = inr (Some (g.1.1, g.1.2, 0)).
Proof.
  intros Hg Hbig. destruct g as [[w [op p]] snaps]. unfold big in Hbig.
  destruct snaps as [|[id name] r]; [simpl in Hbig; lia|].
  destruct (group_member _ id name Hg ltac:(left)) as (_ & Hk & _).
  apply delta_key_Some in Hk as [_ Hop]. by apply delta_key_base_path.
Qed.

Lemma groups_separated : separated (entries spw).
Proof.
  split.
  - apply NoDup_fmap_2_strong.
    + intros g g' [Hb Hg]%list_elem_of_filter [Hb' Hg']%list_elem_of_filter Heq.
      apply group_eq; [done..|].
      pose proof (big_group_base_key g Hg Hb) as H1.
      pose proof (big_group_base_key g' Hg' Hb') as H2.
      rewrite Heq in H1. rewrite H1 in H2.
      destruct g as [[??]?], g' as [[??]?]. simpl in *. congruence.
    + apply NoDup_filter. eapply NoDup_fmap_1, entries_keys_NoDup.
      by eapply groups_wf.
  - intros g g' Hg Hg' Hb Hb' Hsrc. apply group_eq; [done..|].
    destruct (group_source g _ Hg Hsrc) as (id & _ & _ & Hk & _).
    rewrite (big_group_base_key g' Hg' Hb') in Hk.
    destruct g as [[??]?], g' as [[??]?]. simpl in *. congruence.
Qed.
End groups_of_listing.

(** *** A whole run of the compactor *)

Lemma compact_unfold files max b :
  compact_uncoordinated_deltas files max b
  = match get_uncoordinated_snapshots_per_worker files max with
    | inl e => (b, inl e)
    | inr spw =>
        match for_each_M compact_group (entries spw) [] b with
        | (b1, inl e) => (b1, inl e)
        | (b1, inr td) => (foldl Minio.remove_object b1 td, inr tt)
        end
    end.
Proof.
  unfold compact_uncoordinated_deltas, mbind, M_bind, raise_or_return.
  destruct (get_uncoordinated_snapshots_per_worker files max) as [e|spw]; [done|].
  rewrite compact_loop_entries.
  destruct (for_each_M compact_group (entries spw) [] b) as [b1 [e|td]]; [done|].
  by destruct td.
Qed.

Lemma lookup_remove_objects (b : bucket) (td : list string) k :
  foldl Minio.remove_object b td !! k
  = if decide (k ∈ td) then None else b !! k.
Proof.
  revert b. induction td as [|n r IH]; intros b; cbn [foldl].
  - destruct (decide (k ∈ [])) as [H|]; [by apply elem_of_nil in H|done].
  - rewrite IH. unfold Minio.remove_object.
    destruct (decide (k ∈ r)) as [Hin|Hnin].
    + rewrite decide_True; [done|]. by right.
    + destruct (decide (k = n)) as [->|Hne].
      * rewrite decide_True by left. apply lookup_delete_eq.
      * rewrite decide_False by (by intros [?|?]%elem_of_cons).
        by apply lookup_delete_ne.
Qed.

Lemma elem_of_merged_names (groups : list group) k :
  k ∈ merged_names groups ↔ ∃ g, g ∈ groups ∧ big g ∧ k ∈ sources g.
Proof.
  unfold merged_names. rewrite list_elem_of_bind. split.
  - intros (g & Hk & [Hb Hg]%list_elem_of_filter). by exists g.
  - intros (g & Hg & Hb & Hk). exists g. split; [done|].
    by apply list_elem_of_filter.
Qed.

(** A run that raises nothing, object by object. *)
Lemma compact_success files max b b' :
  compact_uncoordinated_deltas files max b = (b', inr tt) →
  ∃ spw,
    get_uncoordinated_snapshots_per_worker files max = inr spw
    ∧ (∀ k, k ∈ merged_names (entries spw) → b' !! k = None)
    ∧ (∀ k, k ∉ merged_names (entries spw) →
            (∀ g, g ∈ entries spw → big g → k ≠ base_path g) →
            b' !! k = b !! k)
    ∧ (∀ g, g ∈ entries spw → big g →
         ∃ deltas,
           Forall2 (λ item delta, b !! item.2 = Some (PDict delta)) g.2 deltas
           ∧ (base_path g ∉ merged_names (entries spw) →
              b' !! base_path g
              = if decide (last_write_wins deltas = ∅) then b !! base_path g
                else Some (PDict (last_write_wins deltas)))).
Proof.
  rewrite compact_unfold.
  destruct (get_uncoordinated_snapshots_per_worker files max) as [e|spw] eqn:Eg;
    [done|].
  destruct (for_each_M compact_group (entries spw) [] b) as [b1 [e|td]] eqn:El;
    [done|].
  intros [= <-]. exists spw. split; [done|].
  destruct (compact_loop_success _ _ _ _ _ (groups_separated _ _ _ Eg) El)
    as [-> Hbig]. simpl.
  split; [|split].
  - intros k Hk. rewrite lookup_remove_objects. by rewrite decide_True.
  - intros k Hk Hbase. rewrite lookup_remove_objects, decide_False by done.
    replace b1 with (for_each_M compact_group (entries spw) [] b).1
      by by rewrite El.
    by apply compact_loop_frame.
  - intros g Hg Hb. destruct (Hbig g Hg Hb) as (deltas & HF & Hb1).
    exists deltas. split; [done|]. intros Hn.
    by rewrite lookup_remove_objects, decide_False.
Qed.

(** Whatever the outcome, an object whose name has fewer than five segments
    is left as it was. *)
Lemma compact_frame_short files max b k :
  (length (Py.split "/" k) < 5)%nat →
  (compact_uncoordinated_deltas files max b).1 !! k = b !! k.
Proof.
  intros Hshort. rewrite compact_unfold.
  destruct (get_uncoordinated_snapshots_per_worker files max) as [e|spw] eqn:Eg;
    [done|].
  assert (∀ g, g ∈ entries spw → big g → k ≠ base_path g) as Hbase.
  { intros g Hg Hb ->.
    apply (big_group_base_key _ _ _ Eg) in Hb; [|done].
    apply delta_key_Some in Hb as [Hlen _]. lia. }
  assert (k ∉ merged_names (entries spw)) as Hnames.
  { intros (g & Hg & _ & Hk)%elem_of_merged_names.
    destruct (group_source _ _ _ Eg g k Hg Hk) as (id & _ & _ & Hkey & _).
    apply delta_key_Some in Hkey as [Hlen _]. lia. }
  destruct (for_each_M compact_group (entries spw) [] b) as [b1 [e|td]] eqn:El;
    simpl.
  - replace b1 with (for_each_M compact_group (entries spw) [] b).1
      by by rewrite El.
    by apply compact_loop_frame.
  - destruct (compact_loop_success _ _ _ _ _ (groups_separated _ _ _ Eg) El)
      as [-> _]. simpl in *.
    rewrite lookup_remove_objects, decide_False by done.
    replace b1 with (for_each_M compact_group (entries spw) [] b).1
      by by rewrite El.
    by apply compact_loop_frame.
Qed.

(** C9. Compaction leaves every sequencer record as it is: for every bound
    and every outcome of the run, the object at a sequencer path
    [uncoordinated/<worker>/sequencer/<id>.bin] is after the run what it was
    before, both for the compactor run on a given listing and for the job
    that lists the bucket itself; and no compaction group contains a
    sequencer path, whose four segments fail the five-segment guard. *)
Theorem compaction_leaves_sequencer_records
    (files : list string) (max : Z) (b : bucket) (worker sid : Z) :
  ((compact_uncoordinated_deltas files max b).1
     !! get_sequencer_path worker sid) = b !! get_sequencer_path worker sid
  ∧ ((start_uncoordinated_snapshot_compaction max b).1
       !! get_sequencer_path worker sid) = b !! get_sequencer_path worker sid
  ∧ (∀ spw g,
       get_uncoordinated_snapshots_per_worker files max = inr spw →
       g ∈ entries spw →
       (get_sequencer_path worker sid ∉ sources g)
       ∧ (big g → base_path g ≠ get_sequencer_path worker sid)).
Proof.
  assert (length (Py.split "/" (get_sequencer_path worker sid)) < 5)%nat
    as Hshort by (rewrite split_sequencer_path; simpl; lia).
  split; [by apply compact_frame_short|].
  split; [by apply (compact_frame_short (bin_files b ""))|].
  intros spw g Eg Hg. split.
  - intros Hk.
    destruct (group_source _ _ _ Eg g _ Hg Hk) as (id & _ & _ & Hkey & _).
    apply delta_key_Some in Hkey as [Hlen _]. lia.
  - intros Hb Heq. apply (big_group_base_key _ _ _ Eg) in Hb; [|done].
    rewrite Heq in Hb. apply delta_key_Some in Hb as [Hlen _]. lia.
Qed.

(** *** Compacting one group *)

Lemma small_group_untouched files max b b' spw g name :
  compact_uncoordinated_deltas files max b = (b', inr tt) →
  get_uncoordinated_snapshots_per_worker files max = inr spw →
  g ∈ entries spw → ¬ big g → name ∈ sources g → b' !! name = b !! name.
Proof.
  intros Hrun Eg Hg Hsmall Hname.
  destruct (compact_success _ _ _ _ Hrun) as (spw' & Eg' & _ & Hframe & _).
  rewrite Eg in Eg'. injection Eg' as <-.
  destruct (group_source _ _ _ Eg g name Hg Hname) as (id & _ & _ & Hkey & _).
  apply Hframe.
  - intros (g' & Hg' & Hb' & Hn')%elem_of_merged_names.
    destruct (group_source _ _ _ Eg g' name Hg' Hn') as (id' & _ & _ & Hkey' & _).
    rewrite Hkey in Hkey'. apply Hsmall.
    rewrite (group_eq _ _ _ Eg g g' Hg Hg'); [done|].
    destruct g as [[??]?], g' as [[??]?]. simpl in *. congruence.
  - intros g' Hg' Hb' ->.
    rewrite (big_group_base_key _ _ _ Eg g' Hg' Hb') in Hkey. apply Hsmall.
    rewrite (group_eq _ _ _ Eg g g' Hg Hg'); [done|].
    destruct g as [[??]?], g' as [[??]?]. simpl in *. congruence.
Qed.

(** C1, counterexample. The group of [idle_bucket] has two deltas, whose
    merge is empty; the guard [if data:] of line 82 then writes nothing, and
    no delta at id 0 exists after the run. *)
Lemma empty_merge_not_written :
  get_uncoordinated_snapshots_per_worker (bin_files idle_bucket "") 2
  = inr [(3, [(("orders", 0), [(1, get_snapshot_path 3 "orders" 0 1);
                                (2, get_snapshot_path 3 "orders" 0 2)])])]
  ∧ ¬ group_compacted_as_specified 2 idle_bucket
        (3, ("orders", 0), [(1, get_snapshot_path 3 "orders" 0 1);
                            (2, get_snapshot_path 3 "orders" 0 2)]).
Proof.
  split; [vm_compute; reflexivity|].
  intros (b' & deltas & Hrun & _ & Hbase & _).
  vm_compute in Hrun. injection Hrun as <-. vm_compute in Hbase.
  discriminate Hbase.
Qed.

(** C1, amended. After a run of the compaction job that raises nothing, for
    every group of the listing with more than one delta of id at most the
    bound: the group's deltas are dicts, sorted by ascending id; every source
    name other than the group's id-0 path is gone from the bucket; and when
    the id-0 path is not itself a source name, it holds the last-write-wins
    merge of the deltas in that order if the merge is not empty, and is left
    as it was if the merge is empty. The source names of a group with at most
    one delta are left as they were. *)
Theorem compaction_merges_group
    (max : Z) (b b' : bucket) (spw : worker_partition_snapshots) (g : group)
    (Hrun : start_uncoordinated_snapshot_compaction max b = (b', inr tt))
    (Hgroups : get_uncoordinated_snapshots_per_worker (bin_files b "") max
               = inr spw)
    (Hg : g ∈ entries spw) :
  (big g →
     StronglySorted (key_le fst) g.2
     ∧ ∃ deltas,
         Forall2 (λ item delta, b !! item.2 = Some (PDict delta)) g.2 deltas
         ∧ (∀ name, name ∈ sources g → name ≠ base_path g → b' !! name = None)
         ∧ (base_path g ∉ sources g →
            b' !! base_path g
            = if decide (last_write_wins deltas = ∅) then b !! base_path g
              else Some (PDict (last_write_wins deltas))))
  ∧ (¬ big g → ∀ name, name ∈ sources g → b' !! name = b !! name).
Proof.
  change (compact_uncoordinated_deltas (bin_files b "") max b = (b', inr tt))
    in Hrun.
  split; [|intros Hsmall name; by eapply small_group_untouched].
  intros Hbig. split.
  { destruct g as [[w op] snaps]. simpl.
    rewrite (groups_entry _ _ _ _ _ _ Hgroups Hg). apply sorted_sorted. }
  destruct (compact_success _ _ _ _ Hrun) as (spw' & Eg' & Hgone & _ & Hmerged).
  rewrite Hgroups in Eg'. injection Eg' as <-.
  destruct (Hmerged g Hg Hbig) as (deltas & HF & Hbase).
  exists deltas. split; [done|]. split.
  - intros name Hname _. apply Hgone, elem_of_merged_names. by exists g.
  - intros Hnot. apply Hbase.
    intros (g' & Hg' & Hb' & Hsrc)%elem_of_merged_names. apply Hnot.
    destruct (groups_separated _ _ _ Hgroups) as [_ Hsep].
    assert (g' = g) as -> by by apply Hsep. done.
Qed.

(** Compacting deltas 1 and 2 of the scenario: the merge is stored at id 0
    and the two deltas are gone. *)
Example compaction_of_later_orders :
  ∃ b',
    start_uncoordinated_snapshot_compaction 2 later_orders_bucket = (b', inr tt)
    ∧ b' !! get_snapshot_path 3 "orders" 0 0
      = Some (PDict (<["a" := 5]> (<["b" := 3]> (<["c" := 4]> ∅))))
    ∧ b' !! get_snapshot_path 3 "orders" 0 1 = None
    ∧ b' !! get_snapshot_path 3 "orders" 0 2 = None.
Proof. eexists. repeat split; vm_compute; reflexivity. Qed.

(** C1, amended, on the group of deltas 1 and 2 of the scenario. *)
Lemma compaction_merges_group_witness :
  let b := later_orders_bucket in
  let b' := (start_uncoordinated_snapshot_compaction 2 b).1 in
  let g := later_orders_group in
  (big g →
     StronglySorted (key_le fst) g.2
     ∧ ∃ deltas,
         Forall2 (λ item delta, b !! item.2 = Some (PDict delta)) g.2 deltas
         ∧ (∀ name, name ∈ sources g → name ≠ base_path g → b' !! name = None)
         ∧ (base_path g ∉ sources g →
            b' !! base_path g
            = if decide (last_write_wins deltas = ∅) then b !! base_path g
              else Some (PDict (last_write_wins deltas))))
  ∧ (¬ big g → ∀ name, name ∈ sources g → b' !! name = b !! name).
Proof.
  apply (compaction_merges_group 2 later_orders_bucket _
           [(3, [(("orders", 0), later_orders_group.2)])]).
  - vm_compute. reflexivity.
  - vm_compute. reflexivity.
  - vm_compute. left.
Defined.

(** The defect behind the statement left out of the amended C1: when the
    id-0 path is itself a source name, as in the specification's group with
    deltas 0, 1, 2 and in every group compacted a second time, the merged base
    is written and then deleted with the sources, and the group's state is
    lost. *)
Example compaction_deletes_merged_base :
  ∃ b',
    start_uncoordinated_snapshot_compaction 2 orders_bucket = (b', inr tt)
    ∧ b' !! get_snapshot_path 3 "orders" 0 0 = None
    ∧ b' !! get_snapshot_path 3 "orders" 0 1 = None
    ∧ b' !! get_snapshot_path 3 "orders" 0 2 = None
    ∧ (retrieve_snapshot (init 3 1) b' 2 [("orders", 0)]).2
      = inr (∅, Some (<[("p", 0) := 20]> (<[("p", 1) := 5]> ∅)), Some ∅, 2, 9).
Proof. eexists. repeat split; vm_compute; reflexivity. Qed.

(** *** Running the compactor again *)

Lemma add_files_keys_ok max files spw spw' f :
  for_each (add_snapshot_file max) files spw = inr spw' → f ∈ files →
  ∃ r, delta_key f = inr r.
Proof.
  revert spw. induction files as [|f0 r IH]; intros spw Hrun Hf.
  - by apply elem_of_nil in Hf.
  - cbn [for_each] in Hrun. rewrite add_snapshot_file_delta_key in Hrun.
    destruct (delta_key f0) as [e|k] eqn:Ek; [done|].
    apply elem_of_cons in Hf as [->|Hf]; [by eauto|].
    simpl in Hrun.
    destruct (match k with Some _ => _ | None => _ end) as [|spw1];
      simpl in Hrun; [done|]. by eapply IH.
Qed.

Lemma add_files_no_error max files spw :
  (∀ f, f ∈ files → ∃ r, delta_key f = inr r) →
  ∃ spw', for_each (add_snapshot_file max) files spw = inr spw'.
Proof.
  revert spw. induction files as [|f0 r IH]; intros spw Hok; [by eexists|].
  cbn [for_each]. rewrite add_snapshot_file_delta_key.
  destruct (Hok f0 ltac:(left)) as [k ->]. simpl.
  assert (∀ f, f ∈ r → ∃ r', delta_key f = inr r') as Hr
    by (intros f ?; apply Hok; by right).
  destruct k as [[[w op] id]|]; [destruct (id <=? max)|]; simpl; by apply IH.
Qed.

Lemma dd_get_in {K V} `{EqDecision K} (dflt : V) (k : K) (d : list (K * V)) :
  dd_get dflt k d ≠ dflt → (k, dd_get dflt k d) ∈ d.
Proof.
  induction d as [|[k1 v1] r IH]; simpl; [done|].
  destruct (decide (k = k1)) as [->|]; [left|]. intros H. right. by apply IH.
Qed.

(** Every member of the listing is in the group of its worker and operator
    partition. *)
Lemma member_has_group files max spw w op id name :
  get_uncoordinated_snapshots_per_worker files max = inr spw →
  (id, name) ∈ members max w op files →
  ∃ snaps, (w, op, snaps) ∈ entries spw ∧ (id, name) ∈ snaps.
Proof.
  unfold get_uncoordinated_snapshots_per_worker.
  destruct (for_each _ files []) as [|spw0] eqn:E; simpl; [done|].
  intros [= <-] Hin.
  destruct (add_snapshot_files_spec _ _ _ _ E) as [Hs _].
  specialize (Hs w op). simpl in Hs. unfold snapshots_of in Hs.
  assert (dd_get [] op (dd_get [] w spw0) ≠ []) as Hne.
  { rewrite Hs. intros Hnil. rewrite Hnil in Hin. by apply elem_of_nil in Hin. }
  assert (dd_get [] w spw0 ≠ []) as Hw.
  { intros Hnil. by rewrite Hnil in Hne. }
  apply dd_get_in in Hw, Hne. rewrite Hs in Hne.
  exists (Py.sorted fst (members max w op files)).
  split; [|by apply elem_of_sorted].
  apply elem_of_entries.
  eexists. split.
  - unfold sort_snapshots. apply list_elem_of_fmap.
    exists (w, dd_get [] w spw0). split; [reflexivity|done].
  - simpl. apply list_elem_of_fmap.
    exists (op, members max w op files). split; [reflexivity|done].
Qed.

Lemma compact_loop_small (groups : list group) td b :
  (∀ g, g ∈ groups → ¬ big g) →
  for_each_M compact_group groups td b = (b, inr td).
Proof.
  induction groups as [|g r IH]; intros Hall; [done|].
  rewrite for_each_M_cons, compact_group_unfold.
  rewrite decide_False by (apply Hall; left).
  apply IH. intros g' ?. apply Hall. by right.
Qed.

Lemma filter_big_none (groups : list group) :
  (∀ g, g ∈ groups → ¬ big g) → filter big groups = [].
Proof.
  induction groups as [|g r IH]; intros Hall; [done|].
  rewrite filter_cons, decide_False by (apply Hall; left).
  apply IH. intros g' ?. apply Hall. by right.
Qed.

Lemma NoDup_length_le {A} (l k : list A) :
  NoDup l → (∀ x, x ∈ l → x ∈ k) → (length l ≤ length k)%nat.
Proof. intros Hnd Hsub. by apply submseteq_length, NoDup_submseteq. Qed.

Section second_run.
Context (max : Z) (b b1 : bucket) (spw : worker_partition_snapshots).
Context (Hrun : compact_uncoordinated_deltas (bin_files b "") max b
                = (b1, inr tt)).
Context (Hgroups : get_uncoordinated_snapshots_per_worker (bin_files b "") max
                   = inr spw).

(** An object that is listed after the run was listed before it and was not
    in a merged group, or is the id-0 path of a merged group. *)
Lemma listed_after_run name :
  name ∈ bin_files b1 "" →
  (∃ g, g ∈ entries spw ∧ big g ∧ name = base_path g)
  ∨ (name ∈ bin_files b "" ∧ name ∉ merged_names (entries spw)).
Proof.
  intros (Hsome & _ & Hbin)%elem_of_bin_files.
  destruct (compact_success _ _ _ _ Hrun) as (spw' & Eg' & Hgone & Hframe & _).
  rewrite Hgroups in Eg'. injection Eg' as <-.
  destruct (decide (name ∈ merged_names (entries spw))) as [Hin|Hnin].
  { rewrite (Hgone _ Hin) in Hsome. by destruct Hsome. }
  destruct (decide (name ∈ base_path <$> filter big (entries spw)))
    as [Hbase|Hnbase].
  - left. apply list_elem_of_fmap in Hbase as (g & -> & [Hb Hg]%list_elem_of_filter).
    by exists g.
  - right. split; [|done]. apply elem_of_bin_files.
    rewrite <- (Hframe name Hnin); [by rewrite startswith_nil|].
    intros g Hg Hb ->. apply Hnbase, list_elem_of_fmap. exists g.
    split; [done|]. by apply list_elem_of_filter.
Qed.

(** A member of a group of the second listing is the id-0 path of the same
    group, which the first run merged, or the delta of the same group, which
    the first run left alone. *)
Lemma member_after_run w op id name :
  (id, name) ∈ members max w op (bin_files b1 "") →
  ∃ g, g ∈ entries spw ∧ g.1 = (w, op)
       ∧ (big g ∧ name = base_path g ∨ ¬ big g ∧ name ∈ sources g).
Proof.
  intros (Hfile & Hkey & Hle)%elem_of_members.
  destruct (listed_after_run name Hfile)
    as [(g & Hg & Hb & ->)|[Hfile1 Hnin]].
  - exists g. split; [done|].
    rewrite (big_group_base_key _ _ _ Hgroups g Hg Hb) in Hkey.
    split; [|by left]. destruct g as [[??]?]. simpl in *. congruence.
  - assert ((id, name) ∈ members max w op (bin_files b "")) as Hm
      by by apply elem_of_members.
    destruct (member_has_group _ _ _ _ _ _ _ Hgroups Hm) as (snaps & Hg & Hin).
    exists (w, op, snaps). split; [done|]. split; [done|]. right.
    assert (name ∈ sources (w, op, snaps)) as Hsrc.
    { apply list_elem_of_fmap. by exists (id, name). }
    split; [|done]. intros Hb. apply Hnin, elem_of_merged_names.
    by exists (w, op, snaps).
Qed.

Lemma second_listing_groups :
  ∃ spw2,
    get_uncoordinated_snapshots_per_worker (bin_files b1 "") max = inr spw2
    ∧ ∀ g, g ∈ entries spw2 → (length g.2 ≤ 1)%nat.
Proof.
  assert (∃ spw0, for_each (add_snapshot_file max) (bin_files b1 "") []
                  = inr spw0) as [spw0 E0].
  { apply add_files_no_error. intros f Hf.
    destruct (listed_after_run f Hf) as [(g & Hg & Hb & ->)|[Hf1 _]].
    - rewrite (big_group_base_key _ _ _ Hgroups g Hg Hb). by eexists.
    - revert Hgroups. unfold get_uncoordinated_snapshots_per_worker.
      destruct (for_each _ (bin_files b "") []) as [|s] eqn:E; simpl; [done|].
      intros _. by eapply add_files_keys_ok. }
  exists (sort_snapshots spw0).
  assert (get_uncoordinated_snapshots_per_worker (bin_files b1 "") max
          = inr (sort_snapshots spw0)) as Eg2.
  { unfold get_uncoordinated_snapshots_per_worker. by rewrite E0. }
  split; [done|]. intros [[w op] snaps2] Hg2. simpl.
  rewrite (groups_entry _ _ _ _ _ _ Eg2 Hg2), sorted_length.
  set (m2 := members max w op (bin_files b1 "")).
  rewrite <- (length_fmap snd m2).
  assert (NoDup m2.*2) as Hnd.
  { eapply sublist_NoDup; [apply bin_files_NoDup|apply members_names_sublist]. }
  destruct m2 as [|[id0 n0] rest] eqn:Em2; [simpl; lia|].
  destruct (member_after_run w op id0 n0) as (g & Hg & Hkey & Hcase).
  { fold m2. rewrite Em2. left. }
  assert (∀ n, n ∈ ((id0, n0) :: rest).*2 →
               big g ∧ n = base_path g ∨ ¬ big g ∧ n ∈ sources g) as Hall.
  { intros n ([id n'] & -> & Hin)%list_elem_of_fmap.
    destruct (member_after_run w op id n') as (g' & Hg' & Hkey' & Hcase').
    { fold m2. by rewrite Em2. }
    assert (g' = g) as ->; [|done].
    apply (group_eq _ _ _ Hgroups); [done..|congruence]. }
  destruct (decide (big g)) as [Hb|Hsmall].
  - apply (NoDup_length_le _ [base_path g] Hnd).
    intros n Hn. destruct (Hall n Hn) as [[_ ->]|[? _]]; [left|done].
  - etrans; [apply (NoDup_length_le _ (sources g) Hnd)|].
    + intros n Hn. by destruct (Hall n Hn) as [[? _]|[_ ?]].
    + unfold sources. rewrite length_fmap. unfold big in Hsmall. lia.
Qed.
End second_run.

(** C6. When a run of the compaction job has completed, a second run with
    the same bound on the bucket it left behind finds at most one delta in
    every group, merges nothing, marks nothing for deletion, raises nothing
    and leaves the bucket as it is. *)
Theorem compaction_is_idempotent (max : Z) (b b1 : bucket)
    (Hrun : start_uncoordinated_snapshot_compaction max b = (b1, inr tt)) :
  start_uncoordinated_snapshot_compaction max b1 = (b1, inr tt)
  ∧ ∃ spw2,
      get_uncoordinated_snapshots_per_worker (bin_files b1 "") max = inr spw2
      ∧ (∀ g, g ∈ entries spw2 → (length g.2 ≤ 1)%nat)
      ∧ merged_names (entries spw2) = []
      ∧ for_each_M compact_group (entries spw2) [] b1 = (b1, inr []).
Proof.
  change (compact_uncoordinated_deltas (bin_files b "") max b = (b1, inr tt))
    in Hrun.
  destruct (compact_success _ _ _ _ Hrun) as (spw & Hgroups & _).
  destruct (second_listing_groups max b b1 spw Hrun Hgroups)
    as (spw2 & Eg2 & Hsmall).
  assert (∀ g, g ∈ entries spw2 → ¬ big g) as Hnot
    by (intros g Hg Hb; specialize (Hsmall g Hg); unfold big in Hb; lia).
  assert (for_each_M compact_group (entries spw2) [] b1 = (b1, inr []))
    as Hloop by by apply compact_loop_small.
  split.
  - change (compact_uncoordinated_deltas (bin_files b1 "") max b1
            = (b1, inr tt)).
    by rewrite compact_unfold, Eg2, Hloop.
  - exists spw2. split; [done|]. split; [done|]. split; [|done].
    unfold merged_names.
    by rewrite filter_big_none.
Qed.

(** C6 on the scenario: a second run after compacting deltas 1 and 2. *)
Lemma compaction_is_idempotent_witness :
  let b1 := (start_uncoordinated_snapshot_compaction 2 later_orders_bucket).1 in
  start_uncoordinated_snapshot_compaction 2 b1 = (b1, inr tt)
  ∧ ∃ spw2,
      get_uncoordinated_snapshots_per_worker (bin_files b1 "") 2 = inr spw2
      ∧ (∀ g, g ∈ entries spw2 → (length g.2 ≤ 1)%nat)
      ∧ merged_names (entries spw2) = []
      ∧ for_each_M compact_group (entries spw2) [] b1 = (b1, inr []).
Proof.
  apply (compaction_is_idempotent 2 later_orders_bucket).
  vm_compute. reflexivity.
Defined.

(** ** Object names that do not parse *)

Lemma int_error s e : Py.int s = inl e → e = Py.ValueError.
Proof.
  unfold Py.int.
  destruct (Py.rstrip (Py.lstrip s)) as [|c r]; [by intros [= <-]|].
  destruct (if Ascii.eqb c "-" then _ else _); [done|by intros [= <-]].
Qed.

Lemma delta_key_raises f :
  Py.startswith f "uncoordinated/" = true →
  (5 ≤ length (Py.split "/" f))%nat → non_integer_field f →
  delta_key f = inl Py.ValueError.
Proof.
  intros Hp Hlen Hbad. unfold delta_key. rewrite Hp. cbn [negb].
  destruct (Nat.ltb_spec (length (Py.split "/" f)) 5) as [|_]; [lia|].
  unfold non_integer_field in Hbad. cbn zeta in Hbad.
  destruct (Py.int (nth 1 _ _)) as [e1|w] eqn:E1; simpl.
  { by rewrite (int_error _ _ E1). }
  destruct (Py.int (nth 3 _ _)) as [e3|p] eqn:E3; simpl.
  { by rewrite (int_error _ _ E3). }
  destruct (Py.int (Py.first _)) as [e4|i] eqn:E4; simpl.
  { by rewrite (int_error _ _ E4). }
  by destruct Hbad as [?|[?|?]].
Qed.

Lemma delta_key_skips f :
  Py.startswith f "uncoordinated/" = false
  ∨ (length (Py.split "/" f) < 5)%nat →
  delta_key f = inr None.
Proof.
  intros Hskip. unfold delta_key.
  destruct (Py.startswith f "uncoordinated/"); [|done]. cbn [negb].
  destruct Hskip as [?|Hlen]; [done|].
  by destruct (Nat.ltb_spec (length (Py.split "/" f)) 5) as [_|?]; [|lia].
Qed.

Lemma add_files_error max files spw f e :
  f ∈ files → delta_key f = inl e →
  for_each (add_snapshot_file max) files spw = inl Py.ValueError.
Proof.
  intros Hf Hkey. revert spw.
  induction files as [|f0 r IH]; intros spw; [by apply elem_of_nil in Hf|].
  cbn [for_each]. rewrite add_snapshot_file_delta_key.
  destruct (delta_key f0) as [e0|k] eqn:E0; simpl.
  { by rewrite (delta_key_error _ _ E0). }
  apply elem_of_cons in Hf as [->|Hf]; [congruence|].
  destruct k as [[[w op] id]|]; [destruct (id <=? max)|]; simpl; by apply IH.
Qed.

Lemma merge_order_error files f e :
  f ∈ files → file_snapshot_id f = inl e →
  merge_order files = inl Py.ValueError.
Proof.
  intros Hf Hid. unfold merge_order.
  assert (comprehension (λ f, sn_id ← file_snapshot_id f; inr (sn_id, f)) files
          = inl Py.ValueError) as ->; [|done].
  induction files as [|f0 r IH]; [by apply elem_of_nil in Hf|].
  cbn [comprehension].
  destruct (file_snapshot_id f0) as [e0|id0] eqn:E0; simpl.
  { by rewrite (int_error _ _ E0). }
  apply elem_of_cons in Hf as [->|Hf]; [congruence|].
  by rewrite (IH Hf).
Qed.

Lemma recover_loop_error b worker target ops op data :
  op ∈ ops →
  (∀ data', ∃ e, recover_partition b worker target data' op = inl e) →
  ∃ e, for_each (recover_partition b worker target) ops data = inl e.
Proof.
  intros Hop Hfail. revert data.
  induction ops as [|op0 r IH]; intros data; [by apply elem_of_nil in Hop|].
  cbn [for_each].
  destruct (recover_partition b worker target data op0) as [e0|d1] eqn:E0;
    simpl; [by eauto|].
  apply elem_of_cons in Hop as [->|Hop]; [|by apply IH].
  destruct (Hfail data) as [e He]. congruence.
Qed.

(** C7, counterexample. The name [uncoordinated/3/orders/0/latest.bin] has
    five segments and no integer snapshot id. It is listed by the compactor
    and by recovery of [("orders", 0)]; both raise ValueError. *)
Lemma malformed_key_raises :
  "uncoordinated/3/orders/0/latest.bin" ∈ bin_files malformed_bucket ""
  ∧ file_snapshot_id "uncoordinated/3/orders/0/latest.bin" = inl Py.ValueError
  ∧ start_uncoordinated_snapshot_compaction 2 malformed_bucket
    = (malformed_bucket, inl Py.ValueError)
  ∧ (retrieve_snapshot (init 3 1) malformed_bucket 2 [("orders", 0)]).2
    = inl Py.ValueError
  ∧ ¬ malformed_key_skipped_as_specified 2 malformed_bucket (init 3 1) 2
        [("orders", 0)].
Proof.
  split; [|split; [|split; [|split]]].
  - vm_compute. right. right. right. left.
  - vm_compute. reflexivity.
  - vm_compute. reflexivity.
  - vm_compute. reflexivity.
  - intros [[b' Hrun] _]. vm_compute in Hrun. discriminate Hrun.
Qed.

(** C7, amended. A listed name outside the [uncoordinated/] namespace or
    with fewer than five segments is skipped by the compactor: adding it
    changes no group and raises nothing, and no compaction group contains it.
    A listed name that passes these two guards and has a non-integer worker
    id, partition or snapshot id makes the compactor raise ValueError with
    the bucket untouched. A name listed by recovery, under the prefix of an
    owned operator partition or of the sequencer, whose last segment does not
    start with an integer makes [retrieve_snapshot] raise. *)
Theorem malformed_keys_skipped_or_raise
    (files : list string) (max : Z) (b : bucket)
    (self : UncoordinatedSnapshotsMinio) (target : Z)
    (registered_operators : list OperatorPartition) :
  (∀ f spw,
     Py.startswith f "uncoordinated/" = false
     ∨ (length (Py.split "/" f) < 5)%nat →
     add_snapshot_file max spw f = inr spw)
  ∧ (∀ f spw g,
       Py.startswith f "uncoordinated/" = false
       ∨ (length (Py.split "/" f) < 5)%nat →
       get_uncoordinated_snapshots_per_worker files max = inr spw →
       g ∈ entries spw → f ∉ sources g)
  ∧ (∀ f,
       f ∈ files → Py.startswith f "uncoordinated/" = true →
       (5 ≤ length (Py.split "/" f))%nat → non_integer_field f →
       compact_uncoordinated_deltas files max b = (b, inl Py.ValueError))
  ∧ (∀ f,
       target ≠ -1 →
       (∃ op, op ∈ registered_operators
              ∧ f ∈ bin_files b (partition_prefix (worker_id self) op))
       ∨ f ∈ bin_files b (sequencer_prefix (worker_id self)) →
       file_snapshot_id f = inl Py.ValueError →
       ∃ e, (retrieve_snapshot self b target registered_operators).2 = inl e).
Proof.
  split; [|split; [|split]].
  - intros f spw Hskip. rewrite add_snapshot_file_delta_key.
    by rewrite (delta_key_skips _ Hskip).
  - intros f spw g Hskip Hgroups Hg Hsrc.
    destruct (group_source _ _ _ Hgroups g f Hg Hsrc) as (id & _ & _ & Hkey & _).
    by rewrite (delta_key_skips _ Hskip) in Hkey.
  - intros f Hf Hp Hlen Hbad. rewrite compact_unfold.
    unfold get_uncoordinated_snapshots_per_worker.
    by rewrite (add_files_error max files [] f Py.ValueError Hf
                  (delta_key_raises f Hp Hlen Hbad)).
  - intros f Hne Hlisted Hid. unfold retrieve_snapshot.
    destruct (Z.eqb_spec target (-1)) as [?|_]; [done|]. simpl.
    destruct Hlisted as [(op & Hop & Hf)|Hf].
    + destruct (recover_loop_error b (worker_id self) target
                  registered_operators op ∅ Hop) as [e ->]; [|by eauto].
      intros data'. exists Py.ValueError.
      rewrite recover_partition_unfold.
      by rewrite (merge_order_error _ f Py.ValueError Hf Hid).
    + destruct (for_each _ registered_operators ∅) as [e|data]; simpl;
        [by eauto|].
      unfold recover_sequencer. fold (sequencer_prefix (worker_id self)).
      rewrite (merge_order_error _ f Py.ValueError Hf Hid). simpl. by eauto.
Qed.

(** C7, amended, on a sequencer path (skipped) and on the name ending in
    [latest.bin] (both components raise). *)
Lemma malformed_keys_skipped_or_raise_witness :
  add_snapshot_file 2 [] (get_sequencer_path 3 0) = inr []
  ∧ compact_uncoordinated_deltas (bin_files malformed_bucket "") 2
      malformed_bucket = (malformed_bucket, inl Py.ValueError)
  ∧ ∃ e, (retrieve_snapshot (init 3 1) malformed_bucket 2 [("orders", 0)]).2
         = inl e.
Proof.
  destruct (malformed_keys_skipped_or_raise
              (bin_files malformed_bucket "") 2 malformed_bucket
              (init 3 1) 2 [("orders", 0)]) as (Hskip & _ & Hcompact & Hrecover).
  split; [|split].
  - apply Hskip. right. vm_compute. lia.
  - apply (Hcompact "uncoordinated/3/orders/0/latest.bin").
    + vm_compute. right. right. right. left.
    + vm_compute. reflexivity.
    + vm_compute. lia.
    + right. right. vm_compute. reflexivity.
  - apply (Hrecover "uncoordinated/3/orders/0/latest.bin").
    + lia.
    + left. exists ("orders", 0). split; [left|].
      vm_compute. right. right. right. left.
    + vm_compute. reflexivity.
Defined.

(** ** Recovery and the deltas above the target *)

(** *** The listing order *)

Lemma string_compare_trans a b c :
  String.compare a b ≠ Gt → String.compare b c ≠ Gt → String.compare a c ≠ Gt.
Proof.
  revert b c. induction a as [|x a IH]; intros [|y b] [|z c]; simpl; try done.
  unfold Ascii.compare.
  destruct (N.compare_spec (N_of_ascii x) (N_of_ascii y)) as [Exy|Hxy|Hxy];
    [|destruct (N.compare_spec (N_of_ascii y) (N_of_ascii z)) as [Eyz|Hyz|Hyz]|done].
  - rewrite Exy. destruct (N_of_ascii y ?= N_of_ascii z)%N; [apply IH|done..].
  - rewrite <- Eyz. apply N.compare_lt_iff in Hxy. by rewrite Hxy.
  - assert (N_of_ascii x < N_of_ascii z)%N as Hxz by lia.
    apply N.compare_lt_iff in Hxz. by rewrite Hxz.
  - done.
Qed.

#[global] Instance string_le_trans : Transitive string_le.
Proof.
  intros a b c. unfold string_le, String.leb.
  pose proof (string_compare_trans a b c) as H.
  destruct (String.compare a b), (String.compare b c), (String.compare a c);
    try done; intros _ _; by exfalso; apply H.
Qed.

#[global] Instance string_le_antisym : AntiSymm (=) string_le.
Proof. intros a b. apply String.leb_antisym. Qed.

Lemma list_objects_sorted b prefix :
  StronglySorted string_le (Minio.list_objects b prefix).
Proof.
  unfold Minio.list_objects. apply filter_StronglySorted.
  apply StronglySorted_merge_sort; apply _.
Qed.

(** Two buckets that hold the same names satisfying [P] list the same names
    satisfying [P], in the same order. *)
Lemma bin_files_agree (P : string → Prop) `{!∀ n, Decision (P n)}
    (b b2 : bucket) prefix :
  (∀ name, P name → b !! name = b2 !! name) →
  filter P (bin_files b prefix) = filter P (bin_files b2 prefix).
Proof.
  intros Hag. apply (StronglySorted_unique string_le).
  - unfold bin_files. do 2 apply filter_StronglySorted. apply list_objects_sorted.
  - unfold bin_files. do 2 apply filter_StronglySorted. apply list_objects_sorted.
  - apply NoDup_Permutation; [apply NoDup_filter, bin_files_NoDup..|].
    intros name. rewrite !list_elem_of_filter, !elem_of_bin_files.
    split; intros [HP Hrest]; (split; [done|]);
      [rewrite <- (Hag name HP)|rewrite (Hag name HP)]; done.
Qed.

(** *** Dropping the skipped items changes nothing *)

Lemma comprehension_filter {A B} (f : A → Py.exn + B)
    (P : A → Prop) (Q : B → Prop)
    `{!∀ x, Decision (P x), !∀ y, Decision (Q y)} l :
  (∀ x y, f x = inr y → (Q y ↔ P x)) →
  (∀ x, ¬ P x → ∃ y, f x = inr y) →
  comprehension f (filter P l) = (ys ← comprehension f l; inr (filter Q ys)).
Proof.
  intros HQ Hdrop. induction l as [|x r IH]; [done|].
  rewrite filter_cons. cbn [comprehension].
  destruct (decide (P x)) as [HP|HnP].
  - cbn [comprehension]. destruct (f x) as [e|y] eqn:Ex; simpl; [done|].
    rewrite IH. destruct (comprehension f r) as [e|ys]; simpl; [done|].
    rewrite filter_cons, decide_True; [done|]. by apply (HQ x).
  - destruct (Hdrop x HnP) as [y Ey]. rewrite Ey. simpl.
    rewrite IH. destruct (comprehension f r) as [e|ys]; simpl; [done|].
    rewrite filter_cons, decide_False; [done|]. by rewrite (HQ x y Ey).
Qed.

Lemma merge_order_filter target files :
  merge_order (filter (λ name, ¬ exceeds target name) files)
  = (order ← merge_order files;
     inr (filter (λ item, ¬ exceeds target item.2) order)).
Proof.
  unfold merge_order.
  rewrite (comprehension_filter _ (λ name, ¬ exceeds target name)
             (λ item : Z * string, ¬ exceeds target item.2)).
  - destruct (comprehension _ files) as [e|items]; simpl; [done|].
    by rewrite sorted_filter.
  - intros name [id n]. destruct (file_snapshot_id name); simpl; [done|].
    by intros [= <- <-].
  - intros name Hex%dec_stable. unfold exceeds in Hex.
    destruct (file_snapshot_id name); [done|]. by eexists.
Qed.

Lemma merge_order_exceeds target files order item :
  merge_order files = inr order → item ∈ order →
  exceeds target item.2 ↔ target < item.1.
Proof.
  intros Ho Hin. destruct item as [id name].
  apply (merge_order_elem _ _ _ _ Ho) in Hin as [_ Hid].
  unfold exceeds. simpl. by rewrite Hid.
Qed.

Section skip.
Context {A : Type} (body : A → Z * string → Py.exn + A) (target : Z).
Context (Hskip : ∀ a item, target < item.1 → body a item = inr a).

Lemma for_each_drop_skipped order a :
  (∀ item, item ∈ order → exceeds target item.2 ↔ target < item.1) →
  for_each body (filter (λ item, ¬ exceeds target item.2) order) a
  = for_each body order a.
Proof.
  revert a. induction order as [|item r IH]; intros a Hex; [done|].
  assert (∀ i, i ∈ r → exceeds target i.2 ↔ target < i.1) as Hr
    by (intros i ?; apply Hex; by right).
  rewrite filter_cons. cbn [for_each].
  destruct (decide (¬ exceeds target item.2)) as [_|Hn].
  - cbn [for_each]. destruct (body a item); simpl; [done|by apply IH].
  - apply dec_stable in Hn. rewrite Hskip by (by apply Hex; [left|]).
    simpl. by apply IH.
Qed.
End skip.

Lemma merge_delta_skip b target op data item :
  target < item.1 → merge_delta b target op data item = inr data.
Proof.
  destruct item as [id name]. simpl. intros H%Z.ltb_lt.
  unfold merge_delta. by rewrite H.
Qed.

Lemma take_record_skip b target acc item :
  target < item.1 → take_record b target acc item = inr acc.
Proof.
  destruct item as [id name]. simpl. intros H%Z.ltb_lt.
  unfold take_record. by rewrite H.
Qed.

Lemma merge_loop_agree b b2 target op order data :
  (∀ item, item ∈ order → b !! item.2 = b2 !! item.2) →
  for_each (merge_delta b target op) order data
  = for_each (merge_delta b2 target op) order data.
Proof.
  revert data. induction order as [|[id name] r IH]; intros data Hag; [done|].
  cbn [for_each]. pose proof (Hag (id, name) ltac:(left)) as Hn. simpl in Hn.
  assert (merge_delta b target op data (id, name)
          = merge_delta b2 target op data (id, name)) as ->.
  { unfold merge_delta, Minio.get_object. by rewrite Hn. }
  destruct (merge_delta b2 target op data (id, name)); simpl; [done|].
  apply IH. intros item ?. apply Hag. by right.
Qed.

Lemma take_record_agree b b2 target order acc :
  (∀ item, item ∈ order → b !! item.2 = b2 !! item.2) →
  for_each (take_record b target) order acc
  = for_each (take_record b2 target) order acc.
Proof.
  revert acc. induction order as [|[id name] r IH]; intros acc Hag; [done|].
  cbn [for_each]. pose proof (Hag (id, name) ltac:(left)) as Hn. simpl in Hn.
  assert (take_record b target acc (id, name)
          = take_record b2 target acc (id, name)) as ->.
  { unfold take_record, Minio.get_object. by rewrite Hn. }
  destruct (take_record b2 target acc (id, name)); simpl; [done|].
  apply IH. intros item ?. apply Hag. by right.
Qed.

(** *** Recovery reads only the deltas up to the target *)

Lemma recover_partition_normal b worker target data op :
  recover_partition b worker target data op
  = (order ← merge_order (filter (λ name, ¬ exceeds target name)
                            (bin_files b (partition_prefix worker op)));
     for_each (merge_delta b target op) order data).
Proof.
  rewrite recover_partition_unfold, merge_order_filter.
  destruct (merge_order _) as [e|order] eqn:Ho; simpl; [done|].
  symmetry. apply for_each_drop_skipped.
  - intros. by apply merge_delta_skip.
  - intros item.
    by apply merge_order_exceeds
      with (files := bin_files b (partition_prefix worker op)).
Qed.

Lemma recover_sequencer_normal b worker target :
  recover_sequencer b worker target
  = (order ← merge_order (filter (λ name, ¬ exceeds target name)
                            (bin_files b (sequencer_prefix worker)));
     for_each (take_record b target) order (∅, ∅, 0, 0)).
Proof.
  unfold recover_sequencer. fold (sequencer_prefix worker).
  rewrite merge_order_filter.
  destruct (merge_order _) as [e|order] eqn:Ho; simpl; [done|].
  symmetry. apply for_each_drop_skipped.
  - intros. by apply take_record_skip.
  - intros item.
    by apply merge_order_exceeds
      with (files := bin_files b (sequencer_prefix worker)).
Qed.

Section agree.
Context (b b2 : bucket) (target : Z).
Context (Hsame : ∀ name, ¬ exceeds target name → b !! name = b2 !! name).

Lemma kept_order_agree files order item :
  merge_order (filter (λ name, ¬ exceeds target name) files) = inr order →
  item ∈ order → b !! item.2 = b2 !! item.2.
Proof.
  intros Ho Hin. destruct item as [id name].
  apply (merge_order_elem _ _ _ _ Ho) in Hin as [Hin _].
  apply list_elem_of_filter in Hin as [Hkeep _]. by apply Hsame.
Qed.

Lemma recover_partition_agree worker data op :
  recover_partition b worker target data op
  = recover_partition b2 worker target data op.
Proof.
  rewrite !recover_partition_normal.
  rewrite (bin_files_agree _ b b2 _ Hsame).
  destruct (merge_order _) as [e|order] eqn:Ho; simpl; [done|].
  apply merge_loop_agree. intros item. by eapply kept_order_agree.
Qed.

Lemma recover_sequencer_agree worker :
  recover_sequencer b worker target = recover_sequencer b2 worker target.
Proof.
  rewrite !recover_sequencer_normal.
  rewrite (bin_files_agree _ b b2 _ Hsame).
  destruct (merge_order _) as [e|order] eqn:Ho; simpl; [done|].
  apply take_record_agree. intros item. by eapply kept_order_agree.
Qed.

Lemma retrieve_snapshot_agree self registered_operators :
  retrieve_snapshot self b target registered_operators
  = retrieve_snapshot self b2 target registered_operators.
Proof.
  unfold retrieve_snapshot. destruct (target =? -1); [done|]. f_equal.
  assert (∀ data,
            for_each (recover_partition b (worker_id self) target)
                     registered_operators data
            = for_each (recover_partition b2 (worker_id self) target)
                       registered_operators data) as Hstate.
  { induction registered_operators as [|op r IH]; intros data; [done|].
    cbn [for_each]. rewrite recover_partition_agree.
    destruct (recover_partition b2 _ _ _ _); simpl; [done|]. apply IH. }
  simpl. by rewrite Hstate, recover_sequencer_agree.
Qed.
End agree.

Lemma lookup_drop_later target b name :
  ¬ exceeds target name → drop_later target b !! name = b !! name.
Proof.
  intros Hkeep. unfold drop_later. destruct (b !! name) as [v|] eqn:Hb.
  - by apply map_lookup_filter_Some_2.
  - apply map_lookup_filter_None_2. by left.
Qed.

(** C5. What [retrieve_snapshot] returns or raises, state and sequencer
    metadata alike, depends on the bucket only through the objects whose name
    does not parse to a snapshot id above the target: two buckets that agree
    on those objects give the same outcome, however they differ in deltas
    with larger ids; in particular the outcome is the one for the bucket
    without any delta above the target. *)
Theorem recovery_ignores_later_deltas
    (self : UncoordinatedSnapshotsMinio) (b b2 : bucket) (target : Z)
    (registered_operators : list OperatorPartition)
    (Hsame : ∀ name, ¬ exceeds target name → b !! name = b2 !! name) :
  retrieve_snapshot self b target registered_operators
  = retrieve_snapshot self b2 target registered_operators
  ∧ retrieve_snapshot self b target registered_operators
    = retrieve_snapshot self (drop_later target b) target registered_operators.
Proof.
  split; [by apply retrieve_snapshot_agree|].
  apply retrieve_snapshot_agree. intros name Hkeep.
  symmetry. by apply lookup_drop_later.
Qed.

(** C5 on the scenario at target 0: the deltas 1 and 2 and the sequencer
    record 1 play no part. *)
Lemma recovery_ignores_later_deltas_witness :
  retrieve_snapshot (init 3 1) orders_bucket 0 [("orders", 0)]
  = retrieve_snapshot (init 3 1) early_orders_bucket 0 [("orders", 0)]
  ∧ retrieve_snapshot (init 3 1) orders_bucket 0 [("orders", 0)]
    = retrieve_snapshot (init 3 1) (drop_later 0 orders_bucket) 0
        [("orders", 0)].
Proof.
  apply (recovery_ignores_later_deltas (init 3 1) orders_bucket
           early_orders_bucket 0 [("orders", 0)]).
  intros name Hkeep. unfold early_orders_bucket.
  destruct (decide (name = get_snapshot_path 3 "orders" 0 1)) as [->|H1].
  { exfalso. apply Hkeep. vm_compute. reflexivity. }
  destruct (decide (name = get_snapshot_path 3 "orders" 0 2)) as [->|H2].
  { exfalso. apply Hkeep. vm_compute. reflexivity. }
  destruct (decide (name = get_sequencer_path 3 1)) as [->|H3].
  { exfalso. apply Hkeep. vm_compute. reflexivity. }
  by rewrite !lookup_delete_ne.
Defined.

Example recover_orders_at_0 :
  (retrieve_snapshot (init 3 1) orders_bucket 0 [("orders", 0)]).2
  = inr (<[("orders", 0) := PDict (<["a" := 1]> (<["b" := 2]> ∅))]> ∅,
         Some (<[("p", 0) := 10]> ∅), Some ∅, 1, 7).
Proof. vm_compute. reflexivity. Qed.

(** ** The merge rule, and where recovery follows it *)

(** Last write wins: a key of the merge has the value of the last delta that
    contains it, and a key of no delta is not in the merge. *)
Lemma foldl_dict_update_lookup (deltas : list KVPairs) (d0 : KVPairs) k :
  foldl dict_update d0 deltas !! k
  = match last (omap (λ d : KVPairs, d !! k) deltas) with
    | Some v => Some v
    | None => d0 !! k
    end.
Proof.
  revert d0. induction deltas as [|d r IH]; intros d0; [done|].
  cbn [foldl]. rewrite IH. unfold dict_update.
  change (omap (λ d : KVPairs, d !! k) (d :: r))
    with (match d !! k with
          | Some v => v :: omap (λ d : KVPairs, d !! k) r
          | None => omap (λ d : KVPairs, d !! k) r
          end).
  destruct (d !! k) as [v|] eqn:Ed.
  - rewrite last_cons. destruct (last (omap _ r)); [done|].
    by apply lookup_union_Some_l.
  - destruct (last (omap _ r)); [done|]. by rewrite lookup_union_r.
Qed.

Lemma last_write_wins_lookup (deltas : list KVPairs) k :
  last_write_wins deltas !! k = last (omap (λ d : KVPairs, d !! k) deltas).
Proof.
  unfold last_write_wins. rewrite foldl_dict_update_lookup.
  by destruct (last _).
Qed.

Lemma merge_delta_load b target op data id name pd :
  id ≤ target → b !! name = Some pd →
  merge_delta b target op data (id, name)
  = match data !! op with
    | Some cur =>
        if truthy pd then
          cur' ← payload_update cur pd; inr (<[op := cur']> data)
        else inr (<[op := pd]> data)
    | None => inr (<[op := pd]> data)
    end.
Proof.
  intros Hle Hb. unfold merge_delta, Minio.get_object.
  destruct (Z.ltb_spec target id) as [?|_]; [lia|]. by rewrite Hb.
Qed.

(** The loop of lines 150-160 once the partition has a state: as long as
    every qualifying delta is a non-empty dict, it is the merge rule. *)
Lemma merge_loop_nonempty b target op order data acc deltas :
  data !! op = Some (PDict acc) →
  Forall2 (λ item delta, b !! item.2 = Some (PDict delta) ∧ delta ≠ ∅)
          (qualifying target order) deltas →
  for_each (merge_delta b target op) order data
  = inr (<[op := PDict (foldl dict_update acc deltas)]> data).
Proof.
  revert data acc deltas.
  induction order as [|[id name] r IH]; intros data acc deltas Hop HF.
  - apply Forall2_nil_inv_l in HF as ->. simpl. by rewrite insert_id.
  - unfold qualifying in HF. rewrite filter_cons in HF. simpl in HF.
    cbn [for_each].
    destruct (Z.lt_ge_cases target id) as [Hlt|Hle].
    + rewrite decide_False in HF by lia.
      rewrite merge_delta_skip by done. simpl. by apply IH.
    + rewrite decide_True in HF by lia.
      apply Forall2_cons_inv_l in HF as (d & ds & [Hb Hne] & HF & ->).
      simpl in Hb. rewrite (merge_delta_load _ _ _ _ _ _ _ Hle Hb), Hop. simpl.
      rewrite bool_decide_eq_true_2 by done. simpl.
      rewrite (IH _ (dict_update acc d) ds); [|by rewrite lookup_insert_eq|done].
      by rewrite insert_insert_eq.
Qed.

(** The same loop from the start, for a partition that has qualifying
    deltas, all of them non-empty dicts. *)
Lemma recovery_merges_nonempty_deltas b target op order data deltas :
  data !! op = None → deltas ≠ [] →
  Forall2 (λ item delta, b !! item.2 = Some (PDict delta) ∧ delta ≠ ∅)
          (qualifying target order) deltas →
  for_each (merge_delta b target op) order data
  = inr (<[op := PDict (last_write_wins deltas)]> data).
Proof.
  revert data deltas.
  induction order as [|[id name] r IH]; intros data deltas Hop Hne HF.
  - by apply Forall2_nil_inv_l in HF.
  - unfold qualifying in HF. rewrite filter_cons in HF. simpl in HF.
    cbn [for_each].
    destruct (Z.lt_ge_cases target id) as [Hlt|Hle].
    + rewrite decide_False in HF by lia.
      rewrite merge_delta_skip by done. simpl. by apply IH.
    + rewrite decide_True in HF by lia.
      apply Forall2_cons_inv_l in HF as (d & ds & [Hb Hd] & HF & ->).
      simpl in Hb. rewrite (merge_delta_load _ _ _ _ _ _ _ Hle Hb), Hop. simpl.
      rewrite (merge_loop_nonempty _ _ _ _ _ d ds);
        [|by rewrite lookup_insert_eq|done].
      rewrite insert_insert_eq. unfold last_write_wins. cbn [foldl].
      assert (dict_update ∅ d = d) as ->; [|done].
      unfold dict_update. apply (right_id_L ∅ (∪)).
Qed.

(** * Further properties of the two modules *)

(** ** Paths and the two parsers *)

Lemma append_assoc (a b c : string) : (a +:+ b) +:+ c = a +:+ (b +:+ c).
Proof.
  induction a as [|x a IH]; [done|].
  change (String x ((a +:+ b) +:+ c) = String x (a +:+ (b +:+ c))).
  by rewrite IH.
Qed.

Lemma startswith_inv s p : Py.startswith s p = true → ∃ r, s = p +:+ r.
Proof.
  unfold Py.startswith. revert s. induction p as [|c p IH]; intros s.
  - intros _. by exists s.
  - destruct s as [|c' s]; simpl; [done|].
    destruct (ascii_dec c c') as [<-|]; [|done].
    intros [r ->]%IH. by exists r.
Qed.

(** The last segment of a name is the last segment of what follows a
    separator. *)
Lemma split_app_last sep a b :
  ∃ h t, Py.split sep (a +:+ String sep b) = h :: t ∧ t ≠ []
         ∧ List.last t "" = Py.last (Py.split sep b).
Proof.
  induction a as [|c r IH].
  - change ("" +:+ String sep b) with (String sep b). simpl.
    rewrite Ascii.eqb_refl. destruct (split_cons sep b) as (h & t & Hb).
    exists "", (Py.split sep b). rewrite Hb. by repeat split.
  - change (String c r +:+ String sep b) with (String c (r +:+ String sep b)).
    destruct IH as (h & t & Hs & Ht & Hl). simpl. rewrite Hs.
    destruct (Ascii.eqb c sep).
    + exists "", (h :: t). split; [done|]. split; [done|].
      rewrite <- Hl. by destruct t.
    + by exists (String c h), t.
Qed.

Lemma last_split_app sep a b :
  Py.last (Py.split sep (a +:+ String sep b)) = Py.last (Py.split sep b).
Proof.
  destruct (split_app_last sep a b) as (h & t & -> & Ht & <-).
  unfold Py.last. by destruct t.
Qed.

Lemma dot_not_in_str z : contains "." (Py.str z) = false.
Proof. by apply str_no_char. Qed.

Lemma file_stem_id id : Py.int (Py.first (Py.split "." (Py.str id +:+ ".bin"))) = inr id.
Proof.
  change (Py.str id +:+ ".bin") with (Py.str id +:+ String "." "bin").
  rewrite split_app by apply dot_not_in_str. simpl. apply int_str.
Qed.

Lemma file_snapshot_id_snapshot_path w op p id :
  file_snapshot_id (get_snapshot_path w op p id) = inr id.
Proof.
  unfold file_snapshot_id, get_snapshot_path.
  change ("uncoordinated/" +:+ ?x) with ("uncoordinated" +:+ String "/" x).
  rewrite last_split_app.
  change (Py.str w +:+ "/" +:+ ?x) with (Py.str w +:+ String "/" x).
  rewrite last_split_app.
  change (op +:+ "/" +:+ ?x) with (op +:+ String "/" x).
  rewrite last_split_app.
  change (Py.str p +:+ "/" +:+ ?x) with (Py.str p +:+ String "/" x).
  rewrite last_split_app.
  rewrite (split_without "/")
    by (by rewrite contains_app, slash_not_in_str).
  apply file_stem_id.
Qed.

Lemma file_snapshot_id_sequencer_path w id :
  file_snapshot_id (get_sequencer_path w id) = inr id.
Proof.
  unfold file_snapshot_id. rewrite split_sequencer_path. apply file_stem_id.
Qed.

(** X1. Both kinds of path read back, through the parser of recovery, as the
    snapshot id they were made from, for every worker id, operator name,
    partition and snapshot id; a path made for an id above a target is one
    that recovery at that target skips. *)
Theorem paths_read_back_by_recovery (w p id : Z) (op : string) :
  file_snapshot_id (get_snapshot_path w op p id) = inr id
  ∧ file_snapshot_id (get_sequencer_path w id) = inr id
  ∧ ∀ target,
      (exceeds target (get_snapshot_path w op p id) ↔ target < id)
      ∧ (exceeds target (get_sequencer_path w id) ↔ target < id).
Proof.
  split; [apply file_snapshot_id_snapshot_path|].
  split; [apply file_snapshot_id_sequencer_path|].
  intros target. unfold exceeds.
  by rewrite file_snapshot_id_snapshot_path, file_snapshot_id_sequencer_path.
Qed.

(** The compactor reads a state path back as its four parts. *)
Lemma delta_key_snapshot_path w op p id :
  contains "/" op = false →
  delta_key (get_snapshot_path w op p id) = inr (Some (w, (op, p), id)).
Proof.
  intros Hop. unfold delta_key, get_snapshot_path.
  rewrite startswith_app. cbn [negb].
  rewrite split_snapshot_path
    by (done || by rewrite contains_app, slash_not_in_str).
  cbn [length Nat.ltb Nat.leb nth]. rewrite !int_str, file_stem_id. done.
Qed.

Lemma delta_key_sequencer_path w id :
  delta_key (get_sequencer_path w id) = inr None.
Proof.
  apply delta_key_skips. right. rewrite split_sequencer_path. simpl. lia.
Qed.

(** X2. The compactor files a state path under the worker, the operator
    partition and the snapshot id it was made from, provided the operator
    name has no slash: within the bound the path joins that group, above the
    bound it is skipped. A sequencer path joins no group. *)
Theorem paths_read_back_by_compactor (w p id max : Z) (op : string)
    (spw : worker_partition_snapshots)
    (Hop : contains "/" op = false) :
  add_snapshot_file max spw (get_snapshot_path w op p id)
  = inr (if decide (id ≤ max) then
           dd_update [] w
             (dd_update [] (op, p)
                (λ l, (l ++ [(id, get_snapshot_path w op p id)])%list))
             spw
         else spw)
  ∧ add_snapshot_file max spw (get_sequencer_path w id) = inr spw.
Proof.
  rewrite !add_snapshot_file_delta_key.
  rewrite delta_key_snapshot_path, delta_key_sequencer_path by done. simpl.
  split; [|done].
  destruct (Z.leb_spec id max); [by rewrite decide_True|].
  by rewrite decide_False by lia.
Qed.

(** X2 on the scenario's operator. *)
Lemma paths_read_back_by_compactor_witness :
  add_snapshot_file 5 [] (get_snapshot_path 3 "orders" 0 4)
  = inr (if decide (4 ≤ 5) then
           dd_update [] 3
             (dd_update [] ("orders", 0)
                (λ l, (l ++ [(4, get_snapshot_path 3 "orders" 0 4)])%list))
             []
         else [])
  ∧ add_snapshot_file 5 [] (get_sequencer_path 3 4) = inr [].
Proof.
  apply (paths_read_back_by_compactor 3 0 4 5 "orders" []). reflexivity.
Defined.

Lemma str_inj z z' : Py.str z = Py.str z' → z = z'.
Proof.
  intros H. assert (Py.int (Py.str z) = Py.int (Py.str z')) as Hi by by rewrite H.
  rewrite !int_str in Hi. by injection Hi.
Qed.

Lemma snapshot_path_under_prefix w op p id :
  get_snapshot_path w op p id
  = partition_prefix w (op, p) +:+ (Py.str id +:+ ".bin").
Proof.
  unfold get_snapshot_path, partition_prefix. cbn [fst snd].
  by rewrite !append_assoc.
Qed.

Lemma sequencer_path_under_prefix w id :
  get_sequencer_path w id = sequencer_prefix w +:+ (Py.str id +:+ ".bin").
Proof.
  unfold get_sequencer_path, sequencer_prefix. by rewrite !append_assoc.
Qed.

Lemma split_partition_prefix w (op : string * Z) r :
  contains "/" op.1 = false →
  Py.split "/" (partition_prefix w op +:+ r)
  = "uncoordinated" :: Py.str w :: op.1 :: Py.str op.2 :: Py.split "/" r.
Proof.
  intros Hop. unfold partition_prefix. rewrite !append_assoc.
  change ("uncoordinated/" +:+ ?x) with ("uncoordinated" +:+ String "/" x).
  rewrite split_app by done.
  change (Py.str w +:+ "/" +:+ ?x) with (Py.str w +:+ String "/" x).
  rewrite split_app by apply slash_not_in_str.
  change (op.1 +:+ "/" +:+ ?x) with (op.1 +:+ String "/" x).
  rewrite split_app by done.
  change (Py.str op.2 +:+ "/" +:+ r) with (Py.str op.2 +:+ String "/" r).
  by rewrite split_app by apply slash_not_in_str.
Qed.

Lemma split_sequencer_prefix w r :
  Py.split "/" (sequencer_prefix w +:+ r)
  = "uncoordinated" :: Py.str w :: "sequencer" :: Py.split "/" r.
Proof.
  unfold sequencer_prefix. rewrite !append_assoc.
  change ("uncoordinated/" +:+ ?x) with ("uncoordinated" +:+ String "/" x).
  rewrite split_app by done.
  change (Py.str w +:+ "/sequencer/" +:+ r)
    with (Py.str w +:+ String "/" ("sequencer" +:+ String "/" r)).
  rewrite split_app by apply slash_not_in_str.
  by rewrite split_app.
Qed.

Lemma split_state_path w op p id :
  contains "/" op = false →
  Py.split "/" (get_snapshot_path w op p id)
  = ["uncoordinated"; Py.str w; op; Py.str p; Py.str id +:+ ".bin"].
Proof.
  intros Hop. unfold get_snapshot_path. apply split_snapshot_path; [done|].
  by rewrite contains_app, slash_not_in_str.
Qed.

(** X3. Recovery lists each stream apart from the others. Among the paths
    that the snapshotter makes for operators without a slash in the name, the
    ones under the prefix of an operator partition of a worker are exactly
    the state paths of that worker and operator partition; no sequencer path
    is under such a prefix; the sequencer paths under the sequencer prefix of
    a worker are exactly those of that worker; and a state path is under the
    sequencer prefix of its worker exactly when the operator is named
    [sequencer]. *)
Theorem listing_prefixes_separate_streams (w w' p p' id : Z) (op op' : string)
    (Hop : contains "/" op = false) (Hop' : contains "/" op' = false) :
  (Py.startswith (get_snapshot_path w op p id) (partition_prefix w' (op', p'))
     = true ↔ w = w' ∧ op = op' ∧ p = p')
  ∧ Py.startswith (get_sequencer_path w id) (partition_prefix w' (op', p'))
    = false
  ∧ (Py.startswith (get_sequencer_path w id) (sequencer_prefix w') = true
     ↔ w = w')
  ∧ (Py.startswith (get_snapshot_path w op p id) (sequencer_prefix w') = true
     ↔ w = w' ∧ op = "sequencer").
Proof.
  split; [|split; [|split]].
  - split.
    + intros [r Hr]%startswith_inv.
      assert (Py.split "/" (get_snapshot_path w op p id)
              = Py.split "/" (partition_prefix w' (op', p') +:+ r)) as Hs
        by by rewrite Hr.
      rewrite split_state_path, split_partition_prefix in Hs by done.
      injection Hs as Hw -> Hp _. by rewrite (str_inj _ _ Hw), (str_inj _ _ Hp).
    + intros (-> & -> & ->). rewrite snapshot_path_under_prefix.
      apply startswith_app.
  - destruct (Py.startswith _ _) eqn:E; [|done].
    apply startswith_inv in E as [r Hr].
    assert (Py.split "/" (get_sequencer_path w id)
            = Py.split "/" (partition_prefix w' (op', p') +:+ r)) as Hs
      by by rewrite Hr.
    rewrite split_sequencer_path, split_partition_prefix in Hs by done.
    destruct (split_cons "/" r) as (h & t & Hsplit). rewrite Hsplit in Hs.
    discriminate Hs.
  - split.
    + intros [r Hr]%startswith_inv.
      assert (Py.split "/" (get_sequencer_path w id)
              = Py.split "/" (sequencer_prefix w' +:+ r)) as Hs by by rewrite Hr.
      rewrite split_sequencer_path, split_sequencer_prefix in Hs.
      injection Hs as Hw _. by apply str_inj.
    + intros ->. rewrite sequencer_path_under_prefix. apply startswith_app.
  - split.
    + intros [r Hr]%startswith_inv.
      assert (Py.split "/" (get_snapshot_path w op p id)
              = Py.split "/" (sequencer_prefix w' +:+ r)) as Hs by by rewrite Hr.
      rewrite split_state_path, split_sequencer_prefix in Hs by done.
      injection Hs as Hw -> _. by rewrite (str_inj _ _ Hw).
    + intros [-> ->].
      assert (get_snapshot_path w' "sequencer" p id
              = sequencer_prefix w'
                  +:+ (Py.str p +:+ "/" +:+ Py.str id +:+ ".bin")) as ->.
      { unfold get_snapshot_path, sequencer_prefix. by rewrite !append_assoc. }
      apply startswith_app.
Qed.

(** X3 on the scenario: the deltas of partition 10 are not listed for
    partition 1. *)
Lemma listing_prefixes_separate_streams_witness :
  (Py.startswith (get_snapshot_path 3 "orders" 10 2)
     (partition_prefix 3 ("orders", 1)) = true
   ↔ 3 = 3 ∧ "orders" = "orders" ∧ 10 = 1)
  ∧ Py.startswith (get_sequencer_path 3 2) (partition_prefix 3 ("orders", 1))
    = false
  ∧ (Py.startswith (get_sequencer_path 3 2) (sequencer_prefix 3) = true
     ↔ 3 = 3)
  ∧ (Py.startswith (get_snapshot_path 3 "orders" 10 2) (sequencer_prefix 3)
     = true ↔ 3 = 3 ∧ "orders" = "sequencer").
Proof.
  apply (listing_prefixes_separate_streams 3 3 10 1 2 "orders" "orders");
    reflexivity.
Defined.

(** X4. No two deltas share an object name: state paths of operators without
    a slash in the name are equal only when worker, operator, partition and
    snapshot id are, sequencer paths only when worker and snapshot id are,
    and a state path is never a sequencer path. *)
Theorem paths_are_distinct (w w' p p' id id' : Z) (op op' : string)
    (Hop : contains "/" op = false) (Hop' : contains "/" op' = false) :
  (get_snapshot_path w op p id = get_snapshot_path w' op' p' id' →
   w = w' ∧ op = op' ∧ p = p' ∧ id = id')
  ∧ (get_sequencer_path w id = get_sequencer_path w' id' → w = w' ∧ id = id')
  ∧ get_snapshot_path w op p id ≠ get_sequencer_path w' id'.
Proof.
  split; [|split].
  - intros Heq.
    assert (delta_key (get_snapshot_path w op p id)
            = delta_key (get_snapshot_path w' op' p' id')) as Hk by by rewrite Heq.
    rewrite !delta_key_snapshot_path in Hk by done. by injection Hk as -> -> -> ->.
  - intros Heq.
    assert (Py.split "/" (get_sequencer_path w id)
            = Py.split "/" (get_sequencer_path w' id')) as Hs by by rewrite Heq.
    rewrite !split_sequencer_path in Hs. injection Hs as Hw _.
    assert (file_snapshot_id (get_sequencer_path w id)
            = file_snapshot_id (get_sequencer_path w' id')) as Hi by by rewrite Heq.
    rewrite !file_snapshot_id_sequencer_path in Hi. injection Hi as ->.
    by rewrite (str_inj _ _ Hw).
  - intros Heq.
    assert (delta_key (get_snapshot_path w op p id)
            = delta_key (get_sequencer_path w' id')) as Hk by by rewrite Heq.
    rewrite delta_key_snapshot_path, delta_key_sequencer_path in Hk by done.
    discriminate Hk.
Qed.

(** X4 on two paths of the scenario. *)
Lemma paths_are_distinct_witness :
  (get_snapshot_path 3 "orders" 0 1 = get_snapshot_path 3 "orders" 0 2 →
   3 = 3 ∧ "orders" = "orders" ∧ 0 = 0 ∧ 1 = 2)
  ∧ (get_sequencer_path 3 1 = get_sequencer_path 3 2 → 3 = 3 ∧ 1 = 2)
  ∧ get_snapshot_path 3 "orders" 0 1 ≠ get_sequencer_path 3 2.
Proof.
  apply (paths_are_distinct 3 3 0 0 1 2 "orders" "orders"); reflexivity.
Defined.

(** ** The snapshot round *)

Lemma after_callbacks_counting (self : UncoordinatedSnapshotsMinio) (k : nat) :
  completed_snapshots self + Z.of_nat k < n_assigned_partitions self
  ∨ n_assigned_partitions self ≤ completed_snapshots self →
  let s := after_callbacks k self in
  worker_id s = worker_id self
  ∧ snapshot_id s = snapshot_id self
  ∧ n_assigned_partitions s = n_assigned_partitions self
  ∧ snapshot_in_progress s = snapshot_in_progress self
  ∧ completed_snapshots s = completed_snapshots self + Z.of_nat k.
Proof.
  induction k as [|k IH]; intros Hk; cbn zeta.
  - simpl. repeat split; lia.
  - destruct IH as (Hw & Hid & Hn & Hp & Hc); [lia|].
    cbn [after_callbacks]. unfold snapshot_completed_callback.
    rewrite Hc, Hn.
    destruct (Z.eqb_spec (completed_snapshots self + Z.of_nat k + 1)
                (n_assigned_partitions self)) as [Heq|_]; [lia|].
    simpl. repeat split; try done. lia.
Qed.

(** X5. A round over [n + 1] assigned partitions, begun by
    [start_snapshotting] with no completion counted yet: the first [n]
    callbacks only count, send no notification and leave the snapshot id and
    the round in progress, so [should_take_snapshot] stays false whatever the
    clock says; the callback of the last partition sends the notification
    with the worker id and the id of the round just completed, increments the
    snapshot id by one, resets the count and ends the round, after which
    [should_take_snapshot] is again the interval check. *)
Theorem round_completes_at_last_partition
    (idle : UncoordinatedSnapshotsMinio) (n : nat)
    (Hn : n_assigned_partitions idle = Z.of_nat (S n))
    (Hzero : completed_snapshots idle = 0) :
  let self := start_snapshotting idle in
  (∀ k interval_elapsed,
     (k ≤ n)%nat →
     snapshot_id (after_callbacks k self) = snapshot_id idle
     ∧ completed_snapshots (after_callbacks k self) = Z.of_nat k
     ∧ should_take_snapshot interval_elapsed (after_callbacks k self) = false
     ∧ ((k < n)%nat →
        (snapshot_completed_callback (after_callbacks k self)).2 = None))
  ∧ (snapshot_completed_callback (after_callbacks n self)).2
    = Some (worker_id idle, snapshot_id idle)
  ∧ snapshot_id (after_callbacks (S n) self) = snapshot_id idle + 1
  ∧ completed_snapshots (after_callbacks (S n) self) = 0
  ∧ n_assigned_partitions (after_callbacks (S n) self) = Z.of_nat (S n)
  ∧ ∀ interval_elapsed,
      should_take_snapshot interval_elapsed (after_callbacks (S n) self)
      = interval_elapsed.
Proof.
  intros self.
  assert (∀ k, (k ≤ n)%nat →
            worker_id (after_callbacks k self) = worker_id idle
            ∧ snapshot_id (after_callbacks k self) = snapshot_id idle
            ∧ n_assigned_partitions (after_callbacks k self) = Z.of_nat (S n)
            ∧ snapshot_in_progress (after_callbacks k self) = true
            ∧ completed_snapshots (after_callbacks k self) = Z.of_nat k)
    as Hcount.
  { intros k Hk.
    destruct (after_callbacks_counting self k) as (Hw & Hid & Hn' & Hp & Hc).
    { left. unfold self. simpl. lia. }
    unfold self in *. simpl in *. repeat split; try done; lia. }
  split; [|].
  - intros k e Hk. destruct (Hcount k Hk) as (Hw & Hid & Hn' & Hp & Hc).
    split; [done|]. split; [done|]. split.
    + unfold should_take_snapshot. rewrite Hp. apply andb_false_r.
    + intros Hlt. unfold snapshot_completed_callback. rewrite Hc, Hn'.
      destruct (Z.eqb_spec (Z.of_nat k + 1) (Z.of_nat (S n))); [lia|done].
  - destruct (Hcount n (le_n n)) as (Hw & Hid & Hn' & Hp & Hc).
    cbn [after_callbacks]. unfold snapshot_completed_callback.
    rewrite Hc, Hn', Hw, Hid.
    destruct (Z.eqb_spec (Z.of_nat n + 1) (Z.of_nat (S n))) as [_|?]; [|lia].
    simpl. repeat split; try done.
    intros e. unfold should_take_snapshot. simpl. apply andb_true_r.
Qed.

(** X5 on worker 3 with two assigned partitions. *)
Lemma round_completes_at_last_partition_witness :
  let self := start_snapshotting (init 3 2) in
  (∀ k interval_elapsed,
     (k ≤ 1)%nat →
     snapshot_id (after_callbacks k self) = snapshot_id (init 3 2)
     ∧ completed_snapshots (after_callbacks k self) = Z.of_nat k
     ∧ should_take_snapshot interval_elapsed (after_callbacks k self) = false
     ∧ ((k < 1)%nat →
        (snapshot_completed_callback (after_callbacks k self)).2 = None))
  ∧ (snapshot_completed_callback (after_callbacks 1 self)).2
    = Some (worker_id (init 3 2), snapshot_id (init 3 2))
  ∧ snapshot_id (after_callbacks 2 self) = snapshot_id (init 3 2) + 1
  ∧ completed_snapshots (after_callbacks 2 self) = 0
  ∧ n_assigned_partitions (after_callbacks 2 self) = Z.of_nat 2
  ∧ ∀ interval_elapsed,
      should_take_snapshot interval_elapsed (after_callbacks 2 self)
      = interval_elapsed.
Proof.
  apply (round_completes_at_last_partition (init 3 2) 1); reflexivity.
Defined.

(** X6. The callback compares the count with the number of assigned
    partitions by equality: when the count has already reached that number,
    as for a worker with no assigned partition, no number of callbacks ends
    the round. The snapshot id never advances, no notification is sent, and
    once [start_snapshotting] has begun a round [should_take_snapshot] is
    false for good. *)
Theorem round_with_no_partition_never_completes
    (idle : UncoordinatedSnapshotsMinio) (k : nat) (interval_elapsed : bool)
    (Hn : n_assigned_partitions idle ≤ completed_snapshots idle) :
  let self := start_snapshotting idle in
  snapshot_id (after_callbacks k self) = snapshot_id idle
  ∧ (snapshot_completed_callback (after_callbacks k self)).2 = None
  ∧ should_take_snapshot interval_elapsed (after_callbacks k self) = false.
Proof.
  intros self.
  destruct (after_callbacks_counting self k) as (Hw & Hid & Hn' & Hp & Hc).
  { right. unfold self. simpl. lia. }
  unfold self in *. simpl in *. split; [done|]. split.
  - unfold snapshot_completed_callback. rewrite Hc, Hn'.
    destruct (Z.eqb_spec (completed_snapshots idle + Z.of_nat k + 1)
                (n_assigned_partitions idle)); [lia|done].
  - unfold should_take_snapshot. rewrite Hp. apply andb_false_r.
Qed.

(** X6 on worker 3 with no assigned partition, after five callbacks. *)
Lemma round_with_no_partition_never_completes_witness :
  let self := start_snapshotting (init 3 0) in
  snapshot_id (after_callbacks 5 self) = snapshot_id (init 3 0)
  ∧ (snapshot_completed_callback (after_callbacks 5 self)).2 = None
  ∧ should_take_snapshot true (after_callbacks 5 self) = false.
Proof.
  apply (round_with_no_partition_never_completes (init 3 0) 5 true).
  simpl. lia.
Defined.

(** ** The partitions that recovery returns *)

Lemma merge_delta_result b target op data item data' :
  merge_delta b target op data item = inr data' →
  (target < item.1 ∧ data' = data)
  ∨ (item.1 ≤ target ∧ ∃ v, data' = <[op := v]> data).
Proof.
  destruct item as [id name]. unfold merge_delta.
  destruct (Z.ltb_spec target id) as [Hlt|Hle].
  - intros [= <-]. by left.
  - intros Hm. right. split; [done|].
    destruct (Minio.get_object b name) as [|pd]; simpl in Hm; [done|].
    destruct (data !! op) as [cur|]; [|injection Hm as <-; by eauto].
    destruct (truthy pd); [|injection Hm as <-; by eauto].
    destruct (payload_update cur pd) as [|cur']; simpl in Hm; [done|].
    injection Hm as <-. by eauto.
Qed.

Lemma merge_loop_present b target op order data data' :
  for_each (merge_delta b target op) order data = inr data' →
  is_Some (data' !! op)
  ↔ is_Some (data !! op) ∨ ∃ item, item ∈ order ∧ item.1 ≤ target.
Proof.
  revert data. induction order as [|item r IH]; simpl; intros data.
  - intros [= <-]. split; [by left|]. intros [?|(item & Hin & _)]; [done|].
    by apply elem_of_nil in Hin.
  - destruct (merge_delta b target op data item) as [|data1] eqn:E;
      simpl; [done|].
    intros Hr. rewrite (IH _ Hr).
    destruct (merge_delta_result _ _ _ _ _ _ E) as [[Hlt ->]|[Hle [v ->]]].
    + split.
      * intros [?|(item' & Hin & Hq)]; [by left|].
        right. exists item'. split; [by right|done].
      * intros [?|(item' & [->|Hin]%elem_of_cons & Hq)]; [by left|lia|].
        right. by exists item'.
    + rewrite lookup_insert_eq. split.
      * intros _. right. exists item. split; [left|done].
      * intros _. left. by eexists.
Qed.

Lemma comprehension_complete {A B} (f : A → Py.exn + B) l ys x :
  comprehension f l = inr ys → x ∈ l → ∃ y, f x = inr y ∧ y ∈ ys.
Proof.
  revert ys. induction l as [|x0 r IH]; simpl; intros ys.
  - intros _ Hx. by apply elem_of_nil in Hx.
  - destruct (f x0) as [|y0] eqn:Ex; simpl; [done|].
    destruct (comprehension f r) as [|ys0]; simpl; [done|].
    intros [= <-] [->|Hx]%elem_of_cons.
    + exists y0. split; [done|left].
    + destruct (IH _ eq_refl Hx) as (y & ? & ?). exists y. split; [done|by right].
Qed.

Lemma merge_order_complete files order name :
  merge_order files = inr order → name ∈ files →
  ∃ id, file_snapshot_id name = inr id ∧ (id, name) ∈ order.
Proof.
  unfold merge_order.
  destruct (comprehension _ files) as [|items] eqn:E; simpl; [done|].
  intros [= <-] Hin.
  destruct (comprehension_complete _ _ _ _ E Hin) as (y & Hy & Hyin).
  destruct (file_snapshot_id name) as [|id]; simpl in Hy; [done|].
  injection Hy as <-. exists id. split; [done|]. by apply elem_of_sorted.
Qed.

Lemma recover_partition_present b worker target data op data' :
  recover_partition b worker target data op = inr data' →
  is_Some (data' !! op)
  ↔ is_Some (data !! op) ∨ has_delta b worker target op.
Proof.
  rewrite recover_partition_unfold.
  destruct (merge_order _) as [|order] eqn:Eo; simpl; [done|].
  intros Hr. rewrite (merge_loop_present _ _ _ _ _ _ Hr). unfold has_delta.
  split; (intros [?|Hd]; [by left|right]).
  - destruct Hd as ([id name] & Hin & Hq).
    destruct (merge_order_elem _ _ _ _ Eo Hin) as [Hf Hid].
    by exists name, id.
  - destruct Hd as (name & id & Hf & Hid & Hq).
    destruct (merge_order_complete _ _ _ Eo Hf) as (id' & Hid' & Hin).
    rewrite Hid in Hid'. injection Hid' as <-. by exists (id, name).
Qed.

Lemma recover_loop_present b worker target ops data data' op :
  for_each (recover_partition b worker target) ops data = inr data' →
  is_Some (data' !! op)
  ↔ is_Some (data !! op) ∨ (op ∈ ops ∧ has_delta b worker target op).
Proof.
  revert data. induction ops as [|op0 r IH]; simpl; intros data.
  - intros [= <-]. split; [by left|]. intros [?|[Hin _]]; [done|].
    by apply elem_of_nil in Hin.
  - destruct (recover_partition b worker target data op0) as [|data1] eqn:E;
      simpl; [done|].
    intros Hr. rewrite (IH _ Hr). destruct (decide (op = op0)) as [->|Hne].
    + rewrite (recover_partition_present _ _ _ _ _ _ E). split.
      * intros [[?|?]|[? ?]]; [by left|right|right]; (split; [|done]);
          [left|by right].
      * intros [?|[_ ?]]; left; [by left|by right].
    + rewrite (recover_partition_other _ _ _ _ _ _ _ E Hne). split.
      * intros [?|[? ?]]; [by left|]. right. split; [by right|done].
      * intros [?|[[?|?]%elem_of_cons ?]]; [by left|done|]. by right.
Qed.

(** X7. What a successful recovery at a target other than -1 returns has an
    entry for exactly the registered operator partitions that have, under
    their prefix, a delta whose id is at most the target. Unregistered
    partitions are never loaded, whatever the bucket holds for them. *)
Theorem recovered_partitions_are_those_with_deltas
    (self : UncoordinatedSnapshotsMinio) (b : bucket) (target : Z)
    (registered_operators : list OperatorPartition)
    (data : gmap (string * Z) payload) (oi oo : option Offsets) (e t : Z)
    (op : OperatorPartition)
    (Htarget : target ≠ -1)
    (Hrun : (retrieve_snapshot self b target registered_operators).2
            = inr (data, oi, oo, e, t)) :
  is_Some (data !! op)
  ↔ op ∈ registered_operators ∧ has_delta b (worker_id self) target op.
Proof.
  unfold retrieve_snapshot in Hrun.
  destruct (Z.eqb_spec target (-1)) as [?|_]; [done|]. simpl in Hrun.
  destruct (for_each _ registered_operators ∅) as [|data0] eqn:E;
    simpl in Hrun; [done|].
  destruct (recover_sequencer _ _ _) as [|[[[i o] e'] t']]; simpl in Hrun;
    [done|].
  injection Hrun as <- _ _ _ _.
  rewrite (recover_loop_present _ _ _ _ _ _ op E), lookup_empty.
  split; [intros [[? ?]|?]; done|by right].
Qed.

(** X7 on the scenario, for [("payments", 0)], registered and without
    deltas, and for [("orders", 0)]. *)
Lemma recovered_partitions_are_those_with_deltas_witness :
  let data : gmap (string * Z) payload :=
    <[("orders", 0) := PDict (<["a" := 5]> (<["b" := 3]> (<["c" := 4]> ∅)))]> ∅ in
  (is_Some (data !! ("payments", 0))
   ↔ ("payments", 0) ∈ [("orders", 0); ("payments", 0)]
     ∧ has_delta orders_bucket (worker_id (init 3 2)) 2 ("payments", 0))
  ∧ (is_Some (data !! ("orders", 0))
     ↔ ("orders", 0) ∈ [("orders", 0); ("payments", 0)]
       ∧ has_delta orders_bucket (worker_id (init 3 2)) 2 ("orders", 0)).
Proof.
  split;
    apply (recovered_partitions_are_those_with_deltas
             (init 3 2) orders_bucket 2 [("orders", 0); ("payments", 0)] _
             (Some (<[("p", 0) := 20]> (<[("p", 1) := 5]> ∅))) (Some ∅) 2 9);
    (lia || (vm_compute; reflexivity)).
Defined.

(** ** Recovery of a stream of deltas *)

Lemma comprehension_fmap {A B} (f : A → Py.exn + B) (g : A → B) l :
  (∀ x, x ∈ l → f x = inr (g x)) → comprehension f l = inr (g <$> l).
Proof.
  induction l as [|x r IH]; intros Hf; [done|].
  simpl. rewrite Hf by left. simpl. rewrite IH; [done|].
  intros y Hy. apply Hf. by right.
Qed.

Lemma strictly_sorted_NoDup (stream : list (Z * KVPairs)) :
  StronglySorted (λ x y, x.1 < y.1) stream → NoDup stream.*1.
Proof.
  induction 1 as [|x r _ IH Hx]; [constructor|].
  rewrite fmap_cons. constructor; [|done].
  intros [y [Hy Hin]]%list_elem_of_fmap.
  rewrite Forall_forall in Hx. specialize (Hx _ Hin). lia.
Qed.

Lemma endswith_app a p : Py.endswith (a +:+ p) p = true.
Proof.
  induction a as [|c a IH].
  - change ("" +:+ p) with p. destruct p; simpl; [done|].
    by rewrite Ascii.eqb_refl, String.eqb_refl.
  - change (String c a +:+ p) with (String c (a +:+ p)).
    cbn [Py.endswith]. rewrite IH. by destruct (String.eqb _ _).
Qed.

Lemma endswith_snapshot_path w op p id :
  Py.endswith (get_snapshot_path w op p id) ".bin" = true.
Proof.
  unfold get_snapshot_path. rewrite <- !append_assoc. apply endswith_app.
Qed.

Lemma elem_of_bin_files_path b w op p id v :
  b !! get_snapshot_path w op p id = Some v →
  get_snapshot_path w op p id ∈ bin_files b (partition_prefix w (op, p)).
Proof.
  intros Hb. apply elem_of_bin_files. split; [by eexists|]. split.
  - rewrite snapshot_path_under_prefix. apply startswith_app.
  - apply endswith_snapshot_path.
Qed.

Lemma stream_merge_order b worker op stream :
  stream_of b worker op stream →
  merge_order (bin_files b (partition_prefix worker op))
  = inr (stream_item worker op <$> stream).
Proof.
  intros (Hsorted & Hlisted & Hstored).
  set (files := bin_files b (partition_prefix worker op)).
  set (g := λ name : string,
         (match file_snapshot_id name with inr id => id | inl _ => 0 end, name)).
  assert (∀ id, g (get_snapshot_path worker op.1 op.2 id)
                = (id, get_snapshot_path worker op.1 op.2 id)) as Hg.
  { intros id. unfold g. by rewrite file_snapshot_id_snapshot_path. }
  assert (files ≡ₚ get_snapshot_path worker op.1 op.2 <$> stream.*1) as Hperm.
  { apply NoDup_Permutation.
    - apply bin_files_NoDup.
    - apply NoDup_fmap_2_strong; [|by apply strictly_sorted_NoDup].
      intros id id' _ _ Heq.
      assert (file_snapshot_id (get_snapshot_path worker op.1 op.2 id)
              = file_snapshot_id (get_snapshot_path worker op.1 op.2 id')) as Hi
        by by rewrite Heq.
      rewrite !file_snapshot_id_snapshot_path in Hi. by injection Hi.
    - intros name. rewrite list_elem_of_fmap. split.
      + intros (id & Hid & ->)%Hlisted. by exists id.
      + intros (id & -> & [[id' d] [Hid Hin]]%list_elem_of_fmap).
        simpl in Hid. subst id'. destruct (Hstored _ _ Hin) as [Hb _].
        destruct op as [oname p]. by eapply elem_of_bin_files_path. }
  unfold merge_order.
  rewrite (comprehension_fmap _ g).
  2:{ intros name (id & _ & ->)%Hlisted.
      rewrite file_snapshot_id_snapshot_path. simpl. by rewrite Hg. }
  simpl. f_equal.
  assert (g <$> files ≡ₚ stream_item worker op <$> stream) as Hitems.
  { rewrite Hperm, <- !list_fmap_compose.
    assert (g ∘ get_snapshot_path worker op.1 op.2 ∘ fst <$> stream
            = stream_item worker op <$> stream) as ->; [|done].
    apply list_fmap_ext. intros i x _. simpl. apply Hg. }
  apply (StronglySorted_unique_strong (key_le fst)).
  - intros x1 x2 Hx1 [y [-> _]]%list_elem_of_fmap.
    apply elem_of_sorted in Hx1. rewrite Hitems in Hx1.
    apply list_elem_of_fmap in Hx1 as [y' [-> _]].
    unfold key_le, stream_item. simpl. intros H1 H2.
    assert (y'.1 = y.1) as -> by lia. done.
  - apply sorted_sorted.
  - clear -Hsorted. induction Hsorted as [|x r _ IH Hx]; [constructor|].
    rewrite fmap_cons. constructor; [done|].
    apply Forall_fmap. eapply Forall_impl; [done|].
    intros y Hy. unfold key_le. simpl in *. lia.
  - by rewrite sorted_perm.
Qed.

Lemma qualifying_stream worker op target stream :
  qualifying target (stream_item worker op <$> stream)
  = stream_item worker op <$> up_to target stream.
Proof.
  unfold qualifying, up_to. induction stream as [|x r IH]; [done|].
  rewrite fmap_cons, !filter_cons. simpl.
  destruct (decide (x.1 ≤ target)); [|done]. by rewrite fmap_cons, IH.
Qed.

(** The loop over the deltas of a stream, for a partition without an entry. *)
Lemma recover_partition_stream
    (b : bucket) (worker target : Z) (op : OperatorPartition)
    (stream : list (Z * KVPairs)) (data : gmap (string * Z) payload)
    (Hstream : stream_of b worker op stream)
    (Hfresh : data !! op = None) :
  recover_partition b worker target data op
  = inr (if decide (up_to target stream = []) then data
         else <[op := PDict (last_write_wins (up_to target stream).*2)]> data).
Proof.
  rewrite recover_partition_unfold, (stream_merge_order _ _ _ _ Hstream).
  simpl. destruct Hstream as (_ & _ & Hstored).
  assert (Forall2 (λ item delta, b !! item.2 = Some (PDict delta) ∧ delta ≠ ∅)
            (qualifying target (stream_item worker op <$> stream))
            (up_to target stream).*2) as HF.
  { rewrite qualifying_stream.
    assert (∀ x, x ∈ up_to target stream → x ∈ stream) as Hsub.
    { intros x Hx. unfold up_to in Hx. by apply list_elem_of_filter in Hx as [_ ?]. }
    induction (up_to target stream) as [|[id d] r IH]; [constructor|].
    rewrite !fmap_cons. constructor.
    - simpl. apply Hstored, Hsub. left.
    - apply IH. intros x Hx. apply Hsub. by right. }
  destruct (decide (up_to target stream = [])) as [Hnone|Hsome].
  - apply merge_loop_skip. intros item Hin.
    destruct (Z.lt_ge_cases target item.1) as [?|Hle]; [done|].
    assert (item ∈ qualifying target (stream_item worker op <$> stream)) as Hq
      by by apply list_elem_of_filter.
    rewrite qualifying_stream, Hnone in Hq. by apply elem_of_nil in Hq.
  - apply recovery_merges_nonempty_deltas; [done| |done].
    by destruct (up_to target stream).
Qed.

(** X8. Recovery merges the deltas of a partition in the order of their
    snapshot ids, not in the order in which the object store lists their
    names. For a partition whose deltas are stored as the snapshotter names
    them, each a non-empty dict, and that has no entry yet, the loop returns
    the last-write-wins merge of the deltas up to the target, taken in
    ascending id order; without a delta up to the target it returns the data
    unchanged. *)
Theorem recovery_merges_in_id_order
    (b : bucket) (worker target : Z) (op : OperatorPartition)
    (stream : list (Z * KVPairs)) (data : gmap (string * Z) payload)
    (Hstream : stream_of b worker op stream)
    (Hfresh : data !! op = None) :
  recover_partition b worker target data op
  = inr (if decide (up_to target stream = []) then data
         else <[op := PDict (last_write_wins (up_to target stream).*2)]> data).
Proof. by apply recover_partition_stream. Qed.

(** The object store lists delta 10 of [tens_bucket] before delta 2. *)
Example tens_bucket_listing :
  bin_files tens_bucket (partition_prefix 3 ("orders", 0))
  = [get_snapshot_path 3 "orders" 0 10; get_snapshot_path 3 "orders" 0 2].
Proof. vm_compute. reflexivity. Qed.

(** X8 on [tens_bucket]: the value of [a] is that of delta 10. *)
Lemma recovery_merges_in_id_order_witness :
  let stream := [(2, <["a" := 1]> ∅); (10, <["a" := 2]> (<["b" := 7]> ∅))] in
  recover_partition tens_bucket 3 10 ∅ ("orders", 0)
  = inr (if decide (up_to 10 stream = []) then ∅
         else <[("orders", 0) := PDict (last_write_wins (up_to 10 stream).*2)]> ∅).
Proof.
  apply (recovery_merges_in_id_order tens_bucket 3 10 ("orders", 0)
           [(2, <["a" := 1]> ∅); (10, <["a" := 2]> (<["b" := 7]> ∅))] ∅).
  - split; [|split].
    + repeat constructor.
    + intros name Hin. rewrite tens_bucket_listing in Hin.
      apply elem_of_cons in Hin as [->|Hin].
      * exists 10. split; [|done]. simpl. by right; left.
      * apply list_elem_of_singleton in Hin as ->.
        exists 2. split; [|done]. simpl. by left.
    + intros id d [Hx|Hin]%elem_of_cons.
      * injection Hx as -> ->. split; [by vm_compute|].
        intros He. by apply (f_equal (λ m : KVPairs, m !! "a")) in He.
      * apply list_elem_of_singleton in Hin. injection Hin as -> ->.
        split; [by vm_compute|].
        intros He. by apply (f_equal (λ m : KVPairs, m !! "a")) in He.
  - apply lookup_empty.
Defined.

Example tens_bucket_recovery :
  recover_partition tens_bucket 3 10 ∅ ("orders", 0)
  = inr (<[("orders", 0) := PDict (<["a" := 2]> (<["b" := 7]> ∅))]> ∅).
Proof. vm_compute. reflexivity. Qed.

(** ** What recovery reads *)

(** X9. A snapshot stored under an id above the target, by any worker and
    for any operator partition, state delta or sequencer record, does not
    change what recovery at the target does: a round that is being written
    while a worker recovers is not seen. *)
Theorem later_snapshot_does_not_change_recovery
    (self : UncoordinatedSnapshotsMinio) (b : bucket) (target w p id : Z)
    (op : string) (v : payload)
    (registered_operators : list OperatorPartition)
    (Hlater : target < id) :
  retrieve_snapshot self
    (store_snapshot id (get_snapshot_path w op p id) v b).1
    target registered_operators
  = retrieve_snapshot self b target registered_operators
  ∧ retrieve_snapshot self
      (store_snapshot id (get_sequencer_path w id) v b).1
      target registered_operators
    = retrieve_snapshot self b target registered_operators.
Proof.
  split; apply retrieve_snapshot_agree; intros name Hkeep;
    unfold store_snapshot, write, Minio.put_object; simpl;
    apply lookup_insert_ne; intros <-; apply Hkeep; unfold exceeds.
  - by rewrite file_snapshot_id_snapshot_path.
  - by rewrite file_snapshot_id_sequencer_path.
Qed.

(** X9 on the scenario: delta 3 of partition 0 and sequencer record 3 are
    stored while worker 3 recovers at target 2. *)
Lemma later_snapshot_does_not_change_recovery_witness :
  retrieve_snapshot (init 3 1)
    (store_snapshot 3 (get_snapshot_path 3 "orders" 0 3)
       (PDict (<["a" := 6]> ∅)) orders_bucket).1
    2 [("orders", 0)]
  = retrieve_snapshot (init 3 1) orders_bucket 2 [("orders", 0)]
  ∧ retrieve_snapshot (init 3 1)
      (store_snapshot 3 (get_sequencer_path 3 3)
         (PDict (<["a" := 6]> ∅)) orders_bucket).1
      2 [("orders", 0)]
    = retrieve_snapshot (init 3 1) orders_bucket 2 [("orders", 0)].
Proof.
  apply (later_snapshot_does_not_change_recovery
           (init 3 1) orders_bucket 2 3 0 3 "orders"
           (PDict (<["a" := 6]> ∅)) [("orders", 0)]).
  lia.
Defined.

Lemma bin_files_prefix_agree (b b2 : bucket) prefix :
  (∀ name, Py.startswith name prefix = true → b !! name = b2 !! name) →
  bin_files b prefix = bin_files b2 prefix.
Proof.
  intros Hag. apply (StronglySorted_unique string_le).
  - unfold bin_files. apply filter_StronglySorted, list_objects_sorted.
  - unfold bin_files. apply filter_StronglySorted, list_objects_sorted.
  - apply NoDup_Permutation; [apply bin_files_NoDup..|].
    intros name. rewrite !elem_of_bin_files.
    split; intros (Hb & Hp & He); (split; [|done]);
      [rewrite <- (Hag name Hp)|rewrite (Hag name Hp)]; done.
Qed.

Section read_set.
Context (b b2 : bucket) (worker target : Z).

Lemma recover_partition_prefix_agree data op :
  (∀ name, Py.startswith name (partition_prefix worker op) = true →
           b !! name = b2 !! name) →
  recover_partition b worker target data op
  = recover_partition b2 worker target data op.
Proof.
  intros Hag. rewrite !recover_partition_unfold.
  rewrite (bin_files_prefix_agree b b2 _ Hag).
  destruct (merge_order _) as [e|order] eqn:Ho; simpl; [done|].
  apply merge_loop_agree. intros [id name] Hin.
  apply (merge_order_elem _ _ _ _ Ho) in Hin as [Hin _].
  apply elem_of_bin_files in Hin as (_ & Hp & _). by apply Hag.
Qed.

Lemma recover_sequencer_prefix_agree :
  (∀ name, Py.startswith name (sequencer_prefix worker) = true →
           b !! name = b2 !! name) →
  recover_sequencer b worker target = recover_sequencer b2 worker target.
Proof.
  intros Hag. unfold recover_sequencer. fold (sequencer_prefix worker).
  rewrite (bin_files_prefix_agree b b2 _ Hag).
  destruct (merge_order _) as [e|order] eqn:Ho; simpl; [done|].
  apply take_record_agree. intros [id name] Hin.
  apply (merge_order_elem _ _ _ _ Ho) in Hin as [Hin _].
  apply elem_of_bin_files in Hin as (_ & Hp & _). by apply Hag.
Qed.

Lemma recover_loop_prefix_agree ops data :
  (∀ name op, op ∈ ops →
              Py.startswith name (partition_prefix worker op) = true →
              b !! name = b2 !! name) →
  for_each (recover_partition b worker target) ops data
  = for_each (recover_partition b2 worker target) ops data.
Proof.
  revert data. induction ops as [|op r IH]; intros data Hag; [done|].
  cbn [for_each]. rewrite recover_partition_prefix_agree.
  2:{ intros name. apply Hag. left. }
  destruct (recover_partition b2 _ _ _ _); simpl; [done|].
  apply IH. intros name op' ?. apply Hag. by right.
Qed.
End read_set.

Lemma retrieve_snapshot_read_set self b b2 target registered_operators :
  (∀ name, read_by_recovery (worker_id self) registered_operators name →
           b !! name = b2 !! name) →
  retrieve_snapshot self b target registered_operators
  = retrieve_snapshot self b2 target registered_operators.
Proof.
  intros Hag. unfold retrieve_snapshot. destruct (target =? -1); [done|].
  f_equal. simpl.
  rewrite (recover_loop_prefix_agree b b2).
  2:{ intros name op Hop Hp. apply Hag. left. by exists op. }
  rewrite (recover_sequencer_prefix_agree b b2); [done|].
  intros name Hp. apply Hag. by right.
Qed.

(** X10. Recovery of a worker depends on the bucket only through the objects
    under the prefixes of its registered operator partitions and under its
    sequencer prefix: two buckets that agree there give the same result, be
    it a value or an exception. *)
Theorem recovery_reads_only_its_prefixes
    (self : UncoordinatedSnapshotsMinio) (b b2 : bucket) (target : Z)
    (registered_operators : list OperatorPartition)
    (Hsame : ∀ name,
        read_by_recovery (worker_id self) registered_operators name →
        b !! name = b2 !! name) :
  retrieve_snapshot self b target registered_operators
  = retrieve_snapshot self b2 target registered_operators.
Proof. by apply retrieve_snapshot_read_set. Qed.

(** X10 on the scenario: a delta of the unregistered partition
    [("payments", 0)] does not change the result. *)
Lemma recovery_reads_only_its_prefixes_witness :
  retrieve_snapshot (init 3 1)
    (<[get_snapshot_path 3 "payments" 0 1 := PDict (<["z" := 1]> ∅)]>
       orders_bucket)
    2 [("orders", 0)]
  = retrieve_snapshot (init 3 1) orders_bucket 2 [("orders", 0)].
Proof.
  apply (recovery_reads_only_its_prefixes (init 3 1)).
  intros name Hread. apply lookup_insert_ne. intros <-.
  destruct Hread as [(op & Hop & Hp)|Hp].
  - apply list_elem_of_singleton in Hop as ->. by vm_compute in Hp.
  - by vm_compute in Hp.
Defined.

Lemma append_inv_head (a x y : string) : a +:+ x = a +:+ y → x = y.
Proof.
  induction a as [|c a IH]; [done|].
  change (String c a +:+ ?z) with (String c (a +:+ z)).
  intros [= H]. by apply IH.
Qed.

Lemma split_under_worker w r :
  Py.split "/" ("uncoordinated/" +:+ Py.str w +:+ "/" +:+ r)
  = "uncoordinated" :: Py.str w :: Py.split "/" r.
Proof.
  change ("uncoordinated/" +:+ ?x) with ("uncoordinated" +:+ String "/" x).
  rewrite split_app by done.
  change (Py.str w +:+ "/" +:+ r) with (Py.str w +:+ String "/" r).
  by rewrite split_app by apply slash_not_in_str.
Qed.

(** A name that recovery of a worker lists carries the id of that worker. *)
Lemma read_by_recovery_worker worker ops name :
  read_by_recovery worker ops name →
  nth 1 (Py.split "/" name) "" = Py.str worker.
Proof.
  intros [(op & _ & [r ->]%startswith_inv)|[r ->]%startswith_inv].
  - unfold partition_prefix. rewrite !append_assoc.
    by rewrite split_under_worker.
  - unfold sequencer_prefix.
    change ("uncoordinated/" +:+ Py.str worker +:+ "/sequencer/")
      with ("uncoordinated/" +:+ Py.str worker +:+ "/" +:+ "sequencer/").
    rewrite !append_assoc. by rewrite split_under_worker.
Qed.

(** X11. Workers are isolated from one another in recovery: whatever another
    worker stores at its own paths, under any snapshot id, does not change
    what this worker recovers. *)
Theorem other_worker_does_not_change_recovery
    (self : UncoordinatedSnapshotsMinio) (b : bucket) (target w p id : Z)
    (op : string) (v : payload)
    (registered_operators : list OperatorPartition)
    (Hother : w ≠ worker_id self) :
  retrieve_snapshot self
    (store_snapshot id (get_snapshot_path w op p id) v b).1
    target registered_operators
  = retrieve_snapshot self b target registered_operators
  ∧ retrieve_snapshot self
      (store_snapshot id (get_sequencer_path w id) v b).1
      target registered_operators
    = retrieve_snapshot self b target registered_operators.
Proof.
  split; apply retrieve_snapshot_read_set; intros name Hread;
    unfold store_snapshot, write, Minio.put_object; simpl;
    apply lookup_insert_ne; intros <-;
    apply read_by_recovery_worker in Hread; apply Hother.
  - unfold get_snapshot_path in Hread. rewrite split_under_worker in Hread.
    by apply str_inj.
  - rewrite split_sequencer_path in Hread. by apply str_inj.
Qed.

(** X11 on the scenario: worker 4 stores delta 1 of the same operator
    partition and a sequencer record. *)
Lemma other_worker_does_not_change_recovery_witness :
  retrieve_snapshot (init 3 1)
    (store_snapshot 1 (get_snapshot_path 4 "orders" 0 1)
       (PDict (<["a" := 6]> ∅)) orders_bucket).1
    2 [("orders", 0)]
  = retrieve_snapshot (init 3 1) orders_bucket 2 [("orders", 0)]
  ∧ retrieve_snapshot (init 3 1)
      (store_snapshot 1 (get_sequencer_path 4 1)
         (PDict (<["a" := 6]> ∅)) orders_bucket).1
      2 [("orders", 0)]
    = retrieve_snapshot (init 3 1) orders_bucket 2 [("orders", 0)].
Proof.
  apply (other_worker_does_not_change_recovery
           (init 3 1) orders_bucket 2 4 0 1 "orders"
           (PDict (<["a" := 6]> ∅)) [("orders", 0)]).
  simpl. lia.
Defined.

(** ** The grouping of a listing *)

Lemma add_snapshot_file_nonempty max spw f spw' :
  add_snapshot_file max spw f = inr spw' →
  Forall (λ kv : Z * partition_snapshots,
            Forall (λ g : (string * Z) * list (Z * string), g.2 ≠ []) kv.2) spw →
  Forall (λ kv : Z * partition_snapshots,
            Forall (λ g : (string * Z) * list (Z * string), g.2 ≠ []) kv.2) spw'.
Proof.
  rewrite add_snapshot_file_delta_key.
  destruct (delta_key f) as [e|[[[w0 op0] id0]|]]; simpl; [done|..].
  - destruct (id0 <=? max); intros [= <-]; [|done]. intros Hall.
    apply (dd_update_Forall []
             (λ ws : partition_snapshots,
                Forall (λ g : (string * Z) * list (Z * string), g.2 ≠ []) ws));
      [|intros ws Hws|done].
    + by repeat constructor.
    + apply (dd_update_Forall [] (λ l : list (Z * string), l ≠ []));
        [done| |done].
      intros l _. by destruct l.
  - by intros [= <-].
Qed.

Lemma add_snapshot_files_nonempty max files spw spw' :
  for_each (add_snapshot_file max) files spw = inr spw' →
  Forall (λ kv : Z * partition_snapshots,
            Forall (λ g : (string * Z) * list (Z * string), g.2 ≠ []) kv.2) spw →
  Forall (λ kv : Z * partition_snapshots,
            Forall (λ g : (string * Z) * list (Z * string), g.2 ≠ []) kv.2) spw'.
Proof.
  revert spw. induction files as [|f r IH]; simpl; intros spw.
  - by intros [= <-].
  - destruct (add_snapshot_file max spw f) as [|spw1] eqn:E; simpl; [done|].
    intros Hr Hall. apply (IH _ Hr). by eapply add_snapshot_file_nonempty.
Qed.

Lemma groups_nonempty files max spw w op snaps :
  get_uncoordinated_snapshots_per_worker files max = inr spw →
  (w, op, snaps) ∈ entries spw → snaps ≠ [].
Proof.
  unfold get_uncoordinated_snapshots_per_worker.
  destruct (for_each _ files []) as [|spw0] eqn:E; simpl; [done|].
  intros [= <-] (ws' & Hw & Hop)%elem_of_entries.
  pose proof (add_snapshot_files_nonempty _ _ _ _ E ltac:(constructor)) as Hall.
  destruct (elem_of_sort_snapshots _ _ _ Hw) as (ws & Hws & ->).
  apply list_elem_of_fmap in Hop as ([op0 snaps0] & [= -> ->] & Hin).
  rewrite Forall_forall in Hall. specialize (Hall _ Hws). simpl in Hall.
  rewrite Forall_forall in Hall. specialize (Hall _ Hin). simpl in Hall.
  intros Hnil. apply Hall.
  apply (f_equal length) in Hnil. rewrite sorted_length in Hnil.
  by destruct snaps0.
Qed.

(** X12. What [get_uncoordinated_snapshots_per_worker] returns partitions
    the listing: no worker and operator partition has two groups; a group
    is never empty and is in ascending order of snapshot ids; and an item is
    in the group of a worker and operator partition exactly when its name is
    listed, passes the two guards, parses to that worker, operator partition
    and id, and the id is at most the bound. *)
Theorem grouping_partitions_the_listing
    (files : list string) (max : Z) (spw : worker_partition_snapshots)
    (Hgroups : get_uncoordinated_snapshots_per_worker files max = inr spw) :
  NoDup (entries spw).*1
  ∧ (∀ w op snaps,
       (w, op, snaps) ∈ entries spw →
       snaps ≠ []
       ∧ StronglySorted (key_le fst) snaps
       ∧ snaps = Py.sorted fst (members max w op files))
  ∧ (∀ w op id name,
       (∃ snaps, (w, op, snaps) ∈ entries spw ∧ (id, name) ∈ snaps)
       ↔ name ∈ files ∧ delta_key name = inr (Some (w, op, id)) ∧ id ≤ max).
Proof.
  split; [|split].
  - apply entries_keys_NoDup. by eapply groups_wf.
  - intros w op snaps Hin. split; [by eapply groups_nonempty|].
    rewrite (groups_entry _ _ _ _ _ _ Hgroups Hin).
    split; [apply sorted_sorted|done].
  - intros w op id name. rewrite <- elem_of_members. split.
    + intros (snaps & Hin & Hitem).
      rewrite (groups_entry _ _ _ _ _ _ Hgroups Hin) in Hitem.
      by apply elem_of_sorted in Hitem.
    + by apply member_has_group.
Qed.

(** X12 on the scenario under the bound 1. *)
Lemma grouping_partitions_the_listing_witness :
  let files := bin_files orders_bucket "" in
  let spw := [(3, [(("orders", 0), [(0, get_snapshot_path 3 "orders" 0 0);
                                     (1, get_snapshot_path 3 "orders" 0 1)])])] in
  NoDup (entries spw).*1
  ∧ (∀ w op snaps,
       (w, op, snaps) ∈ entries spw →
       snaps ≠ []
       ∧ StronglySorted (key_le fst) snaps
       ∧ snaps = Py.sorted fst (members 1 w op files))
  ∧ (∀ w op id name,
       (∃ snaps, (w, op, snaps) ∈ entries spw ∧ (id, name) ∈ snaps)
       ↔ name ∈ files ∧ delta_key name = inr (Some (w, op, id)) ∧ id ≤ 1).
Proof.
  apply (grouping_partitions_the_listing (bin_files orders_bucket "") 1).
  vm_compute. reflexivity.
Defined.

Lemma delta_key_raises_inv f e :
  delta_key f = inl e →
  Py.startswith f "uncoordinated/" = true
  ∧ (5 ≤ length (Py.split "/" f))%nat ∧ non_integer_field f.
Proof.
  unfold delta_key, non_integer_field.
  destruct (Py.startswith f "uncoordinated/"); [|done]. cbn [negb].
  destruct (Nat.ltb_spec (length (Py.split "/" f)) 5) as [|Hlen]; [done|].
  cbn zeta. intros Hk. split; [done|]. split; [done|].
  destruct (Py.int (nth 1 _ _)) as [e1|w] eqn:E1.
  { left. by rewrite (int_error _ _ E1). }
  destruct (Py.int (nth 3 _ _)) as [e3|p] eqn:E3.
  { right; left. by rewrite (int_error _ _ E3). }
  destruct (Py.int (Py.first _)) as [e4|i] eqn:E4; [|done].
  right; right. by rewrite (int_error _ _ E4).
Qed.

Lemma add_files_error_inv max files spw e :
  for_each (add_snapshot_file max) files spw = inl e →
  ∃ f e', f ∈ files ∧ delta_key f = inl e'.
Proof.
  revert spw. induction files as [|f0 r IH]; intros spw; [done|].
  cbn [for_each]. rewrite add_snapshot_file_delta_key.
  destruct (delta_key f0) as [e0|k] eqn:E0.
  { intros _. exists f0, e0. split; [left|done]. }
  simpl.
  assert (∀ spw1, for_each (add_snapshot_file max) r spw1 = inl e →
                  ∃ f e', f ∈ f0 :: r ∧ delta_key f = inl e') as Hrest.
  { intros spw1 (f & e' & Hf & Hk)%IH. exists f, e'. split; [by right|done]. }
  destruct k as [[[w op] id]|]; [destruct (id <=? max)|]; simpl; apply Hrest.
Qed.

(** X13. The grouping raises exactly when some listed name passes the two
    guards, the prefix and the five segments, and has a worker id, a
    partition or a snapshot id that [int] does not accept; the exception is
    then ValueError, also for a name whose snapshot id would be above the
    bound. Without such a name the grouping returns. *)
Theorem grouping_raises_on_non_integer_field (files : list string) (max : Z) :
  (∀ e, get_uncoordinated_snapshots_per_worker files max = inl e →
        e = Py.ValueError)
  ∧ (get_uncoordinated_snapshots_per_worker files max = inl Py.ValueError
     ↔ ∃ f, f ∈ files ∧ Py.startswith f "uncoordinated/" = true
            ∧ (5 ≤ length (Py.split "/" f))%nat ∧ non_integer_field f)
  ∧ ((∀ f, f ∈ files → Py.startswith f "uncoordinated/" = true →
           (5 ≤ length (Py.split "/" f))%nat → ¬ non_integer_field f) →
     ∃ spw, get_uncoordinated_snapshots_per_worker files max = inr spw).
Proof.
  assert (∀ e, get_uncoordinated_snapshots_per_worker files max = inl e →
               ∃ f, f ∈ files ∧ Py.startswith f "uncoordinated/" = true
                    ∧ (5 ≤ length (Py.split "/" f))%nat ∧ non_integer_field f)
    as Hinv.
  { intros e. unfold get_uncoordinated_snapshots_per_worker.
    destruct (for_each _ files []) as [e0|spw0] eqn:E; simpl; [|done].
    intros _. destruct (add_files_error_inv _ _ _ _ E) as (f & e' & Hf & Hk).
    exists f. split; [done|]. by eapply delta_key_raises_inv. }
  assert ((∃ f, f ∈ files ∧ Py.startswith f "uncoordinated/" = true
                ∧ (5 ≤ length (Py.split "/" f))%nat ∧ non_integer_field f) →
          get_uncoordinated_snapshots_per_worker files max = inl Py.ValueError)
    as Hraise.
  { intros (f & Hf & Hp & Hlen & Hbad).
    unfold get_uncoordinated_snapshots_per_worker.
    by rewrite (add_files_error max files [] f Py.ValueError Hf
                  (delta_key_raises f Hp Hlen Hbad)). }
  split; [|split].
  - intros e He. pose proof (Hraise (Hinv e He)) as Hv. congruence.
  - split; [apply Hinv|apply Hraise].
  - intros Hok.
    destruct (get_uncoordinated_snapshots_per_worker files max) as [e|spw] eqn:E;
      [|by eauto].
    destruct (Hinv e eq_refl) as (f & Hf & Hp & Hlen & Hbad).
    by destruct (Hok f Hf Hp Hlen).
Qed.

(** ** What a run of the compactor changes *)

(** The merging loop, whatever its outcome, only writes non-empty dicts at
    the id-0 paths of merged groups. *)
Lemma compact_loop_footprint (groups : list group) td b k :
  (for_each_M compact_group groups td b).1 !! k = b !! k
  ∨ ∃ g d, g ∈ groups ∧ big g ∧ k = base_path g ∧ d ≠ ∅
           ∧ (for_each_M compact_group groups td b).1 !! k = Some (PDict d).
Proof.
  revert td b. induction groups as [|g r IH]; intros td b; [by left|].
  rewrite for_each_M_cons, compact_group_unfold.
  assert (∀ td1 b1,
            (for_each_M compact_group r td1 b1).1 !! k = b1 !! k
            ∨ ∃ g0 d, g0 ∈ g :: r ∧ big g0 ∧ k = base_path g0 ∧ d ≠ ∅
                      ∧ (for_each_M compact_group r td1 b1).1 !! k
                        = Some (PDict d)) as IH'.
  { intros td1 b1. destruct (IH td1 b1) as [?|(g0 & d & ? & ?)]; [by left|].
    right. exists g0, d. split; [by right|done]. }
  destruct (decide (big g)) as [Hbig|]; [|apply IH'].
  destruct (for_each (load_delta b) g.2 (∅, td)) as [e|[data td']]; [by left|].
  destruct (decide (data = ∅)) as [->|Hne]; [apply IH'|].
  destruct (IH' td' (Minio.put_object b (base_path g) (PDict data)))
    as [Heq|?]; [|by right].
  rewrite Heq. unfold Minio.put_object.
  destruct (decide (k = base_path g)) as [->|Hk].
  - right. exists g, data. rewrite lookup_insert_eq.
    split; [left|done].
  - left. by apply lookup_insert_ne.
Qed.

Lemma compact_footprint files max b b' r k :
  compact_uncoordinated_deltas files max b = (b', r) →
  b' !! k = b !! k
  ∨ (∃ spw g d,
       get_uncoordinated_snapshots_per_worker files max = inr spw
       ∧ g ∈ entries spw ∧ big g ∧ k = base_path g
       ∧ d ≠ ∅ ∧ b' !! k = Some (PDict d))
  ∨ (∃ spw g,
       get_uncoordinated_snapshots_per_worker files max = inr spw
       ∧ g ∈ entries spw ∧ big g ∧ k ∈ sources g
       ∧ r = inr tt ∧ b' !! k = None).
Proof.
  rewrite compact_unfold.
  destruct (get_uncoordinated_snapshots_per_worker files max) as [e|spw] eqn:Eg.
  { intros [= <- <-]. by left. }
  pose proof (compact_loop_footprint (entries spw) [] b k) as Hloop.
  destruct (for_each_M compact_group (entries spw) [] b) as [b1 [e|td]] eqn:El;
    simpl in Hloop.
  - intros [= <- <-]. destruct Hloop as [?|(g & d & ?)]; [by left|].
    right; left. by exists spw, g, d.
  - intros [= <- <-].
    destruct (compact_loop_success _ _ _ _ _ (groups_separated _ _ _ Eg) El)
      as [-> _]. simpl.
    rewrite lookup_remove_objects.
    destruct (decide (k ∈ merged_names (entries spw))) as [Hin|Hnin].
    + right; right. apply elem_of_merged_names in Hin as (g & ? & ? & ?).
      by exists spw, g.
    + destruct Hloop as [?|(g & d & ?)]; [by left|].
      right; left. by exists spw, g, d.
Qed.

(** X14. The footprint of a compaction run, whatever its outcome. Every
    object of the bucket is afterwards what it was before, with two
    exceptions: the id-0 path of a group of more than one delta may hold a
    non-empty dict written by the run, and, when the run returned normally,
    a delta of such a group is gone. *)
Theorem compaction_footprint
    (files : list string) (max : Z) (b b' : bucket) (r : Py.exn + unit)
    (k : string)
    (Hrun : compact_uncoordinated_deltas files max b = (b', r)) :
  b' !! k = b !! k
  ∨ (∃ spw g d,
       get_uncoordinated_snapshots_per_worker files max = inr spw
       ∧ g ∈ entries spw ∧ big g ∧ k = base_path g
       ∧ d ≠ ∅ ∧ b' !! k = Some (PDict d))
  ∨ (∃ spw g,
       get_uncoordinated_snapshots_per_worker files max = inr spw
       ∧ g ∈ entries spw ∧ big g ∧ k ∈ sources g
       ∧ r = inr tt ∧ b' !! k = None).
Proof. by apply compact_footprint. Qed.

(** X14 on the run that compacts deltas 1 and 2 of the scenario, at the
    id-0 path. *)
Lemma compaction_footprint_witness :
  let files := bin_files later_orders_bucket "" in
  let b := later_orders_bucket in
  let b' := (compact_uncoordinated_deltas files 2 b).1 in
  let r := (compact_uncoordinated_deltas files 2 b).2 in
  let k := get_snapshot_path 3 "orders" 0 0 in
  b' !! k = b !! k
  ∨ (∃ spw g d,
       get_uncoordinated_snapshots_per_worker files 2 = inr spw
       ∧ g ∈ entries spw ∧ big g ∧ k = base_path g
       ∧ d ≠ ∅ ∧ b' !! k = Some (PDict d))
  ∨ (∃ spw g,
       get_uncoordinated_snapshots_per_worker files 2 = inr spw
       ∧ g ∈ entries spw ∧ big g ∧ k ∈ sources g
       ∧ r = inr tt ∧ b' !! k = None).
Proof.
  apply (compaction_footprint (bin_files later_orders_bucket "") 2
           later_orders_bucket).
  by destruct (compact_uncoordinated_deltas _ _ _).
Defined.

(** X15. A compaction run that raises deletes nothing: every object that was
    in the bucket is still there. The deltas are removed only after every
    group has been merged. If it is the grouping that raises, the bucket is
    not written at all. *)
Theorem failed_compaction_deletes_nothing
    (files : list string) (max : Z) (b b' : bucket) (e : Py.exn)
    (Hrun : compact_uncoordinated_deltas files max b = (b', inl e)) :
  (∀ k, is_Some (b !! k) → is_Some (b' !! k))
  ∧ (∀ e', get_uncoordinated_snapshots_per_worker files max = inl e' → b' = b).
Proof.
  split.
  - intros k Hk.
    destruct (compact_footprint _ _ _ _ _ k Hrun)
      as [->|[(_ & _ & d & _ & _ & _ & _ & _ & ->)
             |(_ & _ & _ & _ & _ & _ & ? & _)]]; done.
  - intros e' Eg. rewrite compact_unfold, Eg in Hrun. by injection Hrun.
Qed.

(** The run on [mixed_bucket] merges the two deltas of ["orders"] and then
    raises on the record among the deltas of ["payments"], whose first
    element is an empty dict: ValueError. *)
Example compaction_of_mixed_bucket :
  start_uncoordinated_snapshot_compaction 2 mixed_bucket
  = (<[get_snapshot_path 3 "orders" 0 0
         := PDict (<["a" := 1]> (<["b" := 2]> ∅))]> mixed_bucket,
     inl Py.ValueError).
Proof. vm_compute. reflexivity. Qed.

(** X15 on [mixed_bucket]. *)
Lemma failed_compaction_deletes_nothing_witness :
  let b' := <[get_snapshot_path 3 "orders" 0 0
                := PDict (<["a" := 1]> (<["b" := 2]> ∅))]> mixed_bucket in
  (∀ k, is_Some (mixed_bucket !! k) → is_Some (b' !! k))
  ∧ (∀ e', get_uncoordinated_snapshots_per_worker
             (bin_files mixed_bucket "") 2 = inl e' → b' = mixed_bucket).
Proof.
  apply (failed_compaction_deletes_nothing (bin_files mixed_bucket "") 2
           mixed_bucket _ Py.ValueError).
  vm_compute. reflexivity.
Defined.

(** X16. Compaction has nothing to do when every listed name parses and no
    two listed names within the bound belong to the same worker and operator
    partition: the job returns normally and leaves the bucket as it is. *)
Theorem compaction_of_single_deltas_is_noop (max : Z) (b : bucket)
    (Hparse : ∀ f, f ∈ bin_files b "" → ∃ key, delta_key f = inr key)
    (Hsingle : ∀ f f' w op id id',
        f ∈ bin_files b "" → f' ∈ bin_files b "" →
        delta_key f = inr (Some (w, op, id)) →
        delta_key f' = inr (Some (w, op, id')) →
        id ≤ max → id' ≤ max → f = f') :
  start_uncoordinated_snapshot_compaction max b = (b, inr tt).
Proof.
  change (compact_uncoordinated_deltas (bin_files b "") max b = (b, inr tt)).
  destruct (add_files_no_error max (bin_files b "") [] Hparse) as [spw0 E0].
  assert (get_uncoordinated_snapshots_per_worker (bin_files b "") max
          = inr (sort_snapshots spw0)) as Eg.
  { unfold get_uncoordinated_snapshots_per_worker. by rewrite E0. }
  rewrite compact_unfold, Eg, compact_loop_small; [done|].
  intros [[w op] snaps] Hg. unfold big. simpl.
  rewrite (groups_entry _ _ _ _ _ _ Eg Hg), sorted_length.
  set (m := members max w op (bin_files b "")).
  rewrite <- (length_fmap snd m).
  assert (NoDup m.*2) as Hnd.
  { eapply sublist_NoDup; [apply bin_files_NoDup|apply members_names_sublist]. }
  destruct m as [|[id0 n0] rest] eqn:Em; [simpl; lia|].
  assert (length ((id0, n0) :: rest).*2 ≤ length [n0])%nat; [|simpl in *; lia].
  apply NoDup_length_le; [done|].
  intros n ([id n'] & -> & Hin)%list_elem_of_fmap. simpl.
  apply list_elem_of_singleton.
  assert ((id, n') ∈ m) as Hm by by rewrite Em.
  assert ((id0, n0) ∈ m) as Hm0 by (rewrite Em; left).
  apply elem_of_members in Hm as (? & ? & ?), Hm0 as (? & ? & ?).
  by eapply Hsingle.
Qed.

(** X16 on [tens_bucket] under the bound 5: only delta 2 is within it. *)
Lemma compaction_of_single_deltas_is_noop_witness :
  start_uncoordinated_snapshot_compaction 5 tens_bucket = (tens_bucket, inr tt).
Proof.
  assert (bin_files tens_bucket ""
          = [get_snapshot_path 3 "orders" 0 10; get_snapshot_path 3 "orders" 0 2])
    as Hfiles by (vm_compute; reflexivity).
  apply (compaction_of_single_deltas_is_noop 5 tens_bucket).
  - intros f Hf. rewrite Hfiles in Hf.
    apply elem_of_cons in Hf as [->|Hf];
      [|apply list_elem_of_singleton in Hf as ->];
      rewrite delta_key_snapshot_path by done; by eexists.
  - intros f f' w op id id' Hf Hf' Hk Hk' Hid Hid'. rewrite Hfiles in Hf, Hf'.
    apply elem_of_cons in Hf as [->|Hf].
    { rewrite delta_key_snapshot_path in Hk by done.
      injection Hk as <- <- <-. lia. }
    apply list_elem_of_singleton in Hf as ->.
    apply elem_of_cons in Hf' as [->|Hf'].
    { rewrite delta_key_snapshot_path in Hk' by done.
      injection Hk' as <- <- <-. lia. }
    by apply list_elem_of_singleton in Hf' as ->.
Defined.

(** ** Compaction and the id-0 object *)

(** X17. When a group of more than one delta contains the object at its own
    id-0 path, a run that returns normally leaves nothing of the partition
    within the bound: the merge is written to the id-0 path, which is also
    marked for deletion as a source, and the final clean-up removes it with
    the other deltas. A listing of the bucket after the run has no member of
    that worker and operator partition. *)
Theorem compaction_over_a_base_deletes_the_merge
    (max : Z) (b b' : bucket) (spw : worker_partition_snapshots) (g : group)
    (Hrun : start_uncoordinated_snapshot_compaction max b = (b', inr tt))
    (Hgroups : get_uncoordinated_snapshots_per_worker (bin_files b "") max
               = inr spw)
    (Hg : g ∈ entries spw)
    (Hbig : big g)
    (Hbase : base_path g ∈ sources g) :
  b' !! base_path g = None
  ∧ (∀ name, name ∈ sources g → b' !! name = None)
  ∧ members max g.1.1 g.1.2 (bin_files b' "") = [].
Proof.
  change (compact_uncoordinated_deltas (bin_files b "") max b = (b', inr tt))
    in Hrun.
  destruct (compact_success _ _ _ _ Hrun) as (spw' & Eg' & Hgone & _).
  rewrite Hgroups in Eg'. injection Eg' as <-.
  assert (∀ name, name ∈ sources g → b' !! name = None) as Hsources.
  { intros name Hname. apply Hgone, elem_of_merged_names. by exists g. }
  split; [by apply Hsources|]. split; [done|].
  destruct (members max g.1.1 g.1.2 (bin_files b' "")) as [|[id n] rest] eqn:Em;
    [done|].
  assert ((id, n) ∈ members max g.1.1 g.1.2 (bin_files b' "")) as Hin
    by (rewrite Em; left).
  destruct (member_after_run max b b' spw Hrun Hgroups _ _ _ _ Hin)
    as (g' & Hg' & Hkey & Hcase).
  assert (g' = g) as ->.
  { apply (group_eq _ _ _ Hgroups); [done..|]. rewrite Hkey.
    by destruct g as [[??]?]. }
  destruct Hcase as [[_ ->]|[? _]]; [|done].
  apply elem_of_members in Hin as ((Hsome & _)%elem_of_bin_files & _).
  rewrite (Hsources _ Hbase) in Hsome. by destruct Hsome.
Qed.

(** X17 on the scenario, whose deltas start at id 0. *)
Lemma compaction_over_a_base_deletes_the_merge_witness :
  let b' := (start_uncoordinated_snapshot_compaction 2 orders_bucket).1 in
  b' !! base_path orders_group = None
  ∧ (∀ name, name ∈ sources orders_group → b' !! name = None)
  ∧ members 2 orders_group.1.1 orders_group.1.2 (bin_files b' "") = [].
Proof.
  apply (compaction_over_a_base_deletes_the_merge 2 orders_bucket _
           [(3, [(("orders", 0), orders_group.2)])] orders_group).
  - vm_compute. reflexivity.
  - vm_compute. reflexivity.
  - vm_compute. left.
  - unfold big. simpl. lia.
  - vm_compute. left.
Defined.

(** ** Compaction and recovery *)

Lemma stream_items_sorted worker op (stream : list (Z * KVPairs)) :
  StronglySorted (λ x y, x.1 < y.1) stream →
  StronglySorted (key_le fst) (stream_item worker op <$> stream).
Proof.
  induction 1 as [|x r _ IH Hx]; [constructor|].
  rewrite fmap_cons. constructor; [done|].
  apply Forall_fmap. eapply Forall_impl; [done|].
  intros y Hy. unfold key_le. simpl in *. lia.
Qed.

Lemma filter_none {A} (P : A → Prop) `{!∀ x, Decision (P x)} (l : list A) :
  (∀ x, x ∈ l → ¬ P x) → filter P l = [].
Proof.
  induction l as [|x r IH]; intros Hl; [done|].
  rewrite filter_cons, decide_False by (apply Hl; left).
  apply IH. intros y ?. apply Hl. by right.
Qed.

Lemma filter_all {A} (P : A → Prop) `{!∀ x, Decision (P x)} (l : list A) :
  (∀ x, x ∈ l → P x) → filter P l = l.
Proof.
  induction l as [|x r IH]; intros Hl; [done|].
  rewrite filter_cons, decide_True by (apply Hl; left).
  f_equal. apply IH. intros y ?. apply Hl. by right.
Qed.

(** A stream in ascending order is its part within a bound followed by its
    part above the bound. *)
Lemma stream_split max (stream : list (Z * KVPairs)) :
  StronglySorted (λ x y, x.1 < y.1) stream →
  stream = (up_to max stream ++ above max stream)%list.
Proof.
  unfold up_to, above. induction 1 as [|x r _ IH Hx]; [done|].
  rewrite Forall_forall in Hx. rewrite !filter_cons.
  destruct (decide (x.1 ≤ max)) as [Hle|Hgt].
  - rewrite decide_False by lia. simpl. by rewrite <- IH.
  - rewrite decide_True by lia.
    rewrite (filter_none (λ x, x.1 ≤ max) r).
    2:{ intros y Hy. specialize (Hx y Hy). simpl in Hx. lia. }
    rewrite (filter_all (λ x, max < x.1) r); [done|].
    intros y Hy. specialize (Hx y Hy). simpl in Hx. lia.
Qed.

Lemma last_write_wins_nonempty (deltas : list KVPairs) :
  deltas ≠ [] → Forall (λ d, d ≠ ∅) deltas → last_write_wins deltas ≠ ∅.
Proof.
  intros Hne Hall.
  destruct (last deltas) as [d|] eqn:Hlast; [|by apply last_None in Hlast].
  assert (d ≠ ∅) as Hd.
  { rewrite Forall_forall in Hall. apply Hall.
    apply last_Some in Hlast as [l' ->]. apply elem_of_app. right. left. }
  apply map_choose in Hd as (k & v & Hk).
  intros Hempty.
  assert (last_write_wins deltas !! k = Some v) as Hl; [|by rewrite Hempty in Hl].
  rewrite last_write_wins_lookup.
  apply last_Some in Hlast as [l' ->].
  rewrite omap_app. simpl. rewrite Hk. by rewrite last_snoc.
Qed.

Lemma path_id_inj w op p id id' :
  get_snapshot_path w op p id = get_snapshot_path w op p id' → id = id'.
Proof.
  intros Heq.
  assert (file_snapshot_id (get_snapshot_path w op p id)
          = file_snapshot_id (get_snapshot_path w op p id')) as Hi by by rewrite Heq.
  rewrite !file_snapshot_id_snapshot_path in Hi. by injection Hi.
Qed.

(** A name under the prefix of an operator partition that the compactor
    parses is filed under that worker and operator partition. *)
Lemma under_prefix_key worker (op : OperatorPartition) name w' op' id :
  contains "/" op.1 = false →
  Py.startswith name (partition_prefix worker op) = true →
  delta_key name = inr (Some (w', op', id)) →
  w' = worker ∧ op' = op.
Proof.
  intros Hop [r ->]%startswith_inv Hkey. unfold delta_key in Hkey.
  rewrite split_partition_prefix in Hkey by done.
  destruct (negb _); [done|].
  destruct (split_cons "/" r) as (h & t & Hr). rewrite Hr in Hkey.
  cbn [length Nat.ltb Nat.leb nth] in Hkey. rewrite !int_str in Hkey.
  simpl in Hkey.
  destruct (Py.int (Py.first (Py.split "." h))); simpl in Hkey; [done|].
  injection Hkey as <- <- <-. by destruct op.
Qed.

Section compacted.
Context (max worker : Z) (op : OperatorPartition) (b b' : bucket).
Context (stream : list (Z * KVPairs)) (spw : worker_partition_snapshots).
Context (Hrun : compact_uncoordinated_deltas (bin_files b "") max b
                = (b', inr tt)).
Context (Hgroups : get_uncoordinated_snapshots_per_worker (bin_files b "") max
                   = inr spw).
Context (Hstream : stream_of b worker op stream).
Context (Hop : contains "/" op.1 = false).
Context (Hcanon : ∀ f id,
            f ∈ bin_files b "" → delta_key f = inr (Some (worker, op, id)) →
            f = get_snapshot_path worker op.1 op.2 id).
Context (Hnobase : 0 ∉ stream.*1).
Context (Hmax : 0 ≤ max).

Lemma path_key id :
  delta_key (get_snapshot_path worker op.1 op.2 id)
  = inr (Some (worker, op, id)).
Proof. rewrite delta_key_snapshot_path by done. by destruct op. Qed.

Lemma path_under_prefix id :
  Py.startswith (get_snapshot_path worker op.1 op.2 id)
    (partition_prefix worker op) = true.
Proof.
  rewrite snapshot_path_under_prefix.
  replace (op.1, op.2) with op by by destruct op. apply startswith_app.
Qed.

Lemma member_stream id name :
  (id, name) ∈ members max worker op (bin_files b "")
  ↔ id ≤ max ∧ id ∈ stream.*1 ∧ name = get_snapshot_path worker op.1 op.2 id.
Proof.
  destruct Hstream as (_ & Hlisted & Hstored).
  rewrite elem_of_members. split.
  - intros (Hf & Hk & Hle). pose proof (Hcanon _ _ Hf Hk) as ->.
    split; [done|]. split; [|done].
    apply elem_of_bin_files in Hf as (Hsome & _ & Hbin).
    destruct (Hlisted (get_snapshot_path worker op.1 op.2 id))
      as (id' & Hid' & Heq).
    { apply elem_of_bin_files. split; [done|]. split; [|done].
      apply path_under_prefix. }
    by rewrite (path_id_inj _ _ _ _ _ Heq).
  - intros (Hle & Hid & ->).
    apply list_elem_of_fmap in Hid as ([id' d] & -> & Hin). simpl.
    destruct (Hstored _ _ Hin) as [Hb _].
    split; [|split; [apply path_key|done]].
    apply elem_of_bin_files. split; [by eexists|].
    split; [apply startswith_nil|apply endswith_snapshot_path].
Qed.

Lemma elem_of_stream_items (l : list (Z * KVPairs)) id name :
  (id, name) ∈ stream_item worker op <$> l
  ↔ id ∈ l.*1 ∧ name = get_snapshot_path worker op.1 op.2 id.
Proof.
  rewrite !list_elem_of_fmap. unfold stream_item. split.
  - intros (y & [= -> ->] & Hy). split; [|done]. by exists y.
  - intros ((y & -> & Hy) & ->). by exists y.
Qed.

Lemma elem_of_up_to_ids id :
  id ∈ (up_to max stream).*1 ↔ id ≤ max ∧ id ∈ stream.*1.
Proof.
  unfold up_to. rewrite !list_elem_of_fmap. split.
  - intros (y & -> & [Hle Hy]%list_elem_of_filter). split; [done|]. by exists y.
  - intros (Hle & y & -> & Hy). exists y. split; [done|].
    by apply list_elem_of_filter.
Qed.

Lemma up_to_sorted :
  StronglySorted (λ x y : Z * KVPairs, x.1 < y.1) (up_to max stream).
Proof. apply filter_StronglySorted. by destruct Hstream. Qed.

(** The group of the partition holds the items of the stream within the
    bound. *)
Lemma group_of_stream snaps :
  (worker, op, snaps) ∈ entries spw →
  snaps = stream_item worker op <$> up_to max stream.
Proof.
  intros Hg. rewrite (groups_entry _ _ _ _ _ _ Hgroups Hg).
  set (m := members max worker op (bin_files b "")).
  assert (∀ x, x ∈ m ↔ x ∈ stream_item worker op <$> up_to max stream) as Hiff.
  { intros [id name]. unfold m.
    rewrite member_stream, elem_of_stream_items, elem_of_up_to_ids. tauto. }
  apply (StronglySorted_unique_strong (key_le fst)).
  - intros [id1 n1] [id2 n2] H1%elem_of_sorted%Hiff H2.
    apply elem_of_stream_items in H1 as [_ ->], H2 as [_ ->].
    unfold key_le. simpl. intros ??. by assert (id1 = id2) as -> by lia.
  - apply sorted_sorted.
  - apply stream_items_sorted, up_to_sorted.
  - rewrite sorted_perm. apply NoDup_Permutation; [| |done].
    + apply (NoDup_fmap_1 snd).
      eapply sublist_NoDup; [apply bin_files_NoDup|apply members_names_sublist].
    + apply (NoDup_fmap_1 fst). rewrite <- list_fmap_compose.
      assert (fst ∘ stream_item worker op <$> up_to max stream
              = (up_to max stream).*1) as ->
        by (by apply list_fmap_ext).
      apply strictly_sorted_NoDup, up_to_sorted.
Qed.

(** A merged group that touches a name under the prefix of the partition is
    the group of the partition. *)
Lemma touched_by_own_group name g :
  g ∈ entries spw → big g →
  Py.startswith name (partition_prefix worker op) = true →
  name = base_path g ∨ name ∈ sources g →
  g = (worker, op, stream_item worker op <$> up_to max stream).
Proof.
  intros Hg Hbig Hname Hcase.
  assert (∃ id, delta_key name = inr (Some (g.1.1, g.1.2, id))) as [id Hk].
  { destruct Hcase as [->|Hsrc].
    - exists 0. by apply (big_group_base_key _ _ _ Hgroups).
    - destruct (group_source _ _ _ Hgroups g name Hg Hsrc)
        as (id & _ & _ & Hk & _). by exists id. }
  destruct (under_prefix_key _ _ _ _ _ _ Hop Hname Hk) as [Hw Ho].
  destruct g as [[w o] snaps]. simpl in Hw, Ho. subst w o.
  by rewrite (group_of_stream snaps Hg).
Qed.

(** Without more than one delta within the bound, the run leaves the
    objects under the prefix of the partition as they are. *)
Lemma small_stream_untouched name :
  ¬ (1 < length (up_to max stream))%nat →
  Py.startswith name (partition_prefix worker op) = true →
  b' !! name = b !! name.
Proof.
  intros Hsmall Hname.
  assert (∀ g, g ∈ entries spw → big g →
               name = base_path g ∨ name ∈ sources g → False) as Hnot.
  { intros g Hg Hbig Hcase.
    rewrite (touched_by_own_group name g Hg Hbig Hname Hcase) in Hbig.
    unfold big in Hbig. simpl in Hbig. by rewrite length_fmap in Hbig. }
  destruct (compact_footprint _ _ _ _ _ name Hrun)
    as [?|[(spw1 & g & d & Eg & Hg & Hbig & -> & _)
          |(spw1 & g & Eg & Hg & Hbig & Hsrc & _)]]; [done|..];
    rewrite Hgroups in Eg; injection Eg as <-; exfalso; eauto.
Qed.

Section big.
Context (Hbig : (1 < length (up_to max stream))%nat).

Lemma own_group :
  (worker, op, stream_item worker op <$> up_to max stream) ∈ entries spw.
Proof.
  destruct (up_to max stream) as [|[id d] rest] eqn:Eearly; [simpl in Hbig; lia|].
  assert (id ∈ (up_to max stream).*1) as Hid by (rewrite Eearly; left).
  apply elem_of_up_to_ids in Hid as [Hle Hid].
  assert ((id, get_snapshot_path worker op.1 op.2 id)
            ∈ members max worker op (bin_files b "")) as Hm
    by by apply member_stream.
  destruct (member_has_group _ _ _ _ _ _ _ Hgroups Hm) as (snaps & Hg & _).
  by rewrite (group_of_stream snaps Hg), Eearly in Hg.
Qed.

Lemma own_group_big :
  big (worker, op, stream_item worker op <$> up_to max stream).
Proof. unfold big. simpl. by rewrite length_fmap. Qed.

Lemma elem_of_own_sources name :
  name ∈ sources (worker, op, stream_item worker op <$> up_to max stream)
  ↔ ∃ id, id ≤ max ∧ id ∈ stream.*1
          ∧ name = get_snapshot_path worker op.1 op.2 id.
Proof.
  unfold sources. simpl. rewrite list_elem_of_fmap. split.
  - intros ([id n] & -> & [Hid ->]%elem_of_stream_items).
    apply elem_of_up_to_ids in Hid as [? ?]. by exists id.
  - intros (id & Hle & Hid & ->).
    exists (id, get_snapshot_path worker op.1 op.2 id). split; [done|].
    apply elem_of_stream_items. split; [|done]. by apply elem_of_up_to_ids.
Qed.

Lemma base_not_a_source :
  get_snapshot_path worker op.1 op.2 0
    ∉ sources (worker, op, stream_item worker op <$> up_to max stream).
Proof.
  intros (id & _ & Hid & Heq)%elem_of_own_sources.
  apply path_id_inj in Heq as <-. done.
Qed.

Lemma own_deltas deltas (l : list (Z * KVPairs)) :
  (∀ x, x ∈ l → x ∈ stream) →
  Forall2 (λ item delta, b !! item.2 = Some (PDict delta))
          (stream_item worker op <$> l) deltas →
  deltas = l.*2.
Proof.
  destruct Hstream as (_ & _ & Hstored).
  revert deltas. induction l as [|[id d] r IH]; intros deltas Hsub HF.
  - by apply Forall2_nil_inv_l in HF.
  - rewrite fmap_cons in HF.
    apply Forall2_cons_inv_l in HF as (d' & ds & Hb & HF & ->).
    simpl in Hb. destruct (Hstored id d) as [Hb' _]; [apply Hsub; left|].
    rewrite Hb' in Hb. injection Hb as <-.
    rewrite fmap_cons. simpl. f_equal. apply IH; [|done].
    intros x ?. apply Hsub. by right.
Qed.

Lemma merge_nonempty : last_write_wins (up_to max stream).*2 ≠ ∅.
Proof.
  destruct Hstream as (_ & _ & Hstored).
  apply last_write_wins_nonempty.
  - destruct (up_to max stream); [simpl in Hbig; lia|done].
  - apply Forall_fmap, Forall_forall. intros [id d] Hin. simpl.
    unfold up_to in Hin. apply list_elem_of_filter in Hin as [_ Hin].
    by destruct (Hstored _ _ Hin).
Qed.

(** The objects of the partition after the run. *)
Lemma after_run_base :
  b' !! get_snapshot_path worker op.1 op.2 0
  = Some (PDict (last_write_wins (up_to max stream).*2)).
Proof.
  destruct (compact_success _ _ _ _ Hrun) as (spw1 & Eg & _ & _ & Hmerged).
  rewrite Hgroups in Eg. injection Eg as <-.
  destruct (Hmerged _ own_group own_group_big) as (deltas & HF & Hbase).
  simpl in HF. apply own_deltas in HF as ->.
  2:{ intros x Hx. unfold up_to in Hx. by apply list_elem_of_filter in Hx as [_ ?]. }
  change (base_path (worker, op, stream_item worker op <$> up_to max stream))
    with (get_snapshot_path worker op.1 op.2 0) in Hbase.
  rewrite Hbase; [by rewrite decide_False by apply merge_nonempty|].
  intros (g & Hg & Hgbig & Hsrc)%elem_of_merged_names.
  apply base_not_a_source.
  destruct (groups_separated _ _ _ Hgroups) as [_ Hsep].
  by rewrite <- (Hsep g _ Hg own_group Hgbig own_group_big Hsrc).
Qed.

Lemma after_run_early id :
  id ≤ max → id ∈ stream.*1 →
  b' !! get_snapshot_path worker op.1 op.2 id = None.
Proof.
  intros Hle Hid.
  destruct (compact_success _ _ _ _ Hrun) as (spw1 & Eg & Hgone & _).
  rewrite Hgroups in Eg. injection Eg as <-.
  apply Hgone, elem_of_merged_names. eexists. split; [apply own_group|].
  split; [apply own_group_big|]. apply elem_of_own_sources. by exists id.
Qed.

Lemma after_run_late id :
  max < id →
  b' !! get_snapshot_path worker op.1 op.2 id
  = b !! get_snapshot_path worker op.1 op.2 id.
Proof.
  intros Hgt.
  destruct (compact_footprint _ _ _ _ _ (get_snapshot_path worker op.1 op.2 id)
              Hrun)
    as [?|[(spw1 & g & d & Eg & Hg & Hgbig & Heq & _)
          |(spw1 & g & Eg & Hg & Hgbig & Hsrc & _)]]; [done|..];
    rewrite Hgroups in Eg; injection Eg as <-; exfalso.
  - pose proof (big_group_base_key _ _ _ Hgroups g Hg Hgbig) as Hk.
    rewrite <- Heq, path_key in Hk. injection Hk as _ _ ?. lia.
  - destruct (group_source _ _ _ Hgroups g _ Hg Hsrc) as (id' & _ & _ & Hk & ?).
    rewrite path_key in Hk. injection Hk as _ _ ?. lia.
Qed.

Lemma compacted_stream_of :
  stream_of b' worker op
    ((0, last_write_wins (up_to max stream).*2) :: above max stream).
Proof.
  pose proof Hstream as (Hsorted & Hlisted & Hstored).
  split; [|split].
  - constructor.
    + apply filter_StronglySorted. done.
    + apply Forall_forall. intros x [Hx _]%list_elem_of_filter. simpl. lia.
  - intros name (Hsome & Hname & Hbin)%elem_of_bin_files.
    destruct (compact_footprint _ _ _ _ _ name Hrun)
      as [Heq|[(spw1 & g & d & Eg & Hg & Hgbig & Heq & _)
              |(_ & _ & _ & _ & _ & _ & _ & Hnone)]].
    + destruct (Hlisted name) as (id & Hid & ->).
      { apply elem_of_bin_files. by rewrite <- Heq. }
      exists id. split; [|done]. rewrite fmap_cons. right.
      destruct (decide (id ≤ max)) as [Hle|Hgt].
      { rewrite (after_run_early id Hle Hid) in Hsome. by destruct Hsome. }
      apply list_elem_of_fmap in Hid as (x & -> & Hx).
      apply list_elem_of_fmap. exists x. split; [done|].
      apply list_elem_of_filter. split; [lia|done].
    + rewrite Hgroups in Eg. injection Eg as <-.
      rewrite (touched_by_own_group name g Hg Hgbig Hname (or_introl Heq))
        in Heq.
      exists 0. split; [rewrite fmap_cons; left|done].
    + rewrite Hnone in Hsome. by destruct Hsome.
  - intros id d [[= -> ->]|Hin]%elem_of_cons.
    + split; [apply after_run_base|apply merge_nonempty].
    + apply list_elem_of_filter in Hin as [Hgt Hin]. simpl in Hgt.
      rewrite after_run_late by done. by apply Hstored.
Qed.
End big.

Lemma compacted_stream_spec : stream_of b' worker op (compacted_stream max stream).
Proof.
  unfold compacted_stream.
  destruct (decide (1 < length (up_to max stream))%nat) as [Hbig|Hsmall];
    [by apply compacted_stream_of|].
  destruct Hstream as (Hsorted & Hlisted & Hstored).
  split; [done|]. split.
  - intros name (Hsome & Hname & Hbin)%elem_of_bin_files. apply Hlisted.
    apply elem_of_bin_files. by rewrite <- small_stream_untouched.
  - intros id d Hin. rewrite small_stream_untouched; [by apply Hstored|done|].
    apply path_under_prefix.
Qed.

Lemma compacted_stream_merge target :
  max ≤ target →
  (up_to target (compacted_stream max stream) = [] ↔ up_to target stream = [])
  ∧ last_write_wins (up_to target (compacted_stream max stream)).*2
    = last_write_wins (up_to target stream).*2.
Proof.
  intros Hbound. unfold compacted_stream.
  destruct (decide (1 < length (up_to max stream))%nat) as [Hbig|Hsmall];
    [|done].
  destruct Hstream as (Hsorted & _ & _).
  assert (up_to target stream
          = (up_to max stream ++ up_to target (above max stream))%list) as Hsplit.
  { rewrite (stream_split max stream Hsorted) at 1.
    unfold up_to at 1. rewrite filter_app. f_equal.
    apply filter_all. intros x [Hx _]%list_elem_of_filter. lia. }
  assert (∀ m, up_to target ((0, m) :: above max stream)
               = (0, m) :: up_to target (above max stream)) as Hcons.
  { intros m. unfold up_to. by rewrite filter_cons, decide_True by (simpl; lia). }
  rewrite Hcons, Hsplit. split.
  - split; [done|]. intros Hnil. apply app_eq_nil in Hnil as [Hnil _].
    rewrite Hnil in Hbig. simpl in Hbig. lia.
  - rewrite fmap_cons, fmap_app. unfold last_write_wins.
    rewrite foldl_app. cbn [foldl snd]. f_equal.
    unfold dict_update. apply (right_id_L ∅ (∪)).
Qed.
End compacted.

(** X18. Compaction does not change what recovery of a partition returns,
    as long as the id-0 path is free. For a partition of an operator without
    a slash in the name whose deltas are stored as the snapshotter names
    them, each a non-empty dict, none at id 0, with no other [.bin] object
    under the prefix, whose group the compactor fills from those names only
    and that has no entry yet in the result; after a run of the job that
    returned normally under a bound between 0 and the target. The deltas of
    the partition in the bucket are then [compacted_stream]: when more than
    one delta is within the bound, the merge of those at id 0 followed by
    the deltas above the bound; when at most one is, the deltas as they
    were, with nothing written at id 0. In both cases the loop of the
    partition at the target returns what it returned before the run. *)
Theorem compaction_preserves_recovery
    (max target worker : Z) (op : OperatorPartition) (b b' : bucket)
    (stream : list (Z * KVPairs)) (data : gmap (string * Z) payload)
    (Hrun : start_uncoordinated_snapshot_compaction max b = (b', inr tt))
    (Hstream : stream_of b worker op stream)
    (Hop : contains "/" op.1 = false)
    (Hcanon : ∀ f id,
        f ∈ bin_files b "" → delta_key f = inr (Some (worker, op, id)) →
        f = get_snapshot_path worker op.1 op.2 id)
    (Hnobase : 0 ∉ stream.*1)
    (Hbound : 0 ≤ max ≤ target)
    (Hfresh : data !! op = None) :
  stream_of b' worker op (compacted_stream max stream)
  ∧ recover_partition b' worker target data op
    = recover_partition b worker target data op.
Proof.
  change (compact_uncoordinated_deltas (bin_files b "") max b = (b', inr tt))
    in Hrun.
  destruct (compact_success _ _ _ _ Hrun) as (spw & Hgroups & _).
  assert (stream_of b' worker op (compacted_stream max stream)) as Hstream'.
  { apply (compacted_stream_spec max worker op b b' stream spw); (done || lia). }
  split; [done|].
  rewrite (recover_partition_stream _ _ _ _ _ _ Hstream' Hfresh).
  rewrite (recover_partition_stream _ _ _ _ _ _ Hstream Hfresh).
  destruct (compacted_stream_merge max worker op b stream Hstream
              ltac:(lia) target ltac:(lia)) as [Hnil ->].
  f_equal.
  destruct (decide (up_to target (compacted_stream max stream) = []))
    as [Hn|Hn]; [by rewrite decide_True by by apply Hnil|].
  rewrite decide_False; [done|]. intros ?. by apply Hn, Hnil.
Qed.

Example later_orders_listing :
  bin_files later_orders_bucket ""
  = [get_snapshot_path 3 "orders" 0 1; get_snapshot_path 3 "orders" 0 2;
     get_sequencer_path 3 0; get_sequencer_path 3 1]
  ∧ bin_files later_orders_bucket (partition_prefix 3 ("orders", 0))
    = [get_snapshot_path 3 "orders" 0 1; get_snapshot_path 3 "orders" 0 2].
Proof. split; vm_compute; reflexivity. Qed.

(** X18 on the scenario without delta 0, compacted under the bound 2 and
    recovered at target 2. *)
Lemma compaction_preserves_recovery_witness :
  let b := later_orders_bucket in
  let b' := (start_uncoordinated_snapshot_compaction 2 b).1 in
  let stream := [(1, <["b" := 3]> (<["c" := 4]> ∅)); (2, <["a" := 5]> ∅)] in
  stream_of b' 3 ("orders", 0) (compacted_stream 2 stream)
  ∧ recover_partition b' 3 2 ∅ ("orders", 0)
    = recover_partition b 3 2 ∅ ("orders", 0).
Proof.
  destruct later_orders_listing as [Hall Hown].
  apply (compaction_preserves_recovery 2 2 3 ("orders", 0) later_orders_bucket _
           [(1, <["b" := 3]> (<["c" := 4]> ∅)); (2, <["a" := 5]> ∅)] ∅).
  - vm_compute. reflexivity.
  - split; [|split].
    + repeat constructor.
    + intros name Hin. rewrite Hown in Hin.
      apply elem_of_cons in Hin as [->|Hin].
      * exists 1. split; [|done]. simpl. by left.
      * apply list_elem_of_singleton in Hin as ->.
        exists 2. split; [|done]. simpl. by right; left.
    + intros id d [Hx|Hin]%elem_of_cons.
      * injection Hx as -> ->. split; [by vm_compute|].
        intros He. by apply (f_equal (λ m : KVPairs, m !! "b")) in He.
      * apply list_elem_of_singleton in Hin. injection Hin as -> ->.
        split; [by vm_compute|].
        intros He. by apply (f_equal (λ m : KVPairs, m !! "a")) in He.
  - reflexivity.
  - intros f id Hf Hk. rewrite Hall in Hf.
    apply elem_of_cons in Hf as [->|Hf].
    { rewrite delta_key_snapshot_path in Hk by done. by injection Hk as <-. }
    apply elem_of_cons in Hf as [->|Hf].
    { rewrite delta_key_snapshot_path in Hk by done. by injection Hk as <-. }
    apply elem_of_cons in Hf as [->|Hf].
    { by rewrite delta_key_sequencer_path in Hk. }
    apply list_elem_of_singleton in Hf as ->.
    by rewrite delta_key_sequencer_path in Hk.
  - simpl. intros [?|[?|?%elem_of_nil]%elem_of_cons]%elem_of_cons; done.
  - lia.
  - apply lookup_empty.
Defined.

(** The run of X18 on the scenario: recovery at target 2 returns the same
    state from the merge as from the two deltas. *)
Example recovery_after_compaction_of_later_orders :
  recover_partition
    (start_uncoordinated_snapshot_compaction 2 later_orders_bucket).1
    3 2 ∅ ("orders", 0)
  = inr (<[("orders", 0)
             := PDict (<["a" := 5]> (<["b" := 3]> (<["c" := 4]> ∅)))]> ∅).
Proof. vm_compute. reflexivity. Qed.

(** ** Storing a snapshot and recovering it *)

Lemma strictly_sorted_snoc (stream : list (Z * KVPairs)) x :
  StronglySorted (λ x y, x.1 < y.1) stream →
  (∀ y, y ∈ stream → y.1 < x.1) →
  StronglySorted (λ x y, x.1 < y.1) (stream ++ [x]).
Proof.
  induction 1 as [|y r _ IH Hy]; intros Hlt; simpl.
  - repeat constructor.
  - constructor.
    + apply IH. intros z ?. apply Hlt. by right.
    + apply Forall_app. split; [done|].
      constructor; [|constructor]. apply Hlt. left.
Qed.

(** X19. Storing a delta extends the stream that recovery reads. When the
    deltas of a partition are stored as the snapshotter names them, each of
    them a non-empty dict, with no other [.bin] object under the prefix, and
    a non-empty dict is stored with [store_snapshot] at the path of an id
    above all of them, the bucket holds the stream extended by the new
    delta, and the loop of the partition, for a partition without an entry
    yet, at a target from that id on returns the last-write-wins merge of
    the earlier deltas updated with the new one. An empty dict among the
    earlier deltas is excluded: recovery replaces the state by it. *)
Theorem stored_delta_is_recovered
    (b : bucket) (worker target id : Z) (op : OperatorPartition)
    (stream : list (Z * KVPairs)) (d : KVPairs)
    (data : gmap (string * Z) payload)
    (Hstream : stream_of b worker op stream)
    (Hnext : ∀ x, x ∈ stream → x.1 < id)
    (Hd : d ≠ ∅)
    (Htarget : id ≤ target)
    (Hfresh : data !! op = None) :
  let b' := (store_snapshot id (get_snapshot_path worker op.1 op.2 id)
               (PDict d) b).1 in
  stream_of b' worker op (stream ++ [(id, d)])
  ∧ recover_partition b' worker target data op
    = inr (<[op := PDict (dict_update (last_write_wins stream.*2) d)]> data).
Proof.
  intros b'.
  assert (b' = <[get_snapshot_path worker op.1 op.2 id := PDict d]> b) as Hb'
    by done.
  destruct Hstream as (Hsorted & Hlisted & Hstored).
  assert (stream_of b' worker op (stream ++ [(id, d)])) as Hstream'.
  { split; [|split].
    - by apply strictly_sorted_snoc.
    - intros name (Hsome & Hname & Hbin)%elem_of_bin_files.
      rewrite fmap_app.
      destruct (decide (name = get_snapshot_path worker op.1 op.2 id))
        as [->|Hne].
      + exists id. split; [|done]. apply elem_of_app. right. left.
      + rewrite Hb', lookup_insert_ne in Hsome by done.
        destruct (Hlisted name) as (id' & Hid' & ->);
          [by apply elem_of_bin_files|].
        exists id'. split; [|done]. apply elem_of_app. by left.
    - intros id' d' [Hin|Hin]%elem_of_app.
      + rewrite Hb', lookup_insert_ne; [by apply Hstored|].
        intros Heq%path_id_inj. specialize (Hnext _ Hin). simpl in Hnext. lia.
      + apply list_elem_of_singleton in Hin. injection Hin as -> ->.
        by rewrite Hb', lookup_insert_eq. }
  split; [done|].
  rewrite (recover_partition_stream _ _ _ _ _ _ Hstream' Hfresh).
  assert (up_to target (stream ++ [(id, d)]) = (stream ++ [(id, d)])%list) as ->.
  { apply filter_all. intros x [Hx|Hx]%elem_of_app.
    - specialize (Hnext _ Hx). lia.
    - apply list_elem_of_singleton in Hx as ->. done. }
  rewrite decide_False by (by destruct stream).
  unfold last_write_wins. by rewrite fmap_app, foldl_app.
Qed.

Example orders_listing :
  bin_files orders_bucket (partition_prefix 3 ("orders", 0))
  = [get_snapshot_path 3 "orders" 0 0; get_snapshot_path 3 "orders" 0 1;
     get_snapshot_path 3 "orders" 0 2].
Proof. vm_compute. reflexivity. Qed.

(** X19 on the scenario: delta 3 = {c:9} is stored after deltas 0, 1, 2. *)
Lemma stored_delta_is_recovered_witness :
  let stream := [(0, <["a" := 1]> (<["b" := 2]> ∅));
                 (1, <["b" := 3]> (<["c" := 4]> ∅)); (2, <["a" := 5]> ∅)] in
  let b' := (store_snapshot 3 (get_snapshot_path 3 "orders" 0 3)
               (PDict (<["c" := 9]> ∅)) orders_bucket).1 in
  stream_of b' 3 ("orders", 0) (stream ++ [(3, <["c" := 9]> ∅)])
  ∧ recover_partition b' 3 3 ∅ ("orders", 0)
    = inr (<[("orders", 0)
               := PDict (dict_update (last_write_wins stream.*2)
                           (<["c" := 9]> ∅))]> ∅).
Proof.
  apply (stored_delta_is_recovered orders_bucket 3 3 3 ("orders", 0)
           [(0, <["a" := 1]> (<["b" := 2]> ∅));
            (1, <["b" := 3]> (<["c" := 4]> ∅)); (2, <["a" := 5]> ∅)]
           (<["c" := 9]> ∅) ∅).
  - split; [|split].
    + repeat constructor.
    + intros name Hin. rewrite orders_listing in Hin.
      apply elem_of_cons in Hin as [->|Hin]; [exists 0; split; [by left|done]|].
      apply elem_of_cons in Hin as [->|Hin];
        [exists 1; split; [by right; left|done]|].
      apply list_elem_of_singleton in Hin as ->.
      exists 2. split; [by right; right; left|done].
    + intros id d [Hx|Hin]%elem_of_cons.
      { injection Hx as -> ->. split; [by vm_compute|].
        intros He. by apply (f_equal (λ m : KVPairs, m !! "a")) in He. }
      apply elem_of_cons in Hin as [Hx|Hin].
      { injection Hx as -> ->. split; [by vm_compute|].
        intros He. by apply (f_equal (λ m : KVPairs, m !! "b")) in He. }
      apply list_elem_of_singleton in Hin. injection Hin as -> ->.
      split; [by vm_compute|].
      intros He. by apply (f_equal (λ m : KVPairs, m !! "a")) in He.
  - intros x [->|[->|Hx]%elem_of_cons]%elem_of_cons; [simpl; lia..|].
    apply list_elem_of_singleton in Hx as ->. simpl. lia.
  - intros He. by apply (f_equal (λ m : KVPairs, m !! "c")) in He.
  - lia.
  - apply lookup_empty.
Defined.
